(** * clangd-mcp-server: a shallow embedding of the bridge and its properties

    The development follows the TypeScript sources:
    - [JsString], [Path], [Js]: the string operations, the [node:path]
      (POSIX) functions and the JavaScript values the sources use;
    - [ConfigDetector]: [parseShellArgs] and [generateClangdArgs]
      (src/config-detector.ts);
    - [CMakeDetector]: [detectCMakeSources] (src/cmake-detector.ts);
    - [WorkspaceSymbol]: [workspaceSymbolSearch] (src/tools/workspace-symbol.ts);
    - [ToolCall]: [validateToolArgs] and the tool-call handler (src/index.ts);
    - [LazyInit]: [ensureClangdInitialized] (src/index.ts);
    - [Watcher]: [startCompileCommandsWatcher] (src/index.ts);
    - [FileTracker]: the open-document tracker (src/file-tracker.ts), run as
      cooperative tasks that suspend at every [await].

    Beside these the modules hold [detectConfiguration] with the searches
    it makes, [selectWarmingFiles], the input schemas of the listed tools,
    and the batches of [openSourceFiles] (src/index.ts).

    JavaScript strings are [string]s, arrays are lists, a [Map] is an
    association list kept in insertion order, a [Set] whose order is never
    observed is a [gset], numbers are rationals extended with NaN and the
    two infinities, and time is an integer number of milliseconds. Code
    running between two [await]s is one function from state to state; what
    the event loop may run next is an event of a step function. *)

From Stdlib Require Import ZArith QArith Qround Ascii String List Bool Lia.
From Stdlib Require Import Permutation Sorted.
From stdpp Require Import base gmap strings list.
Import ListNotations.

Local Open Scope string_scope.
Local Open Scope list_scope.
Set Warnings "-register-all".

(** ** JavaScript string operations *)

Module JsString.

(** [s.startsWith(p)] *)
Definition startsWith (s p : string) : bool := String.prefix p s.

(** A [string] holds the UTF-8 bytes of a JavaScript string. The source
    counts and compares UTF-16 code units: a character of one, two or three
    bytes is one code unit, and a character of four bytes (beyond U+FFFF) is
    two, a high and a low surrogate. Strings are well formed: UTF-8 holds
    no surrogate on its own. *)

(** A byte that continues a character: [10xxxxxx]. *)
Definition isContinuation (c : ascii) : bool :=
  let n := nat_of_ascii c in (128 <=? n)%nat && (n <? 192)%nat.

(** The first byte of a character of four bytes: [11110xxx]. *)
Definition isLead4 (c : ascii) : bool := (240 <=? nat_of_ascii c)%nat.

(** A byte that is a character of its own. *)
Definition isAscii (c : ascii) : bool := (nat_of_ascii c <? 128)%nat.

Fixpoint dropContinuation (s : string) : string :=
  match s with
  | EmptyString => EmptyString
  | String c s' => if isContinuation c then dropContinuation s' else s
  end.

(** [s.slice(1)]: the string without its first code unit. Of a character
    of four bytes the low surrogate stays: the three continuation bytes
    left at the front stand for it (no well-formed string starts with
    them), and the next step drops them. *)
Definition dropUnit (s : string) : string :=
  match s with
  | EmptyString => EmptyString
  | String c s' =>
      if isAscii c || isLead4 c then s' else dropContinuation s'
  end.

(** [s.slice(n)] for a non-negative [n] *)
Fixpoint slice (n : nat) (s : string) : string :=
  match n with
  | O => s
  | S n' => slice n' (dropUnit s)
  end.

(** [s.length]: the number of code units *)
Fixpoint unitLength (s : string) : nat :=
  match s with
  | EmptyString => 0
  | String c s' =>
      (if isContinuation c then 0 else if isLead4 c then 2 else 1)
      + unitLength s'
  end.

(** Where a byte stands in the order of the code units: the characters
    from U+E000 to U+FFFF (first byte [EE] or [EF]) come after the
    characters beyond U+FFFF (first byte [F0] and up), whose code units are
    surrogates; otherwise the bytes are in the order of the code units. *)
Definition unitRank (c : ascii) : nat :=
  let n := nat_of_ascii c in
  if (n <? 238)%nat then n
  else if (n <? 240)%nat then n + 16
  else n - 2.

(** [a <= b] by code units, as [Array.prototype.sort] compares strings *)
Fixpoint leUnits (a b : string) : bool :=
  match a, b with
  | EmptyString, _ => true
  | String _ _, EmptyString => false
  | String x a', String y b' =>
      if (unitRank x <? unitRank y)%nat then true
      else if (unitRank y <? unitRank x)%nat then false
      else leUnits a' b'
  end.

(** Every character of the string is one byte. *)
Fixpoint asciiOnly (s : string) : bool :=
  match s with
  | EmptyString => true
  | String c s' => isAscii c && asciiOnly s'
  end.

(** [s.includes(p)] *)
Fixpoint includes (s p : string) : bool :=
  startsWith s p ||
  match s with
  | EmptyString => false
  | String _ s' => includes s' p
  end.

(** [s.endsWith(p)] *)
Definition endsWith (s p : string) : bool :=
  startsWith (String.rev s) (String.rev p).

Definition lowerChar (c : ascii) : ascii :=
  let n := nat_of_ascii c in
  if (65 <=? n)%nat && (n <=? 90)%nat then ascii_of_nat (n + 32) else c.

(** [s.toLowerCase()] on the ASCII letters *)
Fixpoint toLowerCase (s : string) : string :=
  match s with
  | EmptyString => EmptyString
  | String c s' => String (lowerChar c) (toLowerCase s')
  end.

(** [s + c] for a single character [c] *)
Definition push (s : string) (c : ascii) : string := s +:+ String c EmptyString.

Fixpoint split_go (sep : ascii) (cur : string) (s : string) : list string :=
  match s with
  | EmptyString => [cur]
  | String c s' =>
      if Ascii.eqb c sep then cur :: split_go sep EmptyString s'
      else split_go sep (push cur c) s'
  end.

(** [s.split(sep)] for a one-character separator *)
Definition split (sep : ascii) (s : string) : list string :=
  split_go sep EmptyString s.

(** [parts.join(sep)] *)
Fixpoint join (sep : string) (parts : list string) : string :=
  match parts with
  | [] => EmptyString
  | [p] => p
  | p :: rest => p +:+ sep +:+ join sep rest
  end.

(** JavaScript truthiness of a string: only the empty string is falsy. *)
Definition truthy (s : string) : bool :=
  match s with EmptyString => false | _ => true end.

Lemma startsWith_empty s : startsWith s EmptyString = true.
Proof. now destruct s. Qed.

Lemma startsWith_app p t : startsWith (p +:+ t) p = true.
Proof.
  unfold startsWith. induction p as [|c p IH]; simpl.
  - now destruct t.
  - destruct (ascii_dec c c); [exact IH | congruence].
Qed.

Lemma startsWith_cons c s p :
  startsWith (String c s) (String c p) = startsWith s p.
Proof. unfold startsWith. simpl. destruct (ascii_dec c c); congruence. Qed.

Lemma isAscii_not_continuation c : isAscii c = true -> isContinuation c = false.
Proof.
  unfold isAscii, isContinuation. cbv zeta. intros H.
  apply Nat.ltb_lt in H.
  destruct (Nat.leb_spec 128 (nat_of_ascii c)); [lia | reflexivity].
Qed.

(** On characters of one byte the code units are the bytes. *)
Lemma unitLength_ascii p : asciiOnly p = true -> unitLength p = String.length p.
Proof.
  induction p as [|c p IH]; cbn [asciiOnly unitLength String.length];
    [reflexivity|].
  intros H. apply andb_prop in H as [Hc Hp].
  rewrite (isAscii_not_continuation c Hc), (IH Hp).
  unfold isLead4. unfold isAscii in Hc. apply Nat.ltb_lt in Hc.
  destruct (Nat.leb_spec 240 (nat_of_ascii c)); [lia | reflexivity].
Qed.

Lemma slice_app p t :
  asciiOnly p = true -> slice (unitLength p) (p +:+ t) = t.
Proof.
  induction p as [|c p IH]; cbn [asciiOnly unitLength]; [reflexivity|].
  intros H. apply andb_prop in H as [Hc Hp].
  rewrite (isAscii_not_continuation c Hc).
  replace (isLead4 c) with false.
  - change (slice (unitLength p) (dropUnit (String c (p +:+ t))) = t).
    cbn [dropUnit]. rewrite Hc. cbn [orb]. exact (IH Hp).
  - unfold isLead4. unfold isAscii in Hc. apply Nat.ltb_lt in Hc.
    destruct (Nat.leb_spec 240 (nat_of_ascii c)); [lia | reflexivity].
Qed.

Lemma slice_past_separator p c t :
  asciiOnly p = true -> isAscii c = true ->
  slice (unitLength p + 1) (p +:+ String c t) = t.
Proof.
  intros Hp Hc. rewrite Nat.add_comm. cbn [plus slice].
  assert (Hdrop : forall q, asciiOnly q = true ->
            slice (unitLength q) (dropUnit (q +:+ String c t)) = t).
  { induction q as [|c' q IH]; cbn [asciiOnly unitLength].
    - intros _. cbn [slice]. change (dropUnit (String c t) = t).
      cbn [dropUnit]. now rewrite Hc.
    - intros H. apply andb_prop in H as [Hc' Hq].
      rewrite (isAscii_not_continuation c' Hc').
      replace (isLead4 c') with false.
      + change (slice (unitLength q)
                  (dropUnit (dropUnit (String c' (q +:+ String c t)))) = t).
        assert (Hd : dropUnit (String c' (q +:+ String c t)) = q +:+ String c t)
          by (cbn [dropUnit]; now rewrite Hc').
        rewrite Hd. exact (IH Hq).
      + unfold isLead4. unfold isAscii in Hc'. apply Nat.ltb_lt in Hc'.
        destruct (Nat.leb_spec 240 (nat_of_ascii c')); [lia | reflexivity]. }
  exact (Hdrop p Hp).
Qed.

Lemma leUnits_total a : forall b, leUnits a b = false -> leUnits b a = true.
Proof.
  induction a as [|x a IH]; intros [|y b]; cbn [leUnits]; try discriminate;
    try reflexivity.
  destruct (Nat.ltb_spec (unitRank x) (unitRank y)); [discriminate|].
  destruct (Nat.ltb_spec (unitRank y) (unitRank x)); [reflexivity|].
  apply IH.
Qed.

(** Two prefixes of one string are comparable. *)
Lemma startsWith_comparable r a b :
  startsWith r a = true -> startsWith r b = true ->
  startsWith b a = true \/ startsWith a b = true.
Proof.
  unfold startsWith. revert a b.
  induction r as [|c r IH]; intros [|ca a] [|cb b]; simpl; auto;
    try discriminate.
  destruct (ascii_dec ca c) as [->|]; [|discriminate].
  destruct (ascii_dec cb c) as [->|]; [|discriminate].
  destruct (ascii_dec c c); [|congruence]. apply IH.
Qed.

(** [slice] and [length] count UTF-16 code units: [é] (two bytes) and [日]
    (three bytes) are one unit each, [😀] (four bytes) is two. *)
Example slice_counts_code_units :
  slice 6 "/projébuild/x.c" = "build/x.c"
  /\ slice 3 "/abcdX/q.c" = "cdX/q.c"
  /\ unitLength "/日" = 2
  /\ unitLength "/😀" = 3
  /\ slice 3 "a😀b" = "b".
Proof. repeat split. Qed.

(** The order of code units puts [😀] (units D83D DE00) before [～] (unit
    FF5E), the order of code points and of bytes puts it after. *)
Example leUnits_surrogates :
  leUnits "/a" "/😀" = true /\ leUnits "/😀" "/～" = true
  /\ leUnits "/～" "/😀" = false /\ String.leb "/～" "/😀" = true.
Proof. repeat split. Qed.

Example includes_inner : includes "src/build/a.c" "/build/" = true.
Proof. reflexivity. Qed.

Example endsWith_extension : endsWith (toLowerCase "/p/Main.CPP") ".cpp" = true.
Proof. reflexivity. Qed.

End JsString.

(** ** The POSIX flavour of node:path *)

Module Path.
Import JsString.

Definition isDotDot (s : string) : bool := String.eqb s "..".

(** [normalizeString]: the segment stack is kept with its top first. *)
Fixpoint normalizeSegments (allowAboveRoot : bool) (stack : list string)
  (segs : list string) : list string :=
  match segs with
  | [] => List.rev stack
  | seg :: rest =>
      if String.eqb seg EmptyString || String.eqb seg "." then
        normalizeSegments allowAboveRoot stack rest
      else if isDotDot seg then
        match stack with
        | top :: below =>
            if isDotDot top then
              normalizeSegments allowAboveRoot
                (if allowAboveRoot then seg :: stack else stack) rest
            else normalizeSegments allowAboveRoot below rest
        | [] =>
            normalizeSegments allowAboveRoot
              (if allowAboveRoot then [seg] else []) rest
        end
      else normalizeSegments allowAboveRoot (seg :: stack) rest
  end.

Definition normalizeString (path : string) (allowAboveRoot : bool) : string :=
  join "/" (normalizeSegments allowAboveRoot [] (split "/" path)).

(** [path.normalize] *)
Definition normalize (path : string) : string :=
  if negb (truthy path) then "."
  else
    let isAbsolute := startsWith path "/" in
    let trailingSeparator := endsWith path "/" in
    let body := normalizeString path (negb isAbsolute) in
    if negb (truthy body) then
      if isAbsolute then "/" else if trailingSeparator then "./" else "."
    else
      let body' := if trailingSeparator then body +:+ "/" else body in
      if isAbsolute then "/" +:+ body' else body'.

(** [path.join(a, b)]: empty arguments are skipped. *)
Definition join2 (a b : string) : string :=
  match truthy a, truthy b with
  | false, false => "."
  | true, false => normalize a
  | false, true => normalize b
  | true, true => normalize (a +:+ "/" +:+ b)
  end.

(** [path.resolve(dir, file)] with the process working directory [cwd]:
    arguments are taken from the right until an absolute one is found. *)
Definition resolve (cwd dir file : string) : string :=
  let joined :=
    if startsWith file "/" then file
    else if startsWith dir "/" then dir +:+ "/" +:+ file
    else cwd +:+ "/" +:+ dir +:+ "/" +:+ file in
  "/" +:+ normalizeString joined false.

(** [path.dirname]: scan from the end for the last separator that follows
    a non-separator character. [chars] is the path without its first
    character, reversed; the result is the number of characters dropped
    from the end, if a separator was found. *)
Fixpoint dirnameScan (chars : list ascii) (matchedSlash : bool) (dropped : nat)
  : option nat :=
  match chars with
  | [] => None
  | c :: rest =>
      if Ascii.eqb c "/" then
        if matchedSlash then dirnameScan rest matchedSlash (S dropped)
        else Some (S dropped)
      else dirnameScan rest false (S dropped)
  end.

Definition dirname (path : string) : string :=
  match path with
  | EmptyString => "."
  | String c0 tail =>
      let hasRoot := Ascii.eqb c0 "/" in
      match dirnameScan (List.rev (list_ascii_of_string tail)) true 0 with
      | None => if hasRoot then "/" else "."
      | Some dropped =>
          let e := (String.length path - dropped)%nat in
          if hasRoot && (e =? 1)%nat then "//"
          else String.substring 0 e path
      end
  end.

(** [path.resolve(p)] with the process working directory [cwd]. *)
Definition resolve1 (cwd p : string) : string :=
  let joined := if startsWith p "/" then p else cwd +:+ "/" +:+ p in
  "/" +:+ normalizeString joined false.

Example dirname_build :
  dirname "/proj/build/compile_commands.json" = "/proj/build".
Proof. reflexivity. Qed.

Example dirname_of_root_file : dirname "/compile_commands.json" = "/".
Proof. reflexivity. Qed.

Example resolve_relative :
  resolve "/cwd" "/proj/build" "../src/./a.cpp" = "/proj/src/a.cpp".
Proof. reflexivity. Qed.

Example join2_root : join2 "/proj" "build/compile_commands.json"
  = "/proj/build/compile_commands.json".
Proof. reflexivity. Qed.

Lemma normalize_truthy path : truthy (normalize path) = true.
Proof.
  unfold normalize.
  destruct (truthy path); cbn [negb]; [|reflexivity].
  destruct (truthy (normalizeString path _)) eqn:Hbody; cbn [negb].
  - destruct (startsWith path "/"); [reflexivity|].
    destruct (endsWith path "/"); [|exact Hbody].
    destruct (normalizeString path _); [discriminate | reflexivity].
  - destruct (startsWith path "/"); [reflexivity|].
    destruct (endsWith path "/"); reflexivity.
Qed.

(** [path.join] never returns the empty string. *)
Lemma join2_truthy a b : truthy (join2 a b) = true.
Proof.
  unfold join2. destruct (truthy a), (truthy b);
    try apply normalize_truthy; reflexivity.
Qed.

Lemma resolve1_absolute cwd p : startsWith (resolve1 cwd p) "/" = true.
Proof. unfold resolve1. apply (startsWith_app "/"). Qed.

End Path.

(** ** src/config-detector.ts *)

Module ConfigDetector.
Import JsString.

(** The loop state of [parseShellArgs]. *)
Record ShellState := {
  args : list string;
  current : string;
  inSingleQuote : bool;
  inDoubleQuote : bool;
  escaped : bool;
}.

Definition backslash : ascii := ascii_of_nat 92.
Definition singleQuote : ascii := ascii_of_nat 39.
Definition doubleQuote : ascii := ascii_of_nat 34.
Definition space : ascii := ascii_of_nat 32.

(** One iteration of the [for] loop of [parseShellArgs]. *)
Definition shellStep (st : ShellState) (char : ascii) : ShellState :=
  if escaped st then
    {| args := args st; current := push (current st) char;
       inSingleQuote := inSingleQuote st; inDoubleQuote := inDoubleQuote st;
       escaped := false |}
  else if Ascii.eqb char backslash
          && (inDoubleQuote st || negb (inSingleQuote st)) then
    {| args := args st; current := current st;
       inSingleQuote := inSingleQuote st; inDoubleQuote := inDoubleQuote st;
       escaped := true |}
  else if Ascii.eqb char singleQuote && negb (inDoubleQuote st) then
    {| args := args st; current := current st;
       inSingleQuote := negb (inSingleQuote st);
       inDoubleQuote := inDoubleQuote st; escaped := escaped st |}
  else if Ascii.eqb char doubleQuote && negb (inSingleQuote st) then
    {| args := args st; current := current st;
       inSingleQuote := inSingleQuote st;
       inDoubleQuote := negb (inDoubleQuote st); escaped := escaped st |}
  else if Ascii.eqb char space
          && negb (inSingleQuote st) && negb (inDoubleQuote st) then
    if truthy (current st) then
      {| args := args st ++ [current st]; current := EmptyString;
         inSingleQuote := inSingleQuote st; inDoubleQuote := inDoubleQuote st;
         escaped := escaped st |}
    else st
  else
    {| args := args st; current := push (current st) char;
       inSingleQuote := inSingleQuote st; inDoubleQuote := inDoubleQuote st;
       escaped := escaped st |}.

Definition parseShellArgs (input : string) : list string :=
  let st := fold_left shellStep (list_ascii_of_string input)
              {| args := []; current := EmptyString; inSingleQuote := false;
                 inDoubleQuote := false; escaped := false |} in
  if truthy (current st) then args st ++ [current st] else args st.

(** The part of [process.env] that [generateClangdArgs] reads; [None] is an
    unset variable. *)
Record Env := {
  CLANGD_ARGS : option string;
  CLANGD_LOG_LEVEL : option string;
}.

(** [process.env.X || fallback] *)
Definition envOr (v : option string) (fallback : string) : string :=
  match v with
  | Some s => if truthy s then s else fallback
  | None => fallback
  end.

(** [if (!args.some(arg => arg.startsWith(flag))) args.push(value)] *)
Definition pushUnlessPresent (flag value : string) (args : list string)
  : list string :=
  if existsb (fun arg => startsWith arg flag) args then args
  else args ++ [value].

Definition generateClangdArgs (env : Env) (isChromiumProject : bool)
  (compileCommandsPath : option string) : list string :=
  let args0 :=
    match CLANGD_ARGS env with
    | Some s => if truthy s then parseShellArgs s else []
    | None => []
    end in
  let args1 :=
    match compileCommandsPath with
    | Some p =>
        if truthy p
        then args0 ++ ["--compile-commands-dir=" +:+ Path.dirname p]
        else args0
    | None => args0
    end in
  let args2 := pushUnlessPresent "--background-index" "--background-index=false" args1 in
  let args3 := pushUnlessPresent "--limit-references" "--limit-references=1000" args2 in
  let args4 := pushUnlessPresent "--limit-results" "--limit-results=1000" args3 in
  let args5 := pushUnlessPresent "--pch-storage" "--pch-storage=memory" args4 in
  let args6 := pushUnlessPresent "--clang-tidy" "--clang-tidy=false" args5 in
  pushUnlessPresent "--log"
    ("--log=" +:+ envOr (CLANGD_LOG_LEVEL env) "error") args6.

(** The arguments that come from [CLANGD_ARGS]. *)
Definition userArgs (env : Env) : list string :=
  match CLANGD_ARGS env with
  | Some s => if truthy s then parseShellArgs s else []
  | None => []
  end.

(** The defaults as the specification lists them: the flag prefix that
    suppresses a default, and the argument appended otherwise. *)
Definition claimedDefaults (env : Env) : list (string * string) :=
  [("--background-index", "--background-index=false");
   ("--limit-references", "--limit-references=1000");
   ("--limit-results", "--limit-results=1000");
   ("--pch-storage", "--pch-storage=memory");
   ("--clang-tidy", "--clang-tidy=false");
   ("--log", "--log=" +:+ envOr (CLANGD_LOG_LEVEL env) "error")].

(** [args.some(arg => arg.startsWith(flag))] *)
Definition mentions (flag : string) (args : list string) : bool :=
  existsb (fun arg => startsWith arg flag) args.

(** What is appended for one default. *)
Definition defaultFor (user : list string) (d : string * string) : list string :=
  if mentions (fst d) user then [] else [snd d].

(** The [--compile-commands-dir] argument, when a path was found. *)
Definition compileCommandsArg (compileCommandsPath : option string)
  : list string :=
  match compileCommandsPath with
  | Some p =>
      if truthy p then ["--compile-commands-dir=" +:+ Path.dirname p] else []
  | None => []
  end.

(** Everything [generateClangdArgs] adds after the user's arguments. *)
Definition appended (env : Env) (compileCommandsPath : option string)
  : list string :=
  compileCommandsArg compileCommandsPath
  ++ concat (List.map (defaultFor (userArgs env)) (claimedDefaults env)).

(** A character [parseShellArgs] copies as it is outside quotes. *)
Definition plainChar (c : ascii) : bool :=
  negb (Ascii.eqb c backslash || Ascii.eqb c singleQuote
        || Ascii.eqb c doubleQuote || Ascii.eqb c space).

Fixpoint everyChar (p : ascii -> bool) (s : string) : bool :=
  match s with
  | EmptyString => true
  | String c s' => p c && everyChar p s'
  end.

Definition singleQuoted (w : string) : string :=
  String singleQuote (w +:+ String singleQuote EmptyString).

Definition doubleQuoted (w : string) : string :=
  String doubleQuote (w +:+ String doubleQuote EmptyString).

Fixpoint backslashed (w : string) : string :=
  match w with
  | EmptyString => EmptyString
  | String c w' => String backslash (String c (backslashed w'))
  end.

(** [written raw w]: [raw] is a way of writing the text [w] in
    [CLANGD_ARGS]: plain characters, a single-quoted or double-quoted
    stretch, backslash-escaped characters, or such pieces one after the
    other. *)
Inductive written : string -> string -> Prop :=
| written_plain w : everyChar plainChar w = true -> written w w
| written_single w :
    everyChar (fun c => negb (Ascii.eqb c singleQuote)) w = true ->
    written (singleQuoted w) w
| written_double w :
    everyChar (fun c => negb (Ascii.eqb c doubleQuote || Ascii.eqb c backslash)) w
    = true ->
    written (doubleQuoted w) w
| written_backslashed w : written (backslashed w) w
| written_app raw1 w1 raw2 w2 :
    written raw1 w1 -> written raw2 w2 -> written (raw1 +:+ raw2) (w1 +:+ w2).

(** The parser is between arguments or inside an unquoted one. *)
Definition neutral (st : ShellState) : Prop :=
  inSingleQuote st = false /\ inDoubleQuote st = false /\ escaped st = false.

Definition scan (input : string) (st : ShellState) : ShellState :=
  fold_left shellStep (list_ascii_of_string input) st.

Definition startState : ShellState :=
  {| args := []; current := EmptyString; inSingleQuote := false;
     inDoubleQuote := false; escaped := false |}.


(** What [detectConfiguration] reads of the process besides the variables
    of [Env]; [None] is an unset variable. *)
Record Process := {
  env : Env;
  PROJECT_ROOT : option string;
  CLANGD_PATH : option string;
  COMPILE_COMMANDS_DIR : option string;
  (** [process.cwd()] *)
  cwd : string;
}.

Record ClangdConfig := {
  clangdPath : string;
  clangdArgs : list string;
  projectRoot : string;
  compileCommandsPath : option string;
  isChromiumProject : bool;
}.

(** [if (process.env.X)]: the variable is set and not empty *)
Definition envSet (v : option string) : option string :=
  match v with
  | Some s => if truthy s then Some s else None
  | None => None
  end.

(** The list of [detectChromiumProject]. *)
Definition chromiumClangdPaths : list string :=
  ["third_party/llvm-build/Release+Asserts/bin/clangd";
   "third_party/llvm-build/Release/bin/clangd"].

(** The list of [findProjectBundledClangd]. *)
Definition bundledSearchPaths : list string :=
  ["third_party/llvm-build/Release+Asserts/bin/clangd";
   "third_party/llvm-build/Release/bin/clangd"].

(** The list of [findCompileCommands] in src/config-detector.ts. *)
Definition searchPaths : list string :=
  ["compile_commands.json";
   "build/compile_commands.json";
   "out/Default/compile_commands.json";
   "out/Release/compile_commands.json";
   "out/Debug/compile_commands.json";
   ".build/compile_commands.json"].

(** In the functions below [existsSync] is the one of node:fs. *)
Definition detectChromiumProject (existsSync : string -> bool)
  (projectRoot : string) : bool :=
  existsb (fun path => existsSync (Path.join2 projectRoot path))
    chromiumClangdPaths.

Definition findProjectBundledClangd (existsSync : string -> bool)
  (projectRoot : string) (isChromiumProject : bool) : option string :=
  if isChromiumProject then
    List.find existsSync (List.map (Path.join2 projectRoot) bundledSearchPaths)
  else None.

Definition findCompileCommands (existsSync : string -> bool) (proc : Process)
  (projectRoot : string) : option string :=
  let explicit :=
    match envSet (COMPILE_COMMANDS_DIR proc) with
    | Some dir =>
        let explicitPath := Path.resolve (cwd proc) dir "compile_commands.json" in
        if existsSync explicitPath then Some explicitPath else None
    | None => None
    end in
  match explicit with
  | Some path => Some path
  | None => List.find existsSync (List.map (Path.join2 projectRoot) searchPaths)
  end.

(** [detectConfiguration()]. The version query ([getClangdVersion]) only
    feeds the log and is left out, as the log is. *)
Definition detectConfiguration (existsSync : string -> bool) (proc : Process)
  : ClangdConfig :=
  let projectRoot :=
    Path.resolve1 (cwd proc) (envOr (PROJECT_ROOT proc) (cwd proc)) in
  let isChromiumProject := detectChromiumProject existsSync projectRoot in
  let clangdPath :=
    match envSet (CLANGD_PATH proc) with
    | Some path => path
    | None =>
        match findProjectBundledClangd existsSync projectRoot isChromiumProject
        with
        | Some projectClangd =>
            if truthy projectClangd then projectClangd else "clangd"
        | None => "clangd"
        end
    end in
  let compileCommandsPath := findCompileCommands existsSync proc projectRoot in
  {| clangdPath := clangdPath;
     clangdArgs :=
       generateClangdArgs (env proc) isChromiumProject compileCommandsPath;
     projectRoot := projectRoot;
     compileCommandsPath := compileCommandsPath;
     isChromiumProject := isChromiumProject |}.

(** A process and a file system for the examples: a Chromium checkout
    with its bundled clangd and a compilation database under out/Default. *)
Definition chromiumProcess : Process :=
  {| env := {| CLANGD_ARGS := None; CLANGD_LOG_LEVEL := None |};
     PROJECT_ROOT := Some "/home/user/chromium/src";
     CLANGD_PATH := None;
     COMPILE_COMMANDS_DIR := None;
     cwd := "/home/user" |}.

Definition chromiumFiles (path : string) : bool :=
  existsb (String.eqb path)
    ["/home/user/chromium/src/third_party/llvm-build/Release+Asserts/bin/clangd";
     "/home/user/chromium/src/out/Default/compile_commands.json"].

Example parseShellArgs_plain :
  parseShellArgs "--arg1 --arg2=value" = ["--arg1"; "--arg2=value"].
Proof. reflexivity. Qed.

Example parseShellArgs_quoted :
  parseShellArgs "--query-driver='/usr/bin/g++ x'  -j  a\ b"
  = ["--query-driver=/usr/bin/g++ x"; "-j"; "a b"].
Proof. reflexivity. Qed.

Example generateClangdArgs_default :
  generateClangdArgs {| CLANGD_ARGS := None; CLANGD_LOG_LEVEL := None |}
    false (Some "/proj/build/compile_commands.json")
  = ["--compile-commands-dir=/proj/build"; "--background-index=false";
     "--limit-references=1000"; "--limit-results=1000"; "--pch-storage=memory";
     "--clang-tidy=false"; "--log=error"].
Proof. reflexivity. Qed.

(** The test "should not override explicit background-index setting". *)
Example generateClangdArgs_explicit_background_index :
  let result :=
    generateClangdArgs
      {| CLANGD_ARGS := Some "--background-index=true";
         CLANGD_LOG_LEVEL := Some "verbose" |} false None in
  result = ["--background-index=true"; "--limit-references=1000";
            "--limit-results=1000"; "--pch-storage=memory";
            "--clang-tidy=false"; "--log=verbose"].
Proof. reflexivity. Qed.

Lemma mentions_app flag xs ys :
  mentions flag (xs ++ ys) = mentions flag xs || mentions flag ys.
Proof. unfold mentions. apply existsb_app. Qed.

Lemma pushUnlessPresent_app flag value user extra :
  mentions flag extra = false ->
  pushUnlessPresent flag value (user ++ extra)
  = user ++ extra ++ defaultFor user (flag, value).
Proof.
  intros Hextra. unfold pushUnlessPresent, defaultFor. cbn [fst snd].
  fold (mentions flag (user ++ extra)).
  rewrite mentions_app, Hextra, orb_false_r.
  destruct (mentions flag user).
  - now rewrite app_nil_r.
  - now rewrite <- app_assoc.
Qed.

(** No argument the function appends starts with the flag of a default
    that is examined later. *)
Lemma compileCommandsArg_mentions ccp flag value env :
  In (flag, value) (claimedDefaults env) ->
  mentions flag (compileCommandsArg ccp) = false.
Proof.
  intros Hin. unfold compileCommandsArg.
  destruct ccp as [p|]; [destruct (truthy p)|]; try reflexivity.
  cbn in Hin.
  repeat (destruct Hin as [Hin|Hin]; [inversion Hin; subst; reflexivity|]).
  destruct Hin.
Qed.

(** [generateClangdArgs] is the user's arguments followed by [appended]. *)
Lemma generateClangdArgs_split env isChromiumProject ccp :
  generateClangdArgs env isChromiumProject ccp = userArgs env ++ appended env ccp.
Proof.
  unfold generateClangdArgs, appended. fold (userArgs env).
  set (user := userArgs env).
  set (level := envOr (CLANGD_LOG_LEVEL env) "error").
  assert (Hccd : (match ccp with
                  | Some p =>
                      if truthy p
                      then user ++ ["--compile-commands-dir=" +:+ Path.dirname p]
                      else user
                  | None => user
                  end) = user ++ compileCommandsArg ccp).
  { unfold compileCommandsArg.
    destruct ccp as [p|]; [destruct (truthy p)|]; now rewrite ?app_nil_r. }
  rewrite Hccd. clear Hccd.
  assert (Hc : forall flag value, In (flag, value) (claimedDefaults env) ->
             mentions flag (compileCommandsArg ccp) = false)
    by (intros; eapply compileCommandsArg_mentions; eauto).
  unfold claimedDefaults in *. fold level in Hc. fold level.
  cbn [List.map concat]. unfold defaultFor at 1 2 3 4 5 6. cbn [fst snd].
  rewrite pushUnlessPresent_app by (apply (Hc _ "--background-index=false"); cbn; tauto).
  unfold defaultFor. cbn [fst snd].
  destruct (mentions "--background-index" user);
  (rewrite pushUnlessPresent_app
      by (rewrite !mentions_app, (Hc _ "--limit-references=1000") by (cbn; tauto);
          reflexivity));
  unfold defaultFor; cbn [fst snd];
  destruct (mentions "--limit-references" user);
  (rewrite pushUnlessPresent_app
      by (rewrite !mentions_app, (Hc _ "--limit-results=1000") by (cbn; tauto);
          reflexivity));
  unfold defaultFor; cbn [fst snd];
  destruct (mentions "--limit-results" user);
  (rewrite pushUnlessPresent_app
      by (rewrite !mentions_app, (Hc _ "--pch-storage=memory") by (cbn; tauto);
          reflexivity));
  unfold defaultFor; cbn [fst snd];
  destruct (mentions "--pch-storage" user);
  (rewrite pushUnlessPresent_app
      by (rewrite !mentions_app, (Hc _ "--clang-tidy=false") by (cbn; tauto);
          reflexivity));
  unfold defaultFor; cbn [fst snd];
  destruct (mentions "--clang-tidy" user);
  (rewrite pushUnlessPresent_app
      by (rewrite !mentions_app, (Hc _ ("--log=" +:+ level)) by (cbn; tauto);
          reflexivity));
  unfold defaultFor; cbn [fst snd];
  destruct (mentions "--log" user);
  rewrite ?app_nil_r, <- ?app_assoc; reflexivity.
Qed.

Lemma in_defaults_appended user ds value :
  In value (concat (List.map (defaultFor user) ds)) <->
  exists flag, In (flag, value) ds /\ mentions flag user = false.
Proof.
  induction ds as [|[f v] ds IH]; cbn [List.map concat].
  - split; [intros [] | intros (? & [] & _)].
  - rewrite in_app_iff, IH. unfold defaultFor. cbn [fst snd]. split.
    + intros [H | (flag & Hin & Hm)].
      * destruct (mentions f user) eqn:E; [destruct H|].
        destruct H as [<- | []]. exists f. split; [now left | exact E].
      * exists flag. split; [now right | exact Hm].
    + intros (flag & [Heq | Hin] & Hm).
      * inversion Heq; subst. rewrite Hm. left. now left.
      * right. eauto.
Qed.

(** The defaults are pairwise different arguments, so an appended default
    identifies its flag. *)
Lemma claimedDefaults_functional env flag flag' value :
  In (flag, value) (claimedDefaults env) ->
  In (flag', value) (claimedDefaults env) ->
  flag = flag'.
Proof.
  unfold claimedDefaults. cbn [In]. intros H H'.
  repeat (destruct H as [H | H]; [inversion H; subst; clear H|]);
    try (destruct H);
    repeat (destruct H' as [H' | H']; [inversion H'; subst; clear H'|]);
    try (destruct H'); try reflexivity; try discriminate.
Qed.

Lemma default_not_compileCommandsArg env ccp flag value :
  In (flag, value) (claimedDefaults env) ->
  ~ In value (compileCommandsArg ccp).
Proof.
  unfold claimedDefaults, compileCommandsArg. cbn [In]. intros H Hin.
  destruct ccp as [p|]; [destruct (truthy p)|]; cbn [In] in Hin;
    try (destruct Hin as [Hin | []]); try destruct Hin.
  repeat (destruct H as [H | H]; [inversion H; subst; discriminate|]).
  destruct H.
Qed.

(** C10. [generateClangdArgs] returns the arguments parsed from
    [CLANGD_ARGS], unchanged and in their order, followed by what it
    appends; each default of the specification ([--background-index=false],
    [--limit-references=1000], [--limit-results=1000],
    [--pch-storage=memory], [--clang-tidy=false], [--log=<CLANGD_LOG_LEVEL
    or error>]) is among the appended arguments exactly when no user
    argument starts with its flag; so when a user argument starts with
    [--background-index], [--background-index=false] is not appended. *)
Theorem generateClangdArgs_preserves_user_args
  (env : Env) (isChromiumProject : bool) (compileCommandsPath : option string) :
  generateClangdArgs env isChromiumProject compileCommandsPath
  = userArgs env ++ appended env compileCommandsPath
  /\ (forall flag value,
        In (flag, value) (claimedDefaults env) ->
        (In value (appended env compileCommandsPath)
         <-> mentions flag (userArgs env) = false))
  /\ (mentions "--background-index" (userArgs env) = true ->
      ~ In "--background-index=false" (appended env compileCommandsPath)).
Proof.
  assert (Hiff : forall flag value,
             In (flag, value) (claimedDefaults env) ->
             (In value (appended env compileCommandsPath)
              <-> mentions flag (userArgs env) = false)).
  { intros flag value Hin. unfold appended. rewrite in_app_iff.
    rewrite in_defaults_appended. split.
    - intros [Hc | (flag' & Hin' & Hm)].
      + exfalso. eapply default_not_compileCommandsArg; eauto.
      + now rewrite (claimedDefaults_functional env flag flag' value).
    - intros Hm. right. eauto. }
  split; [apply generateClangdArgs_split|]. split; [exact Hiff|].
  intros Hm Hin.
  apply (Hiff "--background-index") in Hin; [congruence|].
  unfold claimedDefaults. now left.
Qed.


(** *** [parseShellArgs] *)

Lemma scan_app a b st : scan (a +:+ b) st = scan b (scan a st).
Proof.
  unfold scan. revert st. induction a as [|c a IH]; intros st; simpl; auto.
Qed.

Lemma scan_cons c s st : scan (String c s) st = scan s (shellStep st c).
Proof. reflexivity. Qed.

Lemma push_app cur c w : push cur c +:+ w = cur +:+ String c w.
Proof.
  unfold push. induction cur as [|d cur IH].
  - reflexivity.
  - change (String d ((cur +:+ String c EmptyString) +:+ w) = String d (cur +:+ String c w)).
    now f_equal.
Qed.

Lemma append_empty_r s : s +:+ EmptyString = s.
Proof.
  induction s as [|c s IH]; [reflexivity|].
  change (String c (s +:+ EmptyString) = String c s). now f_equal.
Qed.

Lemma append_assoc a b c : (a +:+ b) +:+ c = a +:+ (b +:+ c).
Proof.
  induction a as [|x a IH]; [reflexivity|].
  change (String x ((a +:+ b) +:+ c) = String x (a +:+ (b +:+ c))). now f_equal.
Qed.

Lemma parseShellArgs_scan input :
  parseShellArgs input
  = let st := scan input startState in
    if truthy (current st) then args st ++ [current st] else args st.
Proof. reflexivity. Qed.

Lemma scan_plain w : forall st,
  neutral st -> everyChar plainChar w = true ->
  scan w st = {| args := args st; current := current st +:+ w;
                 inSingleQuote := false; inDoubleQuote := false;
                 escaped := false |}.
Proof.
  induction w as [|c w IH]; intros st (Hs & Hd & He) Hw.
  - cbn. rewrite append_empty_r. destruct st; cbn in *; congruence.
  - cbn [everyChar] in Hw. apply andb_true_iff in Hw as [Hc Hw].
    rewrite scan_cons. unfold plainChar in Hc.
    apply negb_true_iff in Hc. repeat (apply orb_false_iff in Hc as [Hc ?]).
    rewrite IH; auto.
    + unfold shellStep. rewrite He, Hs, Hd, Hc, H, H0, H1. cbn.
      now rewrite push_app.
    + unfold shellStep. rewrite He, Hs, Hd, Hc, H, H0, H1. cbn.
      repeat split; auto.
Qed.

Lemma scan_in_single w : forall st,
  inSingleQuote st = true -> inDoubleQuote st = false -> escaped st = false ->
  everyChar (fun c => negb (Ascii.eqb c singleQuote)) w = true ->
  scan w st = {| args := args st; current := current st +:+ w;
                 inSingleQuote := true; inDoubleQuote := false;
                 escaped := false |}.
Proof.
  induction w as [|c w IH]; intros st Hs Hd He Hw.
  - cbn. rewrite append_empty_r. destruct st; cbn in *; congruence.
  - cbn [everyChar] in Hw. apply andb_true_iff in Hw as [Hc Hw].
    apply negb_true_iff in Hc.
    rewrite scan_cons.
    assert (Hstep : shellStep st c
                    = {| args := args st; current := push (current st) c;
                         inSingleQuote := true; inDoubleQuote := false;
                         escaped := false |}).
    { unfold shellStep. rewrite He, Hs, Hd, Hc. cbn.
      rewrite !andb_false_r. cbn.
      destruct (Ascii.eqb c space); cbn; reflexivity. }
    rewrite Hstep, IH; auto. cbn. now rewrite push_app.
Qed.

Lemma scan_in_double w : forall st,
  inSingleQuote st = false -> inDoubleQuote st = true -> escaped st = false ->
  everyChar (fun c => negb (Ascii.eqb c doubleQuote || Ascii.eqb c backslash)) w
  = true ->
  scan w st = {| args := args st; current := current st +:+ w;
                 inSingleQuote := false; inDoubleQuote := true;
                 escaped := false |}.
Proof.
  induction w as [|c w IH]; intros st Hs Hd He Hw.
  - cbn. rewrite append_empty_r. destruct st; cbn in *; congruence.
  - cbn [everyChar] in Hw. apply andb_true_iff in Hw as [Hc Hw].
    apply negb_true_iff in Hc. apply orb_false_iff in Hc as [Hq Hb].
    rewrite scan_cons.
    assert (Hstep : shellStep st c
                    = {| args := args st; current := push (current st) c;
                         inSingleQuote := false; inDoubleQuote := true;
                         escaped := false |}).
    { unfold shellStep. rewrite He, Hs, Hd, Hq, Hb. cbn.
      rewrite !andb_false_r. cbn.
      destruct (Ascii.eqb c space); cbn; reflexivity. }
    rewrite Hstep, IH; auto. cbn. now rewrite push_app.
Qed.

Lemma scan_backslashed w : forall st,
  neutral st ->
  scan (backslashed w) st
  = {| args := args st; current := current st +:+ w;
       inSingleQuote := false; inDoubleQuote := false; escaped := false |}.
Proof.
  induction w as [|c w IH]; intros st (Hs & Hd & He).
  - cbn. rewrite append_empty_r. destruct st; cbn in *; congruence.
  - cbn [backslashed]. rewrite !scan_cons.
    assert (H1 : shellStep st backslash
                 = {| args := args st; current := current st;
                      inSingleQuote := false; inDoubleQuote := false;
                      escaped := true |}).
    { unfold shellStep. rewrite He, Hs, Hd. reflexivity. }
    rewrite H1. unfold shellStep at 1. cbn [escaped args current inSingleQuote inDoubleQuote].
    rewrite IH by (repeat split; reflexivity). cbn. now rewrite push_app.
Qed.

Lemma scan_written raw w :
  written raw w -> forall st,
  neutral st ->
  scan raw st = {| args := args st; current := current st +:+ w;
                   inSingleQuote := false; inDoubleQuote := false;
                   escaped := false |}.
Proof.
  induction 1 as [w Hw | w Hw | w Hw | w | raw1 w1 raw2 w2 H1 IH1 H2 IH2];
    intros st Hst.
  - now apply scan_plain.
  - destruct Hst as (Hs & Hd & He).
    unfold singleQuoted. rewrite scan_cons, scan_app.
    assert (H1 : shellStep st singleQuote
                 = {| args := args st; current := current st;
                      inSingleQuote := true; inDoubleQuote := false;
                      escaped := false |}).
    { unfold shellStep. rewrite He, Hs, Hd. reflexivity. }
    rewrite H1, (scan_in_single w) by auto. reflexivity.
  - destruct Hst as (Hs & Hd & He).
    unfold doubleQuoted. rewrite scan_cons, scan_app.
    assert (H1 : shellStep st doubleQuote
                 = {| args := args st; current := current st;
                      inSingleQuote := false; inDoubleQuote := true;
                      escaped := false |}).
    { unfold shellStep. rewrite He, Hs, Hd. reflexivity. }
    rewrite H1, (scan_in_double w) by auto. reflexivity.
  - now apply scan_backslashed.
  - rewrite scan_app, IH1 by exact Hst.
    rewrite IH2 by (repeat split; reflexivity). cbn.
    now rewrite append_assoc.
Qed.

Lemma shellStep_args_nonempty st c :
  Forall (fun a => truthy a = true) (args st) ->
  Forall (fun a => truthy a = true) (args (shellStep st c)).
Proof.
  intros H. unfold shellStep.
  repeat match goal with
         | |- context [if ?b then _ else _] => destruct b eqn:?
         end; cbn [args]; auto.
  apply Forall_app. split; [exact H|]. constructor; [assumption | constructor].
Qed.

Lemma scan_args_nonempty input : forall st,
  Forall (fun a => truthy a = true) (args st) ->
  Forall (fun a => truthy a = true) (args (scan input st)).
Proof.
  induction input as [|c input IH]; intros st H; [exact H|].
  rewrite scan_cons. apply IH. now apply shellStep_args_nonempty.
Qed.

(** X1. No argument [parseShellArgs] returns is the empty string: an
    argument is only pushed when it holds a character, so an empty quoted
    stretch standing alone is dropped. *)
Theorem parseShellArgs_no_empty_argument (input : string) :
  Forall (fun arg => truthy arg = true) (parseShellArgs input)
  /\ ~ In EmptyString (parseShellArgs input).
Proof.
  assert (H : Forall (fun arg => truthy arg = true) (parseShellArgs input)).
  { rewrite parseShellArgs_scan. cbv zeta.
    pose proof (scan_args_nonempty input startState (List.Forall_nil _)) as Hargs.
    destruct (truthy (current (scan input startState))) eqn:E; [|exact Hargs].
    apply Forall_app. split; [exact Hargs|]. constructor; [exact E | constructor]. }
  split; [exact H|]. intros Hin.
  eapply List.Forall_forall in H; [|exact Hin]. discriminate.
Qed.

Lemma scan_space st :
  neutral st -> truthy (current st) = true ->
  shellStep st space
  = {| args := args st ++ [current st]; current := EmptyString;
       inSingleQuote := false; inDoubleQuote := false; escaped := false |}.
Proof.
  intros (Hs & Hd & He) Hc. unfold shellStep.
  rewrite He, Hs, Hd, Hc. reflexivity.
Qed.

Lemma scan_joined raws : forall raw w ws st,
  Forall2 written (raw :: raws) (w :: ws) ->
  Forall (fun w => truthy w = true) (w :: ws) ->
  neutral st -> current st = EmptyString ->
  let st' := scan (join " " (raw :: raws)) st in
  args st' ++ [current st'] = args st ++ w :: ws.
Proof.
  induction raws as [|raw2 raws IH]; intros raw w ws st Hall Hne Hst Hcur st'.
  - inversion Hall as [|? ? ? ? Hw Hrest]; subst. inversion Hrest; subst.
    subst st'. cbn [join]. rewrite (scan_written raw w Hw st Hst). cbn.
    now rewrite Hcur.
  - inversion Hall as [|? ? ? ? Hw Hrest]; subst.
    destruct ws as [|w2 ws]; [inversion Hrest|].
    inversion Hne as [|? ? Hw1 Hne']; subst.
    subst st'. 
    change (join " " (raw :: raw2 :: raws))
      with (raw +:+ String space (join " " (raw2 :: raws))).
    rewrite scan_app, scan_cons, (scan_written raw w Hw st Hst).
    rewrite scan_space; [|repeat split; reflexivity | cbn; now rewrite Hcur].
    cbn [args current]. rewrite Hcur. cbn [String.append].
    rewrite (IH raw2 w2 ws); auto; [|repeat split; reflexivity].
    cbn [args]. now rewrite <- app_assoc.
Qed.

(** X2. Writing and reading back. When each argument (none of them empty)
    is written as plain characters, inside single quotes (no single quote
    within), inside double quotes (no double quote or backslash within),
    with a backslash before every character, or as such pieces one after
    the other, and the written arguments are joined by single spaces,
    [parseShellArgs] returns the arguments. *)
Theorem parseShellArgs_reads_back (raws ws : list string) :
  Forall2 written raws ws ->
  Forall (fun w => truthy w = true) ws ->
  parseShellArgs (join " " raws) = ws.
Proof.
  intros Hall Hne. rewrite parseShellArgs_scan. cbv zeta.
  destruct raws as [|raw raws].
  - inversion Hall; subst. reflexivity.
  - destruct ws as [|w ws]; [inversion Hall|].
    pose proof (scan_joined raws raw w ws startState Hall Hne
                  ltac:(repeat split; reflexivity) eq_refl) as H.
    cbv zeta in H. cbn [args startState app] in H.
    destruct (truthy (current (scan (join " " (raw :: raws)) startState))) eqn:E;
      [exact H|].
    exfalso.
    assert (Hlast : In (current (scan (join " " (raw :: raws)) startState)) (w :: ws)).
    { rewrite <- H. apply in_or_app. right. now left. }
    eapply List.Forall_forall in Hne; [|exact Hlast]. congruence.
Qed.

(** The theorem at three arguments: one with a single-quoted stretch, one
    escaped, one in double quotes. *)
Lemma parseShellArgs_reads_back_witness :
  parseShellArgs
    ("--query-driver='/usr/bin/g++ x' \a\ \b " +:+ doubleQuoted "--log=error")
  = ["--query-driver=/usr/bin/g++ x"; "a b"; "--log=error"].
Proof.
  apply (parseShellArgs_reads_back
           ["--query-driver=" +:+ singleQuoted "/usr/bin/g++ x";
            backslashed "a b";
            doubleQuoted "--log=error"]
           ["--query-driver=" +:+ "/usr/bin/g++ x"; "a b"; "--log=error"]).
  - repeat constructor.
  - repeat constructor.
Defined.

(** *** [detectConfiguration] *)

Example detectConfiguration_chromium :
  detectConfiguration chromiumFiles chromiumProcess
  = {| clangdPath :=
         "/home/user/chromium/src/third_party/llvm-build/Release+Asserts/bin/clangd";
       clangdArgs :=
         ["--compile-commands-dir=/home/user/chromium/src/out/Default";
          "--background-index=false"; "--limit-references=1000";
          "--limit-results=1000"; "--pch-storage=memory"; "--clang-tidy=false";
          "--log=error"];
       projectRoot := "/home/user/chromium/src";
       compileCommandsPath :=
         Some "/home/user/chromium/src/out/Default/compile_commands.json";
       isChromiumProject := true |}.
Proof. reflexivity. Qed.

Lemma find_existsb {A : Type} (p : A -> bool) (l : list A) :
  existsb p l = true <-> exists x, List.find p l = Some x.
Proof.
  induction l as [|a l IH]; cbn.
  - split; [discriminate | intros [x H]; discriminate].
  - destruct (p a); cbn; [split; eauto | exact IH].
Qed.

Lemma existsb_map {A B : Type} (f : A -> B) (p : B -> bool) (l : list A) :
  existsb p (List.map f l) = existsb (fun x => p (f x)) l.
Proof. induction l as [|a l IH]; cbn; congruence. Qed.

(** X3. [detectConfiguration] takes the clangd binary from [CLANGD_PATH]
    whenever that variable is set and not empty, Chromium project or not.
    Otherwise, in a project it reports as Chromium the binary is one of the
    two bundled locations under the project root and exists on disk, and in
    any other project it is the [clangd] of the search path: since the
    project is reported as Chromium exactly when a bundled binary exists,
    the fallback for a Chromium project without its bundled binary is never
    taken. *)
Theorem detectConfiguration_picks_clangd
  (existsSync : string -> bool) (proc : Process) :
  let config := detectConfiguration existsSync proc in
  (forall path, envSet (CLANGD_PATH proc) = Some path -> clangdPath config = path)
  /\ (envSet (CLANGD_PATH proc) = None ->
      if isChromiumProject config
      then existsSync (clangdPath config) = true
           /\ exists path, In path chromiumClangdPaths
                /\ clangdPath config = Path.join2 (projectRoot config) path
      else clangdPath config = "clangd").
Proof.
  cbv zeta. unfold detectConfiguration.
  cbn [clangdPath isChromiumProject projectRoot].
  set (root := Path.resolve1 _ _).
  split.
  - intros path ->. reflexivity.
  - intros ->. unfold findProjectBundledClangd.
    destruct (detectChromiumProject existsSync root) eqn:Hchromium;
      [|reflexivity].
    unfold detectChromiumProject in Hchromium.
    change chromiumClangdPaths with bundledSearchPaths in Hchromium.
    rewrite <- (existsb_map (Path.join2 root) existsSync) in Hchromium.
    apply find_existsb in Hchromium as [found Hfound]. rewrite Hfound.
    pose proof (find_some _ _ Hfound) as [Hin Hexists].
    apply in_map_iff in Hin as (path & <- & Hpath).
    rewrite Path.join2_truthy. split; [exact Hexists|]. eauto.
Qed.

(** X4. The project root [detectConfiguration] reports is an absolute
    path. A compilation database it reports exists on disk, is the file
    under [COMPILE_COMMANDS_DIR] or one of the six searched locations under
    the project root, and its directory is handed to clangd as
    [--compile-commands-dir]. A database under a set [COMPILE_COMMANDS_DIR]
    is preferred to every location under the project root, and none is
    reported only when none of the six locations holds one. *)
Theorem detectConfiguration_compile_commands
  (existsSync : string -> bool) (proc : Process) :
  let config := detectConfiguration existsSync proc in
  startsWith (projectRoot config) "/" = true
  /\ (forall path, compileCommandsPath config = Some path ->
        existsSync path = true
        /\ In ("--compile-commands-dir=" +:+ Path.dirname path) (clangdArgs config)
        /\ ((exists dir, envSet (COMPILE_COMMANDS_DIR proc) = Some dir
               /\ path = Path.resolve (cwd proc) dir "compile_commands.json")
            \/ exists rel, In rel searchPaths
                 /\ path = Path.join2 (projectRoot config) rel))
  /\ (forall dir, envSet (COMPILE_COMMANDS_DIR proc) = Some dir ->
        existsSync (Path.resolve (cwd proc) dir "compile_commands.json") = true ->
        compileCommandsPath config
        = Some (Path.resolve (cwd proc) dir "compile_commands.json"))
  /\ (compileCommandsPath config = None ->
        forall rel, In rel searchPaths ->
          existsSync (Path.join2 (projectRoot config) rel) = false).
Proof.
  cbv zeta. unfold detectConfiguration.
  cbn [clangdArgs compileCommandsPath projectRoot].
  set (root := Path.resolve1 _ _).
  set (chromium := detectChromiumProject existsSync root).
  split; [apply Path.resolve1_absolute|]. split; [|split].
  - intros path Hfound.
    assert (Hpath : existsSync path = true
              /\ truthy path = true
              /\ ((exists dir, envSet (COMPILE_COMMANDS_DIR proc) = Some dir
                     /\ path = Path.resolve (cwd proc) dir "compile_commands.json")
                  \/ exists rel, In rel searchPaths /\ path = Path.join2 root rel)).
    { unfold findCompileCommands in Hfound.
      destruct (envSet (COMPILE_COMMANDS_DIR proc)) as [dir|] eqn:Hdir.
      - destruct (existsSync (Path.resolve (cwd proc) dir "compile_commands.json"))
          eqn:Hexists.
        + injection Hfound as <-. split; [exact Hexists|].
          split; [reflexivity | eauto].
        + pose proof (find_some _ _ Hfound) as [Hin Hexists'].
          apply in_map_iff in Hin as (rel & <- & Hrel).
          split; [exact Hexists'|]. split; [apply Path.join2_truthy|]. eauto.
      - pose proof (find_some _ _ Hfound) as [Hin Hexists'].
        apply in_map_iff in Hin as (rel & <- & Hrel).
        split; [exact Hexists'|]. split; [apply Path.join2_truthy|]. eauto. }
    destruct Hpath as (Hexists & Htruthy & Hwhere).
    split; [exact Hexists|]. split; [|exact Hwhere].
    rewrite generateClangdArgs_split, Hfound. apply in_or_app. right.
    unfold appended. apply in_or_app. left.
    unfold compileCommandsArg. rewrite Htruthy. now left.
  - intros dir Hdir Hexists. unfold findCompileCommands.
    now rewrite Hdir, Hexists.
  - intros Hnone rel Hrel. unfold findCompileCommands in Hnone.
    assert (Hfind : List.find existsSync (List.map (Path.join2 root) searchPaths)
                    = None).
    { destruct (envSet (COMPILE_COMMANDS_DIR proc));
        [destruct (existsSync _); [discriminate|] |]; exact Hnone. }
    eapply find_none in Hfind; [exact Hfind|].
    apply in_map_iff. eauto.
Qed.

(** A database [detectConfiguration] reports exists and its directory is
    passed to clangd. *)
Lemma reported_database_is_passed existsSync proc path :
  compileCommandsPath (detectConfiguration existsSync proc) = Some path ->
  existsSync path = true
  /\ In ("--compile-commands-dir=" +:+ Path.dirname path)
       (clangdArgs (detectConfiguration existsSync proc)).
Proof.
  unfold detectConfiguration. cbn [clangdArgs compileCommandsPath].
  set (root := Path.resolve1 _ _).
  intros Hfound.
  assert (Hpath : existsSync path = true /\ truthy path = true).
  { unfold findCompileCommands in Hfound.
    destruct (envSet (COMPILE_COMMANDS_DIR proc)) as [dir|] eqn:Hdir.
    - destruct (existsSync (Path.resolve (cwd proc) dir "compile_commands.json"))
        eqn:Hexists.
      + injection Hfound as <-. split; [exact Hexists | reflexivity].
      + pose proof (find_some _ _ Hfound) as [Hin Hexists'].
        apply in_map_iff in Hin as (rel & <- & Hrel).
        split; [exact Hexists' | apply Path.join2_truthy].
    - pose proof (find_some _ _ Hfound) as [Hin Hexists'].
      apply in_map_iff in Hin as (rel & <- & Hrel).
      split; [exact Hexists' | apply Path.join2_truthy]. }
  destruct Hpath as (Hexists & Htruthy).
  split; [exact Hexists|].
  rewrite generateClangdArgs_split, Hfound. apply in_or_app. right.
  unfold appended. apply in_or_app. left.
  unfold compileCommandsArg. rewrite Htruthy. now left.
Qed.

(** A database at one of the six locations under the project root, or
    under a set [COMPILE_COMMANDS_DIR], is reported. *)
Lemma database_is_reported existsSync proc :
  let config := detectConfiguration existsSync proc in
  (exists rel, In rel searchPaths
     /\ existsSync (Path.join2 (projectRoot config) rel) = true)
  \/ (exists dir, envSet (COMPILE_COMMANDS_DIR proc) = Some dir
        /\ existsSync (Path.resolve (cwd proc) dir "compile_commands.json") = true) ->
  exists path, compileCommandsPath config = Some path.
Proof.
  cbv zeta. unfold detectConfiguration. cbn [compileCommandsPath projectRoot].
  set (root := Path.resolve1 _ _). unfold findCompileCommands.
  intros [(rel & Hrel & Hexists) | (dir & Hdir & Hexists)].
  - destruct (envSet (COMPILE_COMMANDS_DIR proc)) as [dir|];
      [destruct (existsSync (Path.resolve _ dir _)); [eauto|]|];
      apply find_existsb; rewrite existsb_map; apply existsb_exists; eauto.
  - rewrite Hdir, Hexists. eauto.
Qed.

End ConfigDetector.

(** ** JavaScript values *)

Module Js.

(** A JavaScript number: a rational, NaN or an infinity. Every IEEE double
    is one of these; the sources only compare numbers, test them for
    integrality and truncate them. *)
Inductive JsNumber :=
| JNaN
| JPosInf
| JNegInf
| JFin (q : Q).

Inductive JsValue :=
| JUndefined
| JNull
| JBool (b : bool)
| JNumber (n : JsNumber)
| JString (s : string)
| JArray (items : list JsValue)
| JObject (fields : list (string * JsValue)).

Definition ofZ (z : Z) : JsNumber := JFin (inject_Z z).
Definition ofNat (n : nat) : JsNumber := ofZ (Z.of_nat n).

(** [Number.isInteger(n)] *)
Definition isInteger (n : JsNumber) : bool :=
  match n with
  | JFin q => (Qnum q mod Zpos (Qden q) =? 0)%Z
  | _ => false
  end.

(** [a < b]; every comparison with NaN is false *)
Definition lt (a b : JsNumber) : bool :=
  match a, b with
  | JNaN, _ | _, JNaN => false
  | _, JNegInf => false
  | JNegInf, _ => true
  | JPosInf, _ => false
  | _, JPosInf => true
  | JFin x, JFin y =>
      match (x ?= y)%Q with Lt => true | _ => false end
  end.

(** [a <= b] *)
Definition le (a b : JsNumber) : bool :=
  match a, b with
  | JNaN, _ | _, JNaN => false
  | JNegInf, _ => true
  | _, JPosInf => true
  | _, JNegInf => false
  | JPosInf, _ => false
  | JFin x, JFin y =>
      match (x ?= y)%Q with Gt => false | _ => true end
  end.

(** [a > b] *)
Definition gt (a b : JsNumber) : bool := lt b a.

Definition zero : JsNumber := ofZ 0.

(** Truthiness: [false], [0], [NaN], the empty string, [null] and
    [undefined] are falsy. *)
Definition truthy (v : JsValue) : bool :=
  match v with
  | JUndefined | JNull => false
  | JBool b => b
  | JNumber JNaN => false
  | JNumber (JFin q) => negb (Qnum q =? 0)%Z
  | JNumber _ => true
  | JString s => JsString.truthy s
  | JArray _ | JObject _ => true
  end.

Inductive TypeTag :=
| TUndefined | TObject | TBoolean | TNumber | TString.

(** [typeof v] *)
Definition typeof (v : JsValue) : TypeTag :=
  match v with
  | JUndefined => TUndefined
  | JNull | JArray _ | JObject _ => TObject
  | JBool _ => TBoolean
  | JNumber _ => TNumber
  | JString _ => TString
  end.

Definition isString (v : JsValue) : bool :=
  match v with JString _ => true | _ => false end.
Definition isBoolean (v : JsValue) : bool :=
  match v with JBool _ => true | _ => false end.
Definition isUndefined (v : JsValue) : bool :=
  match v with JUndefined => true | _ => false end.
Definition isObjectType (v : JsValue) : bool :=
  match typeof v with TObject => true | _ => false end.

(** [Array.isArray(v)] *)
Definition isArray (v : JsValue) : bool :=
  match v with JArray _ => true | _ => false end.

Fixpoint lookupField (key : string) (fields : list (string * JsValue))
  : option JsValue :=
  match fields with
  | [] => None
  | (k, v) :: rest => if String.eqb k key then Some v else lookupField key rest
  end.

(** [v.key] on a value that is not [null] or [undefined]: a missing
    property reads as [undefined]. *)
Definition get (v : JsValue) (key : string) : JsValue :=
  match v with
  | JObject fields =>
      match lookupField key fields with Some x => x | None => JUndefined end
  | _ => JUndefined
  end.

(** [ToIntegerOrInfinity] followed by the clamping [Array.prototype.slice]
    applies to its end index: the number of elements of [slice(0, n)] on an
    array of length [len]. *)
Definition sliceEnd (len : nat) (n : JsNumber) : nat :=
  match n with
  | JNaN => 0
  | JPosInf => len
  | JNegInf => 0
  | JFin q =>
      let k := Z.quot (Qnum q) (Zpos (Qden q)) in
      if (k <? 0)%Z then Z.to_nat (Z.max (Z.of_nat len + k) 0)
      else Z.to_nat (Z.min k (Z.of_nat len))
  end.

(** [arr.slice(0, n)] *)
Definition sliceTo {A : Type} (l : list A) (n : JsNumber) : list A :=
  firstn (sliceEnd (length l) n) l.

(** A thrown value: an [Error] with its message, or any other value. *)
Inductive Thrown :=
| ErrorObject (message : string)
| OtherValue (v : JsValue).

Lemma le_ofNat_ofZ (n : nat) (z : Z) :
  le (ofNat n) (ofZ z) = true -> (Z.of_nat n <= z)%Z.
Proof.
  unfold le, ofNat, ofZ. rewrite Zle_Qle. intros H.
  apply Qle_alt. intros E. now rewrite E in H.
Qed.

Example sliceEnd_negative : sliceEnd 3 (ofZ (-1)) = 2.
Proof. reflexivity. Qed.

Example sliceEnd_fraction : sliceEnd 5 (JFin (5 # 2)) = 2.
Proof. reflexivity. Qed.

End Js.

(** ** src/cmake-detector.ts *)

Module CMakeDetector.
Import JsString Js.

Record FileSystem := {
  existsSync : string -> bool;
  (** [readFile(path, 'utf-8')]; [None] when the read is rejected *)
  readFile : string -> option string;
}.

Definition DEFAULT_EXCLUDE_PATHS : list string :=
  ["_deps/"; "third_party/"; "libs/"; "vendor/"; "external/"; "build/"].

Definition candidates : list string :=
  ["compile_commands.json";
   "build/compile_commands.json";
   "cmake-build-debug/compile_commands.json";
   "cmake-build-release/compile_commands.json";
   "out/build/compile_commands.json";
   ".build/compile_commands.json"].

Definition findCompileCommands (fs : FileSystem) (projectRoot : string)
  : option string :=
  List.find (existsSync fs) (List.map (Path.join2 projectRoot) candidates).

Definition sourceExtensions : list string :=
  ["c"; "cc"; "cpp"; "cxx"; "c++"; "m"; "mm"].

Definition headerExtensions : list string :=
  ["h"; "hh"; "hpp"; "hxx"; "h++"].

(** The test of the regular expression [\.(c|cc|cpp|cxx|c\+\+|m|mm)$] with
    the [i] flag: the path ends with a dot and one of the alternatives, in
    any letter case. *)
Definition isSourceFile (filePath : string) : bool :=
  existsb (fun ext => endsWith (toLowerCase filePath) ("." +:+ ext))
    sourceExtensions.

(** [relativePath.startsWith(exc) || relativePath.includes('/' + exc)] *)
Definition matchesExclude (relativePath exc : string) : bool :=
  startsWith relativePath exc || includes relativePath ("/" +:+ exc).

(** [sources.add(x)] on a [Set] kept in insertion order *)
Definition setAdd (sources : list string) (x : string) : list string :=
  if existsb (String.eqb x) sources then sources else sources ++ [x].

(** ** [selectWarmingFiles] *)

(** [Map<string, string[]>], in insertion order *)
Definition Groups : Type := list (string * list string).

(** [byDir.get(dir)] *)
Fixpoint groupGet (dir : string) (byDir : Groups) : option (list string) :=
  match byDir with
  | [] => None
  | (d, files) :: rest =>
      if String.eqb d dir then Some files else groupGet dir rest
  end.

(** [byDir.set(dir, files)], also what a [push] or [shift] on the array
    held for [dir] leaves in the map *)
Fixpoint groupSet (dir : string) (files : list string) (byDir : Groups) : Groups :=
  match byDir with
  | [] => [(dir, files)]
  | (d, old) :: rest =>
      if String.eqb d dir then (d, files) :: rest
      else (d, old) :: groupSet dir files rest
  end.

(** One iteration of [for (const source of sources)]. *)
Definition addSource (byDir : Groups) (source : string) : Groups :=
  let dir := Path.dirname source in
  match groupGet dir byDir with
  | Some files => groupSet dir (files ++ [source]) byDir
  | None => groupSet dir [source] byDir
  end.

Definition groupByDir (sources : list string) : Groups :=
  fold_left addSource sources [].

Fixpoint insertSorted (x : string) (l : list string) : list string :=
  match l with
  | [] => [x]
  | y :: rest => if leUnits x y then x :: l else y :: insertSorted x rest
  end.

(** [keys.sort()]: strings in the order of their UTF-16 code units *)
Definition sortStrings (l : list string) : list string :=
  fold_right insertSorted [] l.

Definition isEmpty {A : Type} (l : list A) : bool :=
  match l with [] => true | _ => false end.

(** The variables of the [while] loop. *)
Record Loop := {
  selected : list string;
  byDir : Groups;
  dirIndex : nat;
}.

Inductive Step :=
| Continue (st : Loop)
| Return (selected : list string)
| Throw. (* a [TypeError]: [files] is undefined where [files.length] is read *)

(** The loop test and one run of the loop body. *)
Definition iterate (maxFiles : JsNumber) (dirs : list string) (st : Loop) : Step :=
  if negb (lt (ofNat (length (selected st))) maxFiles
           && (dirIndex st <? length dirs)%nat)
  then Return (selected st)
  else
    match nth_error dirs (dirIndex st) with
    | None => Throw
    | Some dir =>
        match groupGet dir (byDir st) with
        | None => Throw
        | Some files =>
            let (selected1, byDir1) :=
              match files with
              | first :: rest =>
                  (selected st ++ [first], groupSet dir rest (byDir st))
              | [] => (selected st, byDir st)
              end in
            let dirIndex1 := S (dirIndex st) in
            if (length dirs <=? dirIndex1)%nat
               && lt (ofNat (length selected1)) maxFiles
            then
              let byDir2 :=
                List.filter (fun entry => negb (isEmpty (snd entry))) byDir1 in
              if isEmpty byDir2 then Return selected1
              else Continue {| selected := selected1; byDir := byDir2;
                               dirIndex := 0 |}
            else Continue {| selected := selected1; byDir := byDir1;
                             dirIndex := dirIndex1 |}
        end
    end.

(** How a call of [selectWarmingFiles] ends. *)
Inductive Selection :=
| Selected (files : list string)
| TypeError.

(** The [while] loop, run for at most [fuel] iterations; [None] when they
    do not suffice. *)
Fixpoint loop (fuel : nat) (maxFiles : JsNumber) (dirs : list string)
  (st : Loop) : option Selection :=
  match fuel with
  | O => None
  | S fuel' =>
      match iterate maxFiles dirs st with
      | Continue st' => loop fuel' maxFiles dirs st'
      | Return files => Some (Selected files)
      | Throw => Some TypeError
      end
  end.

(** [selectWarmingFiles(sources, maxFiles = 5)] *)
Definition selectWarmingFiles (sources : list string)
  (maxFiles : option JsNumber) : option Selection :=
  let maxFiles := match maxFiles with Some n => n | None => ofZ 5 end in
  if le (ofNat (length sources)) maxFiles then Some (Selected sources)
  else
    let byDir := groupByDir sources in
    let dirs := sortStrings (List.map fst byDir) in
    loop (S (length sources)) maxFiles dirs
      {| selected := []; byDir := byDir; dirIndex := 0 |}.

(** The sources that lie in one directory, in their order. *)
Definition inDir (dir : string) (sources : list string) : list string :=
  List.filter (fun source => String.eqb (Path.dirname source) dir) sources.

(** The directories of the sources, in the order the loop visits them. *)
Definition directories (sources : list string) : list string :=
  sortStrings (List.map fst (groupByDir sources)).

(** *** What the proofs about [selectWarmingFiles] speak of *)

Definition groupKeys (g : Groups) : list string := List.map fst g.

(** The files held in the map, group after group. *)
Definition held (g : Groups) : list string := concat (List.map snd g).

(** The order of [sort()] on strings. *)
Definition inOrder (a b : string) : Prop := leUnits a b = true.

Definition mem (dir : string) (l : list string) : bool :=
  existsb (String.eqb dir) l.

(** The map in round [r] when the directories [done] have been visited:
    a directory that ran out in an earlier round has been deleted, and
    every other directory has given one file per visit. *)
Definition roundGroups (g : Groups) (r : nat) (done : list string) : Groups :=
  List.map (fun entry =>
              (fst entry,
               skipn (if mem (fst entry) done then S r else r) (snd entry)))
    (List.filter (fun entry => (r <? length (snd entry))%nat) g).

Section Rounds.
Variable sources : list string.
Variable maxFiles : JsNumber.

(** The file a directory gives in round [r] (rounds count from 0). *)
Definition pick (r : nat) (dir : string) : string :=
  nth r (inDir dir sources) EmptyString.

(** The files taken in the first [r] rounds when no directory runs out. *)
Definition schedule (r : nat) : list string :=
  concat (List.map (fun r' => List.map (pick r') (directories sources)) (seq 0 r)).

(** The state of the loop at its head, [r] rounds completed and the
    directories [done] visited in the current one. *)
Record reached (st : Loop) (r : nat) (done todo : list string) : Prop := {
  reached_dirs : directories sources = done ++ todo;
  reached_byDir : byDir st = roundGroups (groupByDir sources) r done;
  reached_index : dirIndex st = length done;
  reached_selected : selected st = schedule r ++ List.map (pick r) done;
  reached_length :
    length (selected st) = r * length (directories sources) + length done;
  (** every visit so far found a file *)
  reached_found :
    forall r' i d,
      r' * length (directories sources) + i < length (selected st) ->
      nth_error (directories sources) i = Some d ->
      r' < length (inDir d sources);
  reached_more :
    todo = [] -> lt (ofNat (length (selected st))) maxFiles = false;
  reached_files : Permutation (selected st ++ held (byDir st)) sources;
  reached_wanted :
    length (selected st) = 0
    \/ lt (ofNat (pred (length (selected st)))) maxFiles = true;
}.

Definition invariant (st : Loop) : Prop :=
  exists r done todo, reached st r done todo.

End Rounds.

(** A compile_commands.json for the examples, as [JSON.parse] returns it. *)
Definition demoParse (content : string) : option JsValue :=
  if String.eqb content "demo" then
    Some (JArray
      [JObject [("directory", JString "/proj/build"); ("file", JString "../src/a.cpp")];
       JObject [("directory", JString "/proj/build"); ("file", JString "/proj/src/b.C")];
       JObject [("directory", JString "/proj/build"); ("file", JString "/proj/src/a.cpp")];
       JObject [("directory", JString "/proj/build"); ("file", JString "/proj/include/a.hpp")];
       JObject [("directory", JString "/proj/build"); ("file", JString "/proj/third_party/z.c")];
       JObject [("directory", JString "/proj/build"); ("file", JString "/proj/src/vendor/v.cc")];
       JObject [("directory", JString "/proj/build"); ("file", JString "/elsewhere/e.c")]])
  else if String.eqb content "no file" then
    Some (JArray
      [JObject [("directory", JString "/proj/build"); ("file", JString "/proj/a.c")];
       JObject [("directory", JString "/proj/build")]])
  else None.

Definition demoFs (content : string) : FileSystem :=
  {| existsSync := String.eqb "/proj/build/compile_commands.json";
     readFile := fun _ => Some content |}.

(** The same layout with the file system root as the project root
    ([PROJECT_ROOT=/]): the database lies at [/compile_commands.json]. *)
Definition rootParse (content : string) : option JsValue :=
  if String.eqb content "root" then
    Some (JArray
      [JObject [("directory", JString "/"); ("file", JString "/third_party/z.c")];
       JObject [("directory", JString "/"); ("file", JString "/src/a.cpp")]])
  else None.

Definition rootFs : FileSystem :=
  {| existsSync := String.eqb "/compile_commands.json";
     readFile := fun _ => Some "root" |}.

Section Detect.
(** [JSON.parse]; [None] when it throws a [SyntaxError]. *)
Variable JSON_parse : string -> option JsValue.
(** [process.cwd()], which [path.resolve] falls back to. *)
Variable cwd : string.

(** The absolute path of one entry; [None] when the entry makes the loop
    body throw a [TypeError] ([cmd.file] is not a string, or [cmd.directory]
    is not a string when [path.resolve] needs it). *)
Definition commandPath (cmd : JsValue) : option string :=
  match cmd with
  | JObject _ =>
      match get cmd "file" with
      | JString file =>
          if startsWith file "/" then Some file
          else
            match get cmd "directory" with
            | JString directory => Some (Path.resolve cwd directory file)
            | _ => None
            end
      | _ => None
      end
  | _ => None
  end.

(** One iteration of [for (const cmd of commands)]. *)
Definition visit (projectRoot : string) (allExcludes : list string)
  (sources : list string) (cmd : JsValue) : option (list string) :=
  match commandPath cmd with
  | None => None
  | Some filePath =>
      if negb (startsWith filePath projectRoot) then Some sources
      else
        let relativePath := slice (unitLength projectRoot + 1) filePath in
        if existsb (matchesExclude relativePath) allExcludes then Some sources
        else if isSourceFile filePath then Some (setAdd sources filePath)
        else Some sources
  end.

Fixpoint visitAll (projectRoot : string) (allExcludes : list string)
  (sources : list string) (commands : list JsValue) : option (list string) :=
  match commands with
  | [] => Some sources
  | cmd :: rest =>
      match visit projectRoot allExcludes sources cmd with
      | None => None
      | Some sources' => visitAll projectRoot allExcludes sources' rest
      end
  end.

(** The body of the [try] block; [None] when it throws. A parsed value
    that is not an array is either not iterable or (a string) yields
    characters whose [file] is undefined; only the empty string iterates
    without throwing, over nothing. *)
Definition scanCommands (fs : FileSystem) (compileCommandsPath : string)
  (projectRoot : string) (allExcludes : list string) : option (list string) :=
  match readFile fs compileCommandsPath with
  | None => None
  | Some content =>
      match JSON_parse content with
      | None => None
      | Some (JArray commands) => visitAll projectRoot allExcludes [] commands
      | Some (JString EmptyString) => Some []
      | Some _ => None
      end
  end.

Definition detectCMakeSources (fs : FileSystem) (projectRoot : string)
  (excludePaths : list string) : list string :=
  let allExcludes := DEFAULT_EXCLUDE_PATHS ++ excludePaths in
  match findCompileCommands fs projectRoot with
  | None => []
  | Some compileCommandsPath =>
      match scanCommands fs compileCommandsPath projectRoot allExcludes with
      | Some result => result
      | None => []
      end
  end.

(** What [detectCMakeSources] promises of a returned path. *)
Definition accepted (projectRoot : string) (allExcludes : list string)
  (p : string) : Prop :=
  startsWith p "/" = true
  /\ startsWith p projectRoot = true
  /\ isSourceFile p = true
  /\ forall exc, In exc allExcludes ->
       matchesExclude (slice (unitLength projectRoot + 1) p) exc = false.

(** The three tests an entry's path passes to be collected. *)
Definition collected (projectRoot : string) (allExcludes : list string)
  (filePath : string) : bool :=
  startsWith filePath projectRoot
  && negb (existsb (matchesExclude
                      (slice (unitLength projectRoot + 1) filePath))
             allExcludes)
  && isSourceFile filePath.

Lemma setAdd_In sources x p :
  In p (setAdd sources x) <-> In p sources \/ p = x.
Proof.
  unfold setAdd. destruct (existsb (String.eqb x) sources) eqn:E.
  - split; [tauto|]. intros [H | ->]; [exact H|].
    apply existsb_exists in E as (y & Hy & Heq).
    apply String.eqb_eq in Heq. now subst.
  - rewrite in_app_iff. cbn. intuition congruence.
Qed.

Lemma setAdd_NoDup sources x : List.NoDup sources -> List.NoDup (setAdd sources x).
Proof.
  intros Hnd. unfold setAdd. destruct (existsb (String.eqb x) sources) eqn:E.
  - exact Hnd.
  - apply List.NoDup_app; [exact Hnd | repeat constructor; intros [] |].
    intros y Hy [<- | []].
    assert (existsb (String.eqb x) sources = true); [|congruence].
    apply existsb_exists. exists x. split; [exact Hy | apply String.eqb_refl].
Qed.

Lemma commandPath_absolute cmd filePath :
  commandPath cmd = Some filePath -> startsWith filePath "/" = true.
Proof.
  unfold commandPath. destruct cmd; try discriminate.
  destruct (get _ "file") as [| | | |file| |]; try discriminate.
  destruct (startsWith file "/") eqn:E.
  - now intros [= <-].
  - destruct (get _ "directory"); try discriminate.
    intros [= <-]. unfold Path.resolve. apply (startsWith_app "/").
Qed.

Lemma visit_invariant projectRoot allExcludes sources cmd sources' :
  visit projectRoot allExcludes sources cmd = Some sources' ->
  List.NoDup sources ->
  Forall (accepted projectRoot allExcludes) sources ->
  List.NoDup sources' /\ Forall (accepted projectRoot allExcludes) sources'.
Proof.
  unfold visit. intros Hv Hnd Hall.
  destruct (commandPath cmd) as [filePath|] eqn:Hp; [|discriminate].
  destruct (startsWith filePath projectRoot) eqn:Hroot; simpl in Hv;
    [|inversion Hv; subst; auto].
  destruct (existsb _ allExcludes) eqn:Hexc; [inversion Hv; subst; auto|].
  destruct (isSourceFile filePath) eqn:Hsrc; inversion Hv; subst; auto.
  split; [now apply setAdd_NoDup|].
  apply List.Forall_forall. intros p Hin. apply setAdd_In in Hin as [Hin | ->].
  - eapply List.Forall_forall in Hall; eauto.
  - repeat split; auto.
    + eapply commandPath_absolute; eauto.
    + intros exc Hexc'.
      destruct (matchesExclude _ exc) eqn:E; [|reflexivity].
      assert (existsb (matchesExclude (slice (unitLength projectRoot + 1) filePath))
                allExcludes = true); [|congruence].
      apply existsb_exists. eauto.
Qed.

Lemma visitAll_invariant projectRoot allExcludes commands :
  forall sources result,
    visitAll projectRoot allExcludes sources commands = Some result ->
    List.NoDup sources ->
    Forall (accepted projectRoot allExcludes) sources ->
    List.NoDup result /\ Forall (accepted projectRoot allExcludes) result.
Proof.
  induction commands as [|cmd rest IH]; cbn; intros sources result Hv Hnd Hall.
  - injection Hv as <-. auto.
  - destruct (visit projectRoot allExcludes sources cmd) as [sources'|] eqn:E;
      [|discriminate].
    destruct (visit_invariant _ _ _ _ _ E Hnd Hall) as [Hnd' Hall'].
    eauto.
Qed.

(** A path that passes the source test does not end in a header
    extension. *)
Lemma isSourceFile_not_header filePath h :
  isSourceFile filePath = true -> In h headerExtensions ->
  endsWith (toLowerCase filePath) ("." +:+ h) = false.
Proof.
  unfold isSourceFile, endsWith. intros Hsrc Hh.
  apply existsb_exists in Hsrc as (ext & Hext & Hends).
  destruct (startsWith _ (String.rev ("." +:+ h))) eqn:E; [|reflexivity].
  exfalso.
  destruct (startsWith_comparable _ _ _ Hends E) as [Hc | Hc];
    revert Hc; unfold sourceExtensions, headerExtensions in *;
    cbn [In] in Hext, Hh;
    repeat (destruct Hext as [<- | Hext]); try destruct Hext;
    repeat (destruct Hh as [<- | Hh]); try destruct Hh;
    vm_compute; discriminate.
Qed.

Lemma detectCMakeSources_invariant fs projectRoot excludePaths :
  let result := detectCMakeSources fs projectRoot excludePaths in
  List.NoDup result
  /\ Forall (accepted projectRoot (DEFAULT_EXCLUDE_PATHS ++ excludePaths)) result.
Proof.
  unfold detectCMakeSources. cbv zeta.
  destruct (findCompileCommands fs projectRoot) as [path|];
    [|split; constructor].
  unfold scanCommands.
  destruct (readFile fs path) as [content|]; [|split; constructor].
  destruct (JSON_parse content) as [[| | | |s|commands|]|];
    try (split; constructor).
  - destruct s; split; constructor.
  - destruct (visitAll _ _ [] commands) as [result|] eqn:E;
      [|split; constructor].
    eapply visitAll_invariant; eauto; constructor.
Qed.

(** What holds of every path [detectCMakeSources] returns, whatever the
    project root: it is absolute, starts with the project root, ends (in any
    letter case) in a dot and one of c, cc, cpp, cxx, c++, m, mm and in no
    header extension, and its remainder after as many code units as the
    project root has and one more neither starts with an excluded path nor
    contains one after a slash. For a project root of ASCII characters the
    path is therefore never the project root, one ASCII character and an
    excluded path followed by anything. The returned list has no
    duplicates, and it is empty when no compile_commands.json is found,
    when reading it fails, or when its content does not parse. *)
Lemma detectCMakeSources_postconditions
  (fs : FileSystem) (projectRoot : string) (excludePaths : list string) :
  let result := detectCMakeSources fs projectRoot excludePaths in
  List.NoDup result
  /\ (forall p, In p result ->
        startsWith p "/" = true
        /\ startsWith p projectRoot = true
        /\ isSourceFile p = true
        /\ (forall h, In h headerExtensions ->
              endsWith (toLowerCase p) ("." +:+ h) = false)
        /\ (forall exc, In exc (DEFAULT_EXCLUDE_PATHS ++ excludePaths) ->
              matchesExclude (slice (unitLength projectRoot + 1) p) exc = false
              /\ (asciiOnly projectRoot = true ->
                  forall sep rest, isAscii sep = true ->
                    p <> projectRoot +:+ String sep (exc +:+ rest))))
  /\ (findCompileCommands fs projectRoot = None -> result = [])
  /\ (forall path, findCompileCommands fs projectRoot = Some path ->
        readFile fs path = None -> result = [])
  /\ (forall path content, findCompileCommands fs projectRoot = Some path ->
        readFile fs path = Some content -> JSON_parse content = None ->
        result = []).
Proof.
  intros result.
  destruct (detectCMakeSources_invariant fs projectRoot excludePaths)
    as [Hnd Hall].
  fold result in Hnd, Hall.
  split; [exact Hnd|]. split.
  - intros p Hin. eapply List.Forall_forall in Hall; eauto.
    destruct Hall as (Habs & Hroot & Hsrc & Hexc).
    repeat split; auto.
    + intros h Hh. now apply isSourceFile_not_header.
    + intros Hascii sep rest Hsep ->.
      specialize (Hexc exc H).
      rewrite slice_past_separator in Hexc by assumption.
      unfold matchesExclude in Hexc. now rewrite startsWith_app in Hexc.
  - subst result. unfold detectCMakeSources, scanCommands.
    repeat split.
    + now intros ->.
    + now intros path -> ->.
    + now intros path content -> -> ->.
Qed.

(** *** Every entry counts *)

Lemma visit_collects projectRoot allExcludes sources cmd filePath :
  commandPath cmd = Some filePath ->
  visit projectRoot allExcludes sources cmd
  = Some (if collected projectRoot allExcludes filePath
          then setAdd sources filePath else sources).
Proof.
  intros Hpath. unfold visit, collected. rewrite Hpath.
  destruct (startsWith filePath projectRoot); cbn [negb andb]; [|reflexivity].
  destruct (existsb _ allExcludes); cbn [negb andb]; [reflexivity|].
  now destruct (isSourceFile filePath).
Qed.

Lemma visitAll_collects projectRoot allExcludes commands :
  (forall cmd, In cmd commands -> commandPath cmd <> None) ->
  forall sources,
  exists result,
    visitAll projectRoot allExcludes sources commands = Some result
    /\ forall p,
         In p result <->
         In p sources
         \/ exists cmd, In cmd commands /\ commandPath cmd = Some p
              /\ collected projectRoot allExcludes p = true.
Proof.
  induction commands as [|cmd rest IH]; intros Hwell sources; cbn [visitAll].
  - exists sources. split; [reflexivity|]. intros p. split; [tauto|].
    intros [H | (cmd & [] & _)]. exact H.
  - destruct (commandPath cmd) as [filePath|] eqn:Hpath;
      [|exfalso; exact (Hwell cmd (or_introl eq_refl) Hpath)].
    rewrite (visit_collects _ _ _ _ _ Hpath).
    destruct (IH (fun c Hc => Hwell c (or_intror Hc))
                (if collected projectRoot allExcludes filePath
                 then setAdd sources filePath else sources))
      as (result & -> & Hresult).
    exists result. split; [reflexivity|]. intros p. rewrite Hresult. split.
    + intros [Hin | (c & Hc & Hp & Hkeep)].
      * destruct (collected projectRoot allExcludes filePath) eqn:Hkeep;
          [|now left].
        apply setAdd_In in Hin. destruct Hin as [Hin | ->]; [now left|].
        right. exists cmd. split; [now left | auto].
      * right. exists c. split; [now right | auto].
    + intros [Hin | (c & [<- | Hc] & Hp & Hkeep)].
      * left. destruct (collected projectRoot allExcludes filePath); [|exact Hin].
        apply setAdd_In. now left.
      * left. rewrite Hpath in Hp. injection Hp as ->. rewrite Hkeep.
        apply setAdd_In. now right.
      * right. eauto.
Qed.

Lemma visitAll_malformed projectRoot allExcludes commands :
  (exists cmd, In cmd commands /\ commandPath cmd = None) ->
  forall sources, visitAll projectRoot allExcludes sources commands = None.
Proof.
  induction commands as [|cmd rest IH]; intros (bad & Hin & Hbad) sources;
    [destruct Hin|].
  cbn [visitAll].
  destruct (visit projectRoot allExcludes sources cmd) as [sources'|] eqn:Hvisit;
    [|reflexivity].
  apply IH. destruct Hin as [<- | Hin]; [|eauto].
  unfold visit in Hvisit. now rewrite Hbad in Hvisit.
Qed.

(** X5. When the compilation database is found, read and parsed into an
    array whose entries all give a path (a string [file], and a string
    [directory] where [file] is relative), [detectCMakeSources] returns
    exactly the paths of the entries that start with the project root, match
    no excluded path and pass the source-file test: no such entry is left
    out. *)
Theorem detectCMakeSources_lists_every_source
  (fs : FileSystem) (projectRoot : string) (excludePaths : list string)
  (path content : string) (commands : list JsValue) :
  findCompileCommands fs projectRoot = Some path ->
  readFile fs path = Some content ->
  JSON_parse content = Some (JArray commands) ->
  (forall cmd, In cmd commands -> commandPath cmd <> None) ->
  forall p,
    In p (detectCMakeSources fs projectRoot excludePaths) <->
    exists cmd,
      In cmd commands /\ commandPath cmd = Some p
      /\ collected projectRoot (DEFAULT_EXCLUDE_PATHS ++ excludePaths) p = true.
Proof.
  intros Hfind Hread Hparse Hwell p.
  unfold detectCMakeSources, scanCommands.
  rewrite Hfind, Hread, Hparse.
  destruct (visitAll_collects projectRoot (DEFAULT_EXCLUDE_PATHS ++ excludePaths)
              commands Hwell []) as (result & -> & Hresult).
  rewrite Hresult. split; [intros [[] | H]; exact H | now right].
Qed.

(** X6. One entry of the compilation database that gives no path (its
    [file] is not a string, or [file] is relative and its [directory] is not
    a string) makes [detectCMakeSources] return the empty list, whatever the
    other entries hold: the exception it raises in the loop discards the
    paths collected before it. *)
Theorem detectCMakeSources_malformed_entry_discards_all
  (fs : FileSystem) (projectRoot : string) (excludePaths : list string)
  (path content : string) (commands : list JsValue) (cmd : JsValue) :
  findCompileCommands fs projectRoot = Some path ->
  readFile fs path = Some content ->
  JSON_parse content = Some (JArray commands) ->
  In cmd commands ->
  commandPath cmd = None ->
  detectCMakeSources fs projectRoot excludePaths = [].
Proof.
  intros Hfind Hread Hparse Hin Hbad.
  unfold detectCMakeSources, scanCommands.
  rewrite Hfind, Hread, Hparse.
  rewrite visitAll_malformed; [reflexivity | eauto].
Qed.

End Detect.

Example detectCMakeSources_demo :
  detectCMakeSources demoParse "/" (demoFs "demo") "/proj" []
  = ["/proj/src/a.cpp"; "/proj/src/b.C"].
Proof. reflexivity. Qed.

(** The relative path starts after the code units of the project root and
    one more: the entry [/projébuild/x.c] of the project [/proj] is taken
    for a file under [build/]. *)
Example collected_counts_code_units :
  collected "/proj" DEFAULT_EXCLUDE_PATHS "/projébuild/x.c" = false
  /\ collected "/proj" DEFAULT_EXCLUDE_PATHS "/projébuilt/x.c" = true.
Proof. split; reflexivity. Qed.

(** One malformed entry discards the paths collected before it. *)
Example detectCMakeSources_malformed_entry :
  detectCMakeSources demoParse "/" (demoFs "no file") "/proj" [] = [].
Proof. reflexivity. Qed.

Example detectCMakeSources_unparsable :
  detectCMakeSources demoParse "/" (demoFs "[") "/proj" [] = [].
Proof. reflexivity. Qed.

(** C8, on the code: with the file system root as the project root,
    [detectCMakeSources] returns [/third_party/z.c], a file under the
    default excluded path [third_party/]: [slice(projectRoot.length + 1)]
    takes the root for a directory name without its slash and cuts the
    first character of [third_party/z.c] away. Under the project root
    [/proj] the file at the same place is left out. *)
Theorem detectCMakeSources_at_the_root_returns_an_excluded_file :
  detectCMakeSources rootParse "/" rootFs "/" []
  = ["/third_party/z.c"; "/src/a.cpp"]
  /\ In "third_party/" DEFAULT_EXCLUDE_PATHS
  /\ "/third_party/z.c" = "/" +:+ "third_party/" +:+ "z.c"
  /\ slice (unitLength "/" + 1) "/third_party/z.c" = "hird_party/z.c"
  /\ ~ In "/proj/third_party/z.c"
        (detectCMakeSources demoParse "/" (demoFs "demo") "/proj" []).
Proof.
  split; [reflexivity|]. split; [cbn; tauto|].
  split; [reflexivity|]. split; [reflexivity|].
  vm_compute. intros [H | [H | []]]; discriminate.
Qed.

(** The theorem at the demonstration database: the entry for
    [/proj/src/b.C] is returned. *)
Lemma detectCMakeSources_lists_every_source_witness :
  In "/proj/src/b.C" (detectCMakeSources demoParse "/" (demoFs "demo") "/proj" []).
Proof.
  apply (detectCMakeSources_lists_every_source demoParse "/" (demoFs "demo")
           "/proj" [] "/proj/build/compile_commands.json" "demo"
           [JObject [("directory", JString "/proj/build"); ("file", JString "../src/a.cpp")];
            JObject [("directory", JString "/proj/build"); ("file", JString "/proj/src/b.C")];
            JObject [("directory", JString "/proj/build"); ("file", JString "/proj/src/a.cpp")];
            JObject [("directory", JString "/proj/build"); ("file", JString "/proj/include/a.hpp")];
            JObject [("directory", JString "/proj/build"); ("file", JString "/proj/third_party/z.c")];
            JObject [("directory", JString "/proj/build"); ("file", JString "/proj/src/vendor/v.cc")];
            JObject [("directory", JString "/proj/build"); ("file", JString "/elsewhere/e.c")]]).
  - reflexivity.
  - reflexivity.
  - reflexivity.
  - intros cmd Hin. cbn [In] in Hin.
    repeat (destruct Hin as [<- | Hin]; [discriminate|]). destruct Hin.
  - exists (JObject [("directory", JString "/proj/build");
                     ("file", JString "/proj/src/b.C")]).
    split; [cbn; tauto|]. split; reflexivity.
Defined.

(** The theorem at a database whose second entry has no [file]. *)
Lemma detectCMakeSources_malformed_entry_discards_all_witness :
  detectCMakeSources demoParse "/" (demoFs "no file") "/proj" [] = [].
Proof.
  apply (detectCMakeSources_malformed_entry_discards_all demoParse "/"
           (demoFs "no file") "/proj" [] "/proj/build/compile_commands.json"
           "no file"
           [JObject [("directory", JString "/proj/build"); ("file", JString "/proj/a.c")];
            JObject [("directory", JString "/proj/build")]]
           (JObject [("directory", JString "/proj/build")])).
  - reflexivity.
  - reflexivity.
  - reflexivity.
  - cbn. tauto.
  - reflexivity.
Defined.


(** *** [selectWarmingFiles] *)

Example sortStrings_code_units :
  sortStrings ["/～"; "/😀"; "/a"] = ["/a"; "/😀"; "/～"].
Proof. reflexivity. Qed.

Example selectWarmingFiles_spread :
  selectWarmingFiles
    ["/p/b/1.c"; "/p/b/2.c"; "/p/a/1.c"; "/p/a/2.c"; "/p/c/1.c"]
    (Some (ofZ 4))
  = Some (Selected ["/p/a/1.c"; "/p/b/1.c"; "/p/c/1.c"; "/p/a/2.c"]).
Proof. reflexivity. Qed.

Example selectWarmingFiles_exhausted_directory :
  selectWarmingFiles ["/p/a/1.c"; "/p/b/1.c"; "/p/b/2.c"; "/p/b/3.c"]
    (Some (ofZ 3))
  = Some TypeError.
Proof. reflexivity. Qed.

(** *** The map operations *)

Lemma groupGet_In d g files :
  groupGet d g = Some files -> In (d, files) g.
Proof.
  induction g as [|[k old] g IH]; cbn; [discriminate|].
  destruct (String.eqb_spec k d) as [->|Hne].
  - intros [= <-]. now left.
  - intros H. right. now apply IH.
Qed.

Lemma groupGet_None d g : groupGet d g = None <-> ~ In d (groupKeys g).
Proof.
  induction g as [|[k old] g IH]; cbn; [tauto|].
  destruct (String.eqb_spec k d) as [->|Hne].
  - split; [discriminate | tauto].
  - rewrite IH. tauto.
Qed.

Lemma In_groupGet d files g :
  List.NoDup (groupKeys g) -> In (d, files) g -> groupGet d g = Some files.
Proof.
  induction g as [|[k old] g IH]; cbn; [tauto|].
  intros Hnd [Heq | Hin].
  - injection Heq as -> ->. now rewrite String.eqb_refl.
  - inversion Hnd as [|? ? Hnot Hnd']; subst.
    destruct (String.eqb_spec k d) as [->|Hne]; [|now apply IH].
    exfalso. apply Hnot. apply in_map_iff. exists (d, files). auto.
Qed.

Lemma groupGet_groupSet_same d files g :
  groupGet d (groupSet d files g) = Some files.
Proof.
  induction g as [|[k old] g IH]; cbn.
  - now rewrite String.eqb_refl.
  - destruct (String.eqb_spec k d) as [->|Hne]; cbn.
    + now rewrite String.eqb_refl.
    + destruct (String.eqb_spec k d); [contradiction | exact IH].
Qed.

Lemma groupGet_groupSet_other d d' files g :
  d' <> d -> groupGet d' (groupSet d files g) = groupGet d' g.
Proof.
  intros Hne. induction g as [|[k old] g IH]; cbn.
  - destruct (String.eqb_spec d d'); [congruence | reflexivity].
  - destruct (String.eqb_spec k d) as [->|Hkd]; cbn.
    + destruct (String.eqb_spec d d'); [congruence | reflexivity].
    + destruct (String.eqb_spec k d'); [reflexivity | exact IH].
Qed.

Lemma groupSet_present d old g :
  groupGet d g = Some old ->
  exists before after,
    g = before ++ (d, old) :: after
    /\ forall files, groupSet d files g = before ++ (d, files) :: after.
Proof.
  induction g as [|[k v] g IH]; cbn; [discriminate|].
  destruct (String.eqb_spec k d) as [->|Hne].
  - intros [= <-]. now exists [], g.
  - intros Hget. destruct (IH Hget) as (before & after & -> & Hset).
    exists ((k, v) :: before), after. split; [reflexivity|].
    intros files. cbn. now rewrite Hset.
Qed.

Lemma groupSet_absent d files g :
  groupGet d g = None -> groupSet d files g = g ++ [(d, files)].
Proof.
  induction g as [|[k v] g IH]; cbn; [reflexivity|].
  destruct (String.eqb_spec k d) as [->|Hne]; [discriminate|].
  intros Hget. now rewrite IH.
Qed.

Lemma groupKeys_groupSet_present d old files g :
  groupGet d g = Some old -> groupKeys (groupSet d files g) = groupKeys g.
Proof.
  intros Hget.
  destruct (groupSet_present d old g Hget) as (before & after & -> & ->).
  unfold groupKeys. now rewrite !map_app.
Qed.

Lemma NoDup_groupKeys_groupSet d files g :
  List.NoDup (groupKeys g) -> List.NoDup (groupKeys (groupSet d files g)).
Proof.
  intros Hnd. destruct (groupGet d g) as [old|] eqn:Hget.
  - now rewrite (groupKeys_groupSet_present d old).
  - rewrite (groupSet_absent d files g Hget). unfold groupKeys in *.
    rewrite map_app. cbn.
    apply List.NoDup_app; [exact Hnd | repeat constructor; intros [] |].
    intros k Hk [<- | []]. now apply groupGet_None in Hget.
Qed.

Lemma held_shift d first rest g :
  groupGet d g = Some (first :: rest) ->
  Permutation (first :: held (groupSet d rest g)) (held g).
Proof.
  intros Hget.
  destruct (groupSet_present d _ g Hget) as (before & after & -> & ->).
  unfold held. rewrite !map_app, !concat_app. cbn.
  apply Permutation_middle.
Qed.

Lemma held_addSource g source :
  Permutation (held (addSource g source)) (held g ++ [source]).
Proof.
  unfold addSource. destruct (groupGet _ g) as [old|] eqn:Hget.
  - destruct (groupSet_present _ _ g Hget) as (before & after & -> & ->).
    unfold held. rewrite !map_app, !concat_app. cbn.
    rewrite <- !app_assoc. apply Permutation_app_head.
    apply Permutation_app_head. apply Permutation_app_comm.
  - rewrite (groupSet_absent _ _ g Hget). unfold held.
    rewrite map_app, concat_app. cbn. rewrite ?app_nil_r. reflexivity.
Qed.

Lemma held_filter g :
  held (List.filter (fun entry => negb (isEmpty (snd entry))) g) = held g.
Proof.
  unfold held. induction g as [|[k [|f files]] g IH]; cbn; congruence.
Qed.

(** *** Grouping *)

Lemma groupGet_addSource d g source :
  groupGet d (addSource g source)
  = if String.eqb (Path.dirname source) d
    then Some (match groupGet d g with Some files => files | None => [] end
               ++ [source])
    else groupGet d g.
Proof.
  unfold addSource. destruct (String.eqb_spec (Path.dirname source) d) as [<-|Hne].
  - destruct (groupGet _ g); now rewrite groupGet_groupSet_same.
  - destruct (groupGet (Path.dirname source) g);
      now rewrite groupGet_groupSet_other by congruence.
Qed.

Lemma groupGet_fold d sources : forall g,
  groupGet d (fold_left addSource sources g)
  = match groupGet d g, inDir d sources with
    | Some files, more => Some (files ++ more)
    | None, [] => None
    | None, more => Some more
    end.
Proof.
  induction sources as [|source sources IH]; intros g; cbn [fold_left inDir List.filter].
  - destruct (groupGet d g); [now rewrite app_nil_r | reflexivity].
  - rewrite IH, groupGet_addSource. fold (inDir d sources).
    destruct (String.eqb (Path.dirname source) d).
    + destruct (groupGet d g); cbn; [now rewrite <- app_assoc | reflexivity].
    + reflexivity.
Qed.

Lemma groupGet_groupByDir d sources :
  groupGet d (groupByDir sources)
  = match inDir d sources with [] => None | files => Some files end.
Proof. unfold groupByDir. now rewrite groupGet_fold. Qed.

Lemma NoDup_groupKeys_fold sources : forall g,
  List.NoDup (groupKeys g) -> List.NoDup (groupKeys (fold_left addSource sources g)).
Proof.
  induction sources as [|source sources IH]; intros g Hnd; [exact Hnd|].
  cbn. apply IH. unfold addSource.
  destruct (groupGet _ g); now apply NoDup_groupKeys_groupSet.
Qed.

Lemma held_fold sources : forall g,
  Permutation (held (fold_left addSource sources g)) (held g ++ sources).
Proof.
  induction sources as [|source sources IH]; intros g; cbn [fold_left].
  - now rewrite app_nil_r.
  - rewrite IH, held_addSource, <- app_assoc. reflexivity.
Qed.

Lemma held_groupByDir sources : Permutation (held (groupByDir sources)) sources.
Proof. apply (held_fold sources []). Qed.

(** *** Sorting *)

Lemma insertSorted_perm x l : Permutation (insertSorted x l) (x :: l).
Proof.
  induction l as [|y l IH]; cbn [insertSorted]; [reflexivity|].
  destruct (leUnits x y); [reflexivity|].
  rewrite IH. apply perm_swap.
Qed.

Lemma sortStrings_perm l : Permutation (sortStrings l) l.
Proof.
  induction l as [|x l IH]; cbn; [reflexivity|].
  rewrite insertSorted_perm. now constructor.
Qed.

(** *** Comparisons of counts *)

Lemma lt_ofNat (a b : nat) : lt (ofNat a) (ofNat b) = (a <? b)%nat.
Proof.
  unfold lt, ofNat, ofZ.
  unfold Qcompare, inject_Z. cbn [Qnum Qden]. rewrite !Z.mul_1_r.
  rewrite Nat2Z.inj_compare.
  destruct (Nat.ltb_spec a b) as [H | H].
  - apply Nat.compare_lt_iff in H. now rewrite H.
  - destruct (a ?= b)%nat eqn:E; try reflexivity.
    apply Nat.compare_lt_iff in E. lia.
Qed.

Lemma le_ofNat (a b : nat) : le (ofNat a) (ofNat b) = (a <=? b)%nat.
Proof.
  unfold le, ofNat, ofZ.
  unfold Qcompare, inject_Z. cbn [Qnum Qden]. rewrite !Z.mul_1_r.
  rewrite Nat2Z.inj_compare.
  destruct (Nat.leb_spec a b) as [H | H].
  - destruct (a ?= b)%nat eqn:E; try reflexivity.
    apply Nat.compare_gt_iff in E. lia.
  - apply Nat.compare_gt_iff in H. now rewrite H.
Qed.

(** A count below the limit is below every count that is not within the
    limit. *)
Lemma below_limit (a b : nat) (n : JsNumber) :
  lt (ofNat a) n = true -> le (ofNat b) n = false -> a < b.
Proof.
  destruct n as [| | |q]; cbn; try discriminate.
  unfold ofNat, ofZ. cbn.
  destruct (inject_Z (Z.of_nat a) ?= q)%Q eqn:Ha; try discriminate.
  destruct (inject_Z (Z.of_nat b) ?= q)%Q eqn:Hb; try discriminate.
  intros _ _. apply Qlt_alt in Ha. apply Qgt_alt in Hb.
  pose proof (Qlt_trans _ _ _ Ha Hb) as H.
  rewrite <- Zlt_Qlt in H. lia.
Qed.

Lemma skipn_nth {A : Type} (l : list A) (default : A) : forall r,
  r < length l -> skipn r l = nth r l default :: skipn (S r) l.
Proof.
  induction l as [|x l IH]; intros r Hr; [cbn in Hr; lia|].
  destruct r as [|r]; [reflexivity|]. cbn in Hr.
  change (skipn r l = nth r l default :: skipn (S r) l). apply IH. lia.
Qed.

Lemma nothing_in {A : Type} (l : list A) : (forall x, ~ In x l) -> l = [].
Proof.
  destruct l as [|x l]; [reflexivity|]. intros H. exfalso. apply (H x). now left.
Qed.

(** *** The loop, round by round *)

Section RoundLemmas.
Variable sources : list string.
Variable maxFiles : JsNumber.

Lemma groupGet_roundGroups g r done d :
  List.NoDup (groupKeys g) ->
  groupGet d (roundGroups g r done)
  = match groupGet d g with
    | Some files =>
        if (r <? length files)%nat
        then Some (skipn (if mem d done then S r else r) files)
        else None
    | None => None
    end.
Proof.
  unfold roundGroups.
  induction g as [|[key files] g IH]; intros Hnd; [reflexivity|].
  inversion Hnd as [|? ? Hnot Hnd']; subst. cbn [List.filter snd groupGet].
  destruct (String.eqb_spec key d) as [->|Hne].
  - destruct (r <? length files)%nat; cbn [List.map groupGet fst snd].
    + now rewrite String.eqb_refl.
    + rewrite (IH Hnd').
      now apply groupGet_None in Hnot as ->.
  - destruct (r <? length files)%nat; cbn [List.map groupGet fst snd].
    + destruct (String.eqb_spec key d); [contradiction | now apply IH].
    + now apply IH.
Qed.

Lemma mem_app d a b : mem d (a ++ b) = mem d a || mem d b.
Proof. apply existsb_app. Qed.

Lemma mem_In d l : mem d l = true <-> In d l.
Proof.
  unfold mem. rewrite existsb_exists. split.
  - intros (x & Hx & Heq). apply String.eqb_eq in Heq. now subst.
  - intros H. exists d. split; [exact H | apply String.eqb_refl].
Qed.

Lemma roundGroups_other g r done d :
  ~ In d (groupKeys g) ->
  roundGroups g r (done ++ [d]) = roundGroups g r done.
Proof.
  unfold roundGroups. intros Hnot.
  apply map_ext_in. intros [key files] Hin. cbn [fst snd].
  apply filter_In in Hin as [Hin _].
  rewrite mem_app. cbn.
  destruct (String.eqb_spec key d) as [->|Hne].
  - exfalso. apply Hnot. apply in_map_iff. exists (d, files). auto.
  - now rewrite !orb_false_r.
Qed.

Lemma groupSet_roundGroups g r done d files :
  List.NoDup (groupKeys g) ->
  groupGet d g = Some files -> r < length files -> mem d done = false ->
  groupSet d (skipn (S r) files) (roundGroups g r done)
  = roundGroups g r (done ++ [d]).
Proof.
  induction g as [|[key old] g IH]; intros Hnd Hget Hlen Hmem; [discriminate|].
  inversion Hnd as [|? ? Hnot Hnd']; subst. cbn [groupGet] in Hget.
  unfold roundGroups. cbn [List.filter snd].
  destruct (String.eqb_spec key d) as [->|Hne].
  - injection Hget as ->.
    destruct (Nat.ltb_spec r (length files)); [|lia].
    cbn [List.map fst snd groupSet]. rewrite String.eqb_refl.
    rewrite mem_app, Hmem. cbn. rewrite String.eqb_refl. cbn.
    f_equal. symmetry. apply (roundGroups_other g r done d Hnot).
  - assert (Hkey : mem key (done ++ [d]) = mem key done).
    { rewrite mem_app. cbn. destruct (String.eqb_spec key d); [contradiction|].
      now rewrite !orb_false_r. }
    destruct (r <? length old)%nat; cbn [List.map fst snd groupSet].
    + destruct (String.eqb_spec key d); [contradiction|].
      rewrite Hkey. f_equal. now apply IH.
    + now apply IH.
Qed.

Lemma filter_roundGroups g r done :
  (forall d, In d (groupKeys g) -> mem d done = true) ->
  List.filter (fun entry => negb (isEmpty (snd entry))) (roundGroups g r done)
  = roundGroups g (S r) [].
Proof.
  unfold roundGroups. induction g as [|[key files] g IH]; intros Hall;
    [reflexivity|].
  assert (Hrest : forall d, In d (groupKeys g) -> mem d done = true).
  { intros d Hd. apply Hall. now right. }
  specialize (IH Hrest). cbn [List.filter snd].
  destruct (Nat.ltb_spec r (length files)) as [Hr | Hr];
    destruct (Nat.ltb_spec (S r) (length files)) as [Hs | Hs]; try lia;
    cbn [List.map List.filter fst snd].
  - rewrite (Hall key) by now left.
    destruct (skipn (S r) files) eqn:E.
    + apply (f_equal (@length string)) in E. rewrite length_skipn in E.
      cbn in E. lia.
    + cbn [negb isEmpty]. rewrite IH. cbn [mem existsb]. now rewrite E.
  - rewrite (Hall key) by now left.
    rewrite skipn_all2 by lia. cbn [negb isEmpty]. exact IH.
  - exact IH.
Qed.

Lemma roundGroups_start g :
  (forall d files, In (d, files) g -> files <> []) ->
  roundGroups g 0 [] = g.
Proof.
  unfold roundGroups. induction g as [|[key files] g IH]; intros Hne;
    [reflexivity|].
  cbn [List.filter snd].
  destruct files as [|f files];
    [exfalso; apply (Hne key []); [now left | reflexivity] |].
  cbn. f_equal. apply IH. intros d fs Hin. apply (Hne d fs). now right.
Qed.

(** The sources outnumber the files wanted. *)
Hypothesis beyond : le (ofNat (length sources)) maxFiles = false.

Let N := length sources.
Let dirs := directories sources.
Let k := length dirs.
Let cnt (d : string) := length (inDir d sources).

Lemma NoDup_groupByDir : List.NoDup (groupKeys (groupByDir sources)).
Proof. apply NoDup_groupKeys_fold. constructor. Qed.

Lemma dirs_perm : Permutation dirs (groupKeys (groupByDir sources)).
Proof. apply sortStrings_perm. Qed.

Lemma NoDup_dirs : List.NoDup dirs.
Proof.
  eapply Permutation_NoDup; [symmetry; apply dirs_perm | apply NoDup_groupByDir].
Qed.

Lemma In_dirs d : In d dirs <-> inDir d sources <> [].
Proof.
  split.
  - intros Hin. apply (Permutation_in _ dirs_perm) in Hin.
    intros Hnil.
    assert (Hget : groupGet d (groupByDir sources) = None)
      by now rewrite groupGet_groupByDir, Hnil.
    now apply groupGet_None in Hget.
  - intros Hne. apply (Permutation_in _ (Permutation_sym dirs_perm)).
    destruct (groupGet d (groupByDir sources)) as [files|] eqn:Hget.
    + apply groupGet_In in Hget. apply in_map_iff. exists (d, files). auto.
    + rewrite groupGet_groupByDir in Hget.
      destruct (inDir d sources); [congruence | discriminate].
Qed.

Lemma groupByDir_nonempty d files :
  In (d, files) (groupByDir sources) -> files <> [].
Proof.
  intros Hin. apply (In_groupGet _ _ _ NoDup_groupByDir) in Hin.
  rewrite groupGet_groupByDir in Hin.
  destruct (inDir d sources); [discriminate|]. injection Hin as <-. discriminate.
Qed.

Lemma groupGet_round r done d :
  groupGet d (roundGroups (groupByDir sources) r done)
  = if (r <? cnt d)%nat
    then Some (skipn (if mem d done then S r else r) (inDir d sources))
    else None.
Proof.
  rewrite groupGet_roundGroups by apply NoDup_groupByDir.
  rewrite groupGet_groupByDir. unfold cnt.
  destruct (inDir d sources) as [|f fs] eqn:E; [reflexivity|].
  reflexivity.
Qed.

Lemma schedule_S r : schedule sources (S r) = schedule sources r ++ List.map (pick sources r) dirs.
Proof.
  unfold schedule. rewrite seq_S, map_app, concat_app. cbn.
  now rewrite app_nil_r.
Qed.

Lemma position_unique r i r' i' :
  i < k -> i' < k -> r' * k + i' = r * k + i -> r' = r /\ i' = i.
Proof.
  intros Hi Hi' Heq.
  assert (H' : r' = (r * k + i) / k) by (apply Nat.div_unique with i'; lia).
  assert (H : r = (r * k + i) / k) by (apply Nat.div_unique with i; lia).
  assert (r' = r) by congruence. subst r'. lia.
Qed.

Lemma inDir_In source : In source sources -> In source (inDir (Path.dirname source) sources).
Proof.
  intros Hin. apply filter_In. split; [exact Hin | apply String.eqb_refl].
Qed.

Lemma no_dirs_no_sources : dirs = [] -> sources = [].
Proof.
  intros Hnil. apply nothing_in. intros source Hin.
  assert (Hdir : In (Path.dirname source) dirs).
  { apply In_dirs. intros Hempty. apply inDir_In in Hin.
    rewrite Hempty in Hin. destruct Hin. }
  rewrite Hnil in Hdir. destruct Hdir.
Qed.

Lemma invariant_start :
  invariant sources maxFiles {| selected := []; byDir := groupByDir sources; dirIndex := 0 |}.
Proof.
  exists 0, [], dirs. constructor; cbn [selected byDir dirIndex length]; auto.
  - symmetry. apply roundGroups_start. apply groupByDir_nonempty.
  - intros r' i d H. lia.
  - intros Hnil. apply no_dirs_no_sources in Hnil.
    destruct (lt (ofNat 0) maxFiles) eqn:E; [|reflexivity].
    pose proof (below_limit 0 (length sources) maxFiles E beyond) as H.
    rewrite Hnil in H. cbn in H. lia.
  - apply held_groupByDir.
Qed.

Lemma iterate_invariant st :
  invariant sources maxFiles st ->
  match iterate maxFiles dirs st with
  | Continue st' =>
      invariant sources maxFiles st'
      /\ length (selected st') = S (length (selected st))
      /\ lt (ofNat (length (selected st))) maxFiles = true
  | Return files =>
      files = selected st /\ lt (ofNat (length files)) maxFiles = false
  | Throw =>
      exists r i d,
        nth_error dirs i = Some d /\ cnt d <= r
        /\ length (selected st) = r * k + i
        /\ lt (ofNat (length (selected st))) maxFiles = true
  end.
Proof.
  intros (r & done & todo & [Hdirs HbyDir Hidx Hsel Hlen Hfound Hmore Hfiles Hwanted]).
  change (directories sources) with dirs in Hdirs, Hlen, Hfound.
  change (length dirs) with k in Hlen, Hfound.
  change (forall r' i d, r' * k + i < length (selected st) ->
                         nth_error dirs i = Some d -> r' < cnt d) in Hfound.
  unfold iterate.
  destruct (lt (ofNat (length (selected st))) maxFiles) eqn:Hlt;
    cbn [andb negb]; [|split; [reflexivity | exact Hlt]].
  destruct todo as [|d todo']; [specialize (Hmore eq_refl); congruence|].
  assert (Hk : length dirs = length done + S (length todo')).
  { rewrite Hdirs, length_app. reflexivity. }
  rewrite Hidx.
  destruct (Nat.ltb_spec (length done) (length dirs)) as [_|]; [|lia].
  cbn [negb].
  assert (Hnth : nth_error dirs (length done) = Some d).
  { rewrite Hdirs, nth_error_app2 by lia. now rewrite Nat.sub_diag. }
  rewrite Hnth, HbyDir, groupGet_round.
  assert (Hfresh : mem d done = false).
  { destruct (mem d done) eqn:E; [|reflexivity]. apply mem_In in E.
    pose proof NoDup_dirs as Hnd. rewrite Hdirs in Hnd.
    apply List.NoDup_remove_2 in Hnd. exfalso. apply Hnd.
    apply in_or_app. now left. }
  destruct (Nat.ltb_spec r (cnt d)) as [Hgt | Hle].
  2:{ exists r, (length done), d. auto. }
  rewrite Hfresh, (skipn_nth _ EmptyString) by exact Hgt.
  fold (pick sources r d).
  assert (Hset : groupSet d (skipn (S r) (inDir d sources))
                   (roundGroups (groupByDir sources) r done)
                 = roundGroups (groupByDir sources) r (done ++ [d])).
  { apply groupSet_roundGroups; auto using NoDup_groupByDir.
    rewrite groupGet_groupByDir. unfold cnt in Hgt.
    destruct (inDir d sources); [cbn in Hgt; lia | reflexivity]. }
  rewrite Hset.
  assert (Hfiles1 : Permutation
            ((selected st ++ [pick sources r d])
             ++ held (roundGroups (groupByDir sources) r (done ++ [d])))
            sources).
  { eapply Permutation_trans; [|exact Hfiles].
    rewrite HbyDir, <- Hset, <- app_assoc.
    apply Permutation_app_head. cbn [app].
    apply held_shift. rewrite groupGet_round, Hfresh.
    destruct (Nat.ltb_spec r (cnt d)); [|lia].
    f_equal. now apply skipn_nth. }
  assert (Hlen1 : length (selected st ++ [pick sources r d]) = S (length (selected st))).
  { rewrite length_app. cbn. lia. }
  assert (Hfound1 : forall r' i d',
            r' * k + i < length (selected st ++ [pick sources r d]) ->
            nth_error dirs i = Some d' -> r' < cnt d').
  { intros r' i d' Hpos Hi. rewrite Hlen1 in Hpos.
    destruct (Nat.eq_dec (r' * k + i) (length (selected st))) as [Heq | Hne].
    - rewrite Hlen in Heq.
      assert (Hik : i < k) by (apply nth_error_Some; congruence).
      destruct (position_unique r (length done) r' i) as [-> ->];
        [unfold k; lia | exact Hik | exact Heq |].
      rewrite Hnth in Hi. injection Hi as <-. exact Hgt.
    - apply (Hfound r' i d'); [lia | exact Hi]. }
  assert (Hsel1 : selected st ++ [pick sources r d]
                  = schedule sources r ++ List.map (pick sources r) (done ++ [d])).
  { rewrite Hsel, map_app, <- app_assoc. reflexivity. }
  destruct ((length dirs <=? S (length done))%nat
            && lt (ofNat (length (selected st ++ [pick sources r d]))) maxFiles) eqn:Hwrap.
  - apply andb_true_iff in Hwrap as [Hend Hlt1].
    apply Nat.leb_le in Hend.
    assert (Htodo : todo' = []) by (destruct todo'; [reflexivity | cbn in Hk; lia]).
    subst todo'.
    rewrite filter_roundGroups.
    2:{ intros d' Hd'. apply mem_In. rewrite <- Hdirs.
        apply (Permutation_in _ (Permutation_sym dirs_perm)). exact Hd'. }
    destruct (isEmpty (roundGroups (groupByDir sources) (S r) [])) eqn:Hempty.
    + exfalso.
      assert (Hheld : held (roundGroups (groupByDir sources) r (done ++ [d])) = []).
      { rewrite <- held_filter, filter_roundGroups.
        - destruct (roundGroups (groupByDir sources) (S r) []); [reflexivity | discriminate].
        - intros d' Hd'. apply mem_In. rewrite <- Hdirs.
          apply (Permutation_in _ (Permutation_sym dirs_perm)). exact Hd'. }
      rewrite Hheld, app_nil_r in Hfiles1.
      apply Permutation_length in Hfiles1.
      pose proof (below_limit _ _ _ Hlt1 beyond) as Hbelow. lia.
    + split; [|split; [exact Hlen1 | reflexivity]].
      exists (S r), [], dirs.
      constructor; cbn [selected byDir dirIndex length];
        change (directories sources) with dirs; auto.
      * rewrite schedule_S, Hsel1, <- Hdirs. cbn. now rewrite app_nil_r.
      * rewrite Hlen1, Hlen. unfold k. cbn. lia.
      * intros Hnil. rewrite Hdirs in Hnil. now destruct done.
      * eapply Permutation_trans; [|exact Hfiles1].
        apply Permutation_app_head.
        rewrite <- (held_filter (roundGroups _ r _)), filter_roundGroups;
          [reflexivity|].
        intros d' Hd'. apply mem_In. rewrite <- Hdirs.
        apply (Permutation_in _ (Permutation_sym dirs_perm)). exact Hd'.
      * right. rewrite Hlen1. cbn [pred]. exact Hlt.
  - split; [|split; [exact Hlen1 | reflexivity]].
    exists r, (done ++ [d]), todo'.
    constructor; cbn [selected byDir dirIndex];
      change (directories sources) with dirs; auto.
    + now rewrite <- app_assoc.
    + rewrite length_app. cbn. lia.
    + rewrite Hlen1, Hlen, length_app. cbn. lia.
    + intros ->. apply andb_false_iff in Hwrap as [Hend | Hlt1]; [|exact Hlt1].
      apply Nat.leb_gt in Hend. cbn in Hk. lia.
    + right. rewrite Hlen1. cbn [pred]. exact Hlt.
Qed.

(** With a fuel of more than the sources that remain to be chosen from,
    the loop ends. *)
Lemma loop_ends fuel : forall st,
  invariant sources maxFiles st -> N - length (selected st) < fuel ->
  exists outcome st',
    loop fuel maxFiles dirs st = Some outcome
    /\ invariant sources maxFiles st'
    /\ match outcome with
       | Selected files =>
           files = selected st'
           /\ lt (ofNat (length files)) maxFiles = false
       | TypeError =>
           exists r i d,
             nth_error dirs i = Some d /\ cnt d <= r
             /\ lt (ofNat (r * k + i)) maxFiles = true
       end.
Proof.
  induction fuel as [|fuel IH]; intros st Hinv Hfuel; [lia|].
  cbn [loop]. pose proof (iterate_invariant st Hinv) as Hstep.
  destruct (iterate maxFiles dirs st) as [st1 | files |].
  - destruct Hstep as (Hinv1 & Hlen1 & Hlt).
    pose proof (below_limit _ _ _ Hlt beyond) as Hbelow.
    apply IH; [exact Hinv1 | fold N in Hbelow; lia].
  - exists (Selected files), st. destruct Hstep as [-> Hlt]. auto.
  - exists TypeError, st. destruct Hstep as (r & i & d & Hi & Hcnt & Hlen & Hlt).
    split; [reflexivity|]. split; [exact Hinv|].
    exists r, i, d. rewrite <- Hlen. auto.
Qed.

End RoundLemmas.

Lemma prefix_firstn {A : Type} (l rest a b : list A) :
  l ++ rest = a ++ b -> length l <= length a -> l = firstn (length l) a.
Proof.
  revert a. induction l as [|x l IH]; intros a Heq Hlen; [reflexivity|].
  destruct a as [|y a]; [cbn in Hlen; lia|].
  cbn in Heq. injection Heq as -> Heq. cbn. f_equal.
  apply IH; [exact Heq | cbn in Hlen; lia].
Qed.

Lemma firstn_prefix {A : Type} (done todo : list A) :
  firstn (length done) (done ++ todo) = done.
Proof. induction done as [|x done IH]; cbn; [reflexivity | now f_equal]. Qed.

Lemma wanted_number (maxFiles : option nat) :
  match option_map ofNat maxFiles with Some n => n | None => ofZ 5 end
  = ofNat (match maxFiles with Some n => n | None => 5 end).
Proof. now destruct maxFiles. Qed.

Lemma selectWarmingFiles_loop (sources : list string) (maxFiles : option nat) :
  let wanted := match maxFiles with Some n => n | None => 5 end in
  selectWarmingFiles sources (option_map ofNat maxFiles)
  = if (length sources <=? wanted)%nat then Some (Selected sources)
    else loop (S (length sources)) (ofNat wanted) (directories sources)
           {| selected := []; byDir := groupByDir sources; dirIndex := 0 |}.
Proof.
  cbv zeta. unfold selectWarmingFiles. rewrite wanted_number, le_ofNat.
  reflexivity.
Qed.

(** What the loop has reached when it ends, for a whole number of files
    wanted that the sources outnumber. *)
Lemma selectWarmingFiles_ends (sources : list string) (wanted : nat) :
  wanted < length sources ->
  exists outcome st r done todo,
    loop (S (length sources)) (ofNat wanted) (directories sources)
      {| selected := []; byDir := groupByDir sources; dirIndex := 0 |}
    = Some outcome
    /\ reached sources (ofNat wanted) st r done todo
    /\ match outcome with
       | Selected files => files = selected st /\ length files = wanted
       | TypeError =>
           exists r' i d,
             nth_error (directories sources) i = Some d
             /\ length (inDir d sources) <= r'
             /\ r' * length (directories sources) + i < wanted
       end.
Proof.
  intros Hmore.
  assert (Hbeyond : le (ofNat (length sources)) (ofNat wanted) = false).
  { rewrite le_ofNat. apply Nat.leb_gt. exact Hmore. }
  destruct (loop_ends sources (ofNat wanted) Hbeyond (S (length sources))
              {| selected := []; byDir := groupByDir sources; dirIndex := 0 |})
    as (outcome & st & Hloop & (r & done & todo & Hreached) & Hout).
  - now apply invariant_start.
  - cbn. lia.
  - exists outcome, st, r, done, todo. split; [exact Hloop|].
    split; [exact Hreached|].
    destruct outcome as [files|].
    + destruct Hout as [-> Hlt]. split; [reflexivity|].
      rewrite lt_ofNat in Hlt. apply Nat.ltb_ge in Hlt.
      destruct (reached_wanted _ _ _ _ _ _ Hreached) as [H0 | Hlast]; [lia|].
      rewrite lt_ofNat in Hlast. apply Nat.ltb_lt in Hlast. lia.
    + destruct Hout as (r' & i & d & Hi & Hcnt & Hlt).
      exists r', i, d. rewrite lt_ofNat in Hlt. apply Nat.ltb_lt in Hlt. auto.
Qed.

(** X7. For a whole number of files wanted (5 when none is given),
    [selectWarmingFiles] ends, by returning or by throwing. It returns the
    sources as they are when they do not outnumber the files wanted; and
    when they do and it returns, it returns exactly the number wanted, every
    file returned is one of the sources, and no source is returned more
    often than it is listed. *)
Theorem selectWarmingFiles_returns_the_wanted_number
  (sources : list string) (maxFiles : option nat) :
  let wanted := match maxFiles with Some n => n | None => 5 end in
  exists outcome,
    selectWarmingFiles sources (option_map ofNat maxFiles) = Some outcome
    /\ (length sources <= wanted -> outcome = Selected sources)
    /\ (forall files,
          outcome = Selected files -> wanted < length sources ->
          length files = wanted
          /\ (exists rest, Permutation (files ++ rest) sources)
          /\ (forall file, In file files -> In file sources)
          /\ (List.NoDup sources -> List.NoDup files)).
Proof.
  intros wanted. rewrite selectWarmingFiles_loop. fold wanted.
  destruct (Nat.leb_spec (length sources) wanted) as [Hle | Hgt].
  - exists (Selected sources). split; [reflexivity|]. split; [reflexivity|].
    intros files _ Hlt. lia.
  - destruct (selectWarmingFiles_ends sources wanted Hgt)
      as (outcome & st & r & done & todo & Hloop & Hreached & Hout).
    exists outcome. split; [exact Hloop|]. split; [lia|].
    intros files -> _. destruct Hout as [-> Hlen].
    pose proof (reached_files _ _ _ _ _ _ Hreached) as Hperm.
    split; [exact Hlen|]. split; [eauto|]. split.
    + intros file Hin. apply (Permutation_in _ Hperm).
      apply in_or_app. now left.
    + intros Hnd. apply (Permutation_NoDup (Permutation_sym Hperm)) in Hnd.
      now apply List.NoDup_app_remove_r in Hnd.
Qed.

Lemma schedule_first sources r :
  exists rest,
    schedule sources (S r)
    = List.map (pick sources 0) (directories sources) ++ rest.
Proof.
  unfold schedule. cbn [seq List.map concat]. eauto.
Qed.

Lemma hd_inDir dir sources :
  inDir dir sources <> [] ->
  Path.dirname (hd EmptyString (inDir dir sources)) = dir.
Proof.
  intros Hne. destruct (inDir dir sources) as [|file files] eqn:E; [congruence|].
  assert (Hin : In file (inDir dir sources)) by (rewrite E; now left).
  apply filter_In in Hin as [_ Heq]. now apply String.eqb_eq in Heq.
Qed.

(** X8. When the sources outnumber the files wanted and lie in at least
    that many directories, [selectWarmingFiles] returns one file from each
    of the first directories in sorted order: the first source listed in
    that directory. The files returned lie in pairwise different
    directories. *)
Theorem selectWarmingFiles_one_per_directory
  (sources : list string) (maxFiles : option nat) :
  let wanted := match maxFiles with Some n => n | None => 5 end in
  wanted < length sources ->
  wanted <= length (directories sources) ->
  let files :=
    List.map (fun dir => hd EmptyString (inDir dir sources))
      (firstn wanted (directories sources)) in
  selectWarmingFiles sources (option_map ofNat maxFiles) = Some (Selected files)
  /\ List.map Path.dirname files = firstn wanted (directories sources)
  /\ List.NoDup (List.map Path.dirname files).
Proof.
  intros wanted Hmore Hdirs files.
  assert (Hdirnames : List.map Path.dirname files
                      = firstn wanted (directories sources)).
  { subst files. rewrite map_map. rewrite <- (map_id (firstn _ _)) at 2.
    apply map_ext_in. intros dir Hin. apply hd_inDir.
    apply In_dirs. rewrite <- (firstn_skipn wanted). apply in_or_app. now left. }
  split; [|split; [exact Hdirnames|]].
  2:{ rewrite Hdirnames. pose proof (NoDup_dirs sources) as Hnd.
      rewrite <- (firstn_skipn wanted) in Hnd.
      now apply List.NoDup_app_remove_r in Hnd. }
  rewrite selectWarmingFiles_loop. fold wanted.
  destruct (Nat.leb_spec (length sources) wanted) as [Hle | _]; [lia|].
  destruct (selectWarmingFiles_ends sources wanted Hmore)
    as (outcome & st & r & done & todo & Hloop & Hreached & Hout).
  rewrite Hloop. f_equal. destruct outcome as [chosen|].
  - destruct Hout as [-> Hlen]. f_equal.
    destruct (schedule_first sources r) as [rest Hfirst].
    pose proof (reached_selected _ _ _ _ _ _ Hreached) as Hsel.
    pose proof (reached_dirs _ _ _ _ _ _ Hreached) as Hsplit.
    assert (Hprefix : selected st ++ List.map (pick sources r) todo
                      = List.map (pick sources 0) (directories sources) ++ rest).
    { rewrite <- Hfirst, schedule_S, Hsel, Hsplit, map_app, <- app_assoc.
      reflexivity. }
    apply prefix_firstn in Hprefix; [|rewrite length_map; lia].
    rewrite Hprefix, Hlen, firstn_map. subst files.
    apply map_ext. intros dir. unfold pick. now destruct (inDir dir sources).
  - exfalso. destruct Hout as (r' & i & d & Hi & Hcnt & Hlt).
    assert (Hik : i < length (directories sources))
      by (apply nth_error_Some; congruence).
    destruct r' as [|r'].
    + apply nth_error_In in Hi. apply In_dirs in Hi.
      destruct (inDir d sources); [congruence | cbn in Hcnt; lia].
    + cbn in Hlt. lia.
Qed.

(** X9. Let the directory at index [i] of the sorted directories be the
    first that holds the fewest sources, [r] of them. When the sources
    outnumber the files wanted, [selectWarmingFiles] throws a [TypeError]
    exactly when more than [r * (number of directories) + i] files are
    wanted: after [r] rounds the directory has been deleted from the map,
    and the next round looks it up again. When no more than that are
    wanted, the call returns that many files. *)
Theorem selectWarmingFiles_throws_when_a_directory_runs_out
  (sources : list string) (maxFiles : option nat) (r i : nat) (dir : string) :
  let wanted := match maxFiles with Some n => n | None => 5 end in
  let dirs := directories sources in
  wanted < length sources ->
  nth_error dirs i = Some dir ->
  length (inDir dir sources) = r ->
  (forall d, In d dirs -> r <= length (inDir d sources)) ->
  (forall j d, j < i -> nth_error dirs j = Some d -> r < length (inDir d sources)) ->
  (r * length dirs + i < wanted ->
     selectWarmingFiles sources (option_map ofNat maxFiles) = Some TypeError)
  /\ (wanted <= r * length dirs + i ->
        exists files,
          selectWarmingFiles sources (option_map ofNat maxFiles)
          = Some (Selected files)
          /\ length files = wanted).
Proof.
  intros wanted dirs Hmore Hdir Hcount Hleast Hbefore.
  rewrite selectWarmingFiles_loop. fold wanted.
  destruct (Nat.leb_spec (length sources) wanted) as [Hle | _]; [lia|].
  destruct (selectWarmingFiles_ends sources wanted Hmore)
    as (outcome & st & r1 & done & todo & Hloop & Hreached & Hout).
  rewrite Hloop. fold dirs in Hout.
  assert (Hik : i < length dirs) by (apply nth_error_Some; congruence).
  split.
  - intros Hlt. destruct outcome as [files|]; [exfalso | reflexivity].
    destruct Hout as [-> Hlen].
    pose proof (reached_found _ _ _ _ _ _ Hreached r i dir) as Hfound.
    fold dirs in Hfound. rewrite Hlen in Hfound.
    specialize (Hfound Hlt Hdir). lia.
  - intros Hge. destruct outcome as [files|]; [destruct Hout; eauto | exfalso].
    destruct Hout as (r' & i' & d & Hi' & Hcnt & Hlt).
    assert (Hrr : r <= r').
    { apply nth_error_In in Hi' as Hin. specialize (Hleast d Hin). lia. }
    destruct (Nat.eq_dec r' r) as [-> | Hne].
    + assert (Hi : i' < i) by lia.
      specialize (Hbefore i' d Hi Hi'). lia.
    + assert (Hmul : S r * length dirs <= r' * length dirs)
        by (apply Nat.mul_le_mono_r; lia).
      cbn in Hmul. lia.
Qed.

(** The theorem at four sources, one of them alone in the first
    directory, and three files wanted. *)
Lemma selectWarmingFiles_throws_when_a_directory_runs_out_witness :
  selectWarmingFiles ["/p/a/1.c"; "/p/b/1.c"; "/p/b/2.c"; "/p/b/3.c"]
    (option_map ofNat (Some 3))
  = Some TypeError.
Proof.
  apply (selectWarmingFiles_throws_when_a_directory_runs_out
           ["/p/a/1.c"; "/p/b/1.c"; "/p/b/2.c"; "/p/b/3.c"] (Some 3) 1 0 "/p/a").
  - cbn. lia.
  - reflexivity.
  - reflexivity.
  - intros d [<- | [<- | []]]; cbn; lia.
  - intros j d Hj. lia.
  - vm_compute. lia.
Defined.

(** The theorem at five sources in three directories and two files
    wanted. *)
Lemma selectWarmingFiles_one_per_directory_witness :
  selectWarmingFiles
    ["/p/b/1.c"; "/p/b/2.c"; "/p/a/1.c"; "/p/a/2.c"; "/p/c/1.c"]
    (option_map ofNat (Some 2))
  = Some (Selected ["/p/a/1.c"; "/p/b/1.c"]).
Proof.
  apply (selectWarmingFiles_one_per_directory
           ["/p/b/1.c"; "/p/b/2.c"; "/p/a/1.c"; "/p/a/2.c"; "/p/c/1.c"] (Some 2)).
  - cbn. lia.
  - vm_compute. lia.
Defined.

Lemma insertSorted_sorted x l :
  Sorted inOrder l -> Sorted inOrder (insertSorted x l).
Proof.
  induction 1 as [|y l Hsorted IH Hhd]; cbn [insertSorted].
  - repeat constructor.
  - destruct (leUnits x y) eqn:E.
    + constructor; [now constructor | now constructor].
    + constructor; [exact IH|].
      assert (Hyx : inOrder y x) by now apply leUnits_total.
      destruct l as [|z l]; cbn [insertSorted]; [now constructor|].
      destruct (leUnits x z); constructor; auto.
      now inversion Hhd.
Qed.

Lemma sortStrings_sorted l : Sorted inOrder (sortStrings l).
Proof.
  induction l as [|x l IH]; cbn; [constructor | now apply insertSorted_sorted].
Qed.

(** *** The database of [detectConfiguration] and the one read here *)

(** X25. [detectCMakeSources] does not read the database that
    [detectConfiguration] reports. When [compile_commands.json] exists under
    [out/Default], [out/Release] or [out/Debug] of the project root, or
    under a set [COMPILE_COMMANDS_DIR], and at none of the six locations
    this module searches, [detectConfiguration] reports a database that
    exists and passes its directory to clangd, while [detectCMakeSources]
    on the same project root returns the empty list, so that
    [openSourceFiles] opens nothing. *)
Theorem detectCMakeSources_misses_the_configured_database
  (JSON_parse : string -> option JsValue) (fs : FileSystem)
  (proc : ConfigDetector.Process) (excludePaths : list string) :
  let config := ConfigDetector.detectConfiguration (existsSync fs) proc in
  let root := ConfigDetector.projectRoot config in
  (forall candidate, In candidate candidates ->
     existsSync fs (Path.join2 root candidate) = false) ->
  (exists rel,
     In rel ["out/Default/compile_commands.json";
             "out/Release/compile_commands.json";
             "out/Debug/compile_commands.json"]
     /\ existsSync fs (Path.join2 root rel) = true)
  \/ (exists dir,
        ConfigDetector.envSet (ConfigDetector.COMPILE_COMMANDS_DIR proc) = Some dir
        /\ existsSync fs
             (Path.resolve (ConfigDetector.cwd proc) dir "compile_commands.json")
           = true) ->
  (exists path,
     ConfigDetector.compileCommandsPath config = Some path
     /\ existsSync fs path = true
     /\ In ("--compile-commands-dir=" +:+ Path.dirname path)
          (ConfigDetector.clangdArgs config))
  /\ detectCMakeSources JSON_parse (ConfigDetector.cwd proc) fs root excludePaths
     = [].
Proof.
  intros config root Hnone Hsome. split.
  - destruct (ConfigDetector.database_is_reported (existsSync fs) proc) as [path Hpath].
    { destruct Hsome as [(rel & Hrel & Hexists) | Hdir]; [left | right; exact Hdir].
      exists rel. split; [|exact Hexists].
      unfold ConfigDetector.searchPaths. cbn [In] in *. tauto. }
    exists path. split; [exact Hpath|].
    now apply ConfigDetector.reported_database_is_passed.
  - unfold detectCMakeSources, findCompileCommands.
    assert (Hfind : List.find (existsSync fs) (List.map (Path.join2 root) candidates)
                    = None).
    { destruct (List.find _ _) as [found|] eqn:E; [|reflexivity].
      apply find_some in E as [Hin Hexists].
      apply in_map_iff in Hin as (candidate & <- & Hcandidate).
      rewrite (Hnone _ Hcandidate) in Hexists. discriminate. }
    now rewrite Hfind.
Qed.

(** The theorem at a Chromium checkout with its database under
    [out/Default]. *)
Lemma detectCMakeSources_misses_the_configured_database_witness :
  (exists path,
     ConfigDetector.compileCommandsPath
       (ConfigDetector.detectConfiguration ConfigDetector.chromiumFiles
          ConfigDetector.chromiumProcess) = Some path
     /\ ConfigDetector.chromiumFiles path = true
     /\ In ("--compile-commands-dir=" +:+ Path.dirname path)
          (ConfigDetector.clangdArgs
             (ConfigDetector.detectConfiguration ConfigDetector.chromiumFiles
                ConfigDetector.chromiumProcess)))
  /\ detectCMakeSources (fun _ => None) "/home/user"
       {| existsSync := ConfigDetector.chromiumFiles; readFile := fun _ => None |}
       "/home/user/chromium/src" []
     = [].
Proof.
  apply (detectCMakeSources_misses_the_configured_database (fun _ => None)
           {| existsSync := ConfigDetector.chromiumFiles;
              readFile := fun _ => None |}
           ConfigDetector.chromiumProcess []).
  - intros candidate Hin. cbn in Hin.
    repeat (destruct Hin as [<- | Hin]; [reflexivity|]). destruct Hin.
  - left. exists "out/Default/compile_commands.json".
    split; [cbn; tauto | reflexivity].
Defined.

End CMakeDetector.

(** ** src/tools/workspace-symbol.ts *)

Module WorkspaceSymbol.
Import JsString Js.

Record Position := { line : JsValue; character : JsValue }.

Record SymbolInformation := {
  name : string;
  kind : JsValue;
  location_uri : string;
  range_start : Position;
  containerName : option string;
}.

Record WorkspaceSymbolOptions := {
  query : string;
  limit : option JsNumber;
  includeExternal : option bool;
  excludePaths : option (list string);
}.

Record FormattedSymbol := {
  f_name : string;
  f_kind : string;
  f_file : string;
  f_line : JsValue;
  f_column : JsValue;
  f_container : option string;
  f_uri : string;
}.

(** The object handed to [JSON.stringify]. *)
Inductive SearchResult :=
| NotFound (message : string)
| Found (count returned : nat) (truncated : bool) (projectRoot : string)
    (includeExternal : bool) (excludePaths : option (list string))
    (symbols : list FormattedSymbol).

Section Search.
(** [uriToPath] of src/utils/uri.ts *)
Variable uriToPath : string -> string.
(** [symbolKindNames[kind] || `Unknown(${kind})`] of src/utils/lsp-types.ts *)
Variable kindName : JsValue -> string.

Definition inProject (projectRoot : string) (sym : SymbolInformation) : bool :=
  startsWith (uriToPath (location_uri sym)) projectRoot.

Definition excludedBy (projectRoot : string) (filePath excludePath : string)
  : bool :=
  if startsWith excludePath "/" then startsWith filePath excludePath
  else
    let relativePath := slice (unitLength projectRoot + 1) filePath in
    startsWith relativePath excludePath
    || includes relativePath ("/" +:+ excludePath).

Definition notExcluded (projectRoot : string) (excl : list string)
  (sym : SymbolInformation) : bool :=
  negb (existsb (excludedBy projectRoot (uriToPath (location_uri sym))) excl).

(** The two filters applied to the response. *)
Definition filterSymbols (projectRoot : string) (includeExternal : bool)
  (excl : list string) (symbols : list SymbolInformation)
  : list SymbolInformation :=
  let inRoot :=
    if negb includeExternal && JsString.truthy projectRoot
    then List.filter (inProject projectRoot) symbols
    else symbols in
  if (0 <? length excl)%nat
  then List.filter (notExcluded projectRoot excl) inRoot
  else inRoot.

Definition format (sym : SymbolInformation) : FormattedSymbol :=
  {| f_name := name sym;
     f_kind := kindName (kind sym);
     f_file := uriToPath (location_uri sym);
     f_line := line (range_start sym);
     f_column := character (range_start sym);
     f_container := containerName sym;
     f_uri := location_uri sym |}.

Definition notFoundMessage (query projectRoot : string) (includeExternal : bool)
  (excl : list string) : string :=
  let filterInfo :=
    if negb includeExternal then " in project '" +:+ projectRoot +:+ "'"
    else EmptyString in
  let excludeInfo :=
    if (0 <? length excl)%nat
    then " (excluding: " +:+ join ", " excl +:+ ")"
    else EmptyString in
  "No symbols found matching '" +:+ query +:+ "'" +:+ filterInfo +:+ excludeInfo.

(** Everything after the LSP request; [symbols] is [result || []]. *)
Definition formatResponse (projectRoot : string)
  (options : WorkspaceSymbolOptions) (symbols : list SymbolInformation)
  : SearchResult :=
  let limit := match limit options with Some n => n | None => ofZ 100 end in
  let includeExternal :=
    match includeExternal options with Some b => b | None => false end in
  let excl := match excludePaths options with Some l => l | None => [] end in
  let filteredSymbols := filterSymbols projectRoot includeExternal excl symbols in
  match filteredSymbols with
  | [] => NotFound (notFoundMessage (query options) projectRoot includeExternal excl)
  | _ =>
      let limitedSymbols := sliceTo filteredSymbols limit in
      let formattedSymbols := List.map format limitedSymbols in
      Found (length filteredSymbols) (length formattedSymbols)
        (gt (ofNat (length filteredSymbols)) limit)
        projectRoot includeExternal
        (if (0 <? length excl)%nat then Some excl else None)
        formattedSymbols
  end.

(** [workspaceSymbolSearch]: [response] is what the retried
    [workspace/symbol] request settles to; a rejection is rethrown. *)
Definition workspaceSymbolSearch (projectRoot : string)
  (options : WorkspaceSymbolOptions)
  (response : Thrown + option (list SymbolInformation))
  : Thrown + SearchResult :=
  match response with
  | inl e => inl e
  | inr result =>
      inr (formatResponse projectRoot options
             (match result with Some l => l | None => [] end))
  end.

(** The symbols of a payload ([[]] when nothing was found). *)
Definition symbolsOf (r : SearchResult) : list FormattedSymbol :=
  match r with
  | NotFound _ => []
  | Found _ _ _ _ _ _ symbols => symbols
  end.

(** The limit in force: [limit = 100] when the option is undefined. *)
Definition limitOf (options : WorkspaceSymbolOptions) : JsNumber :=
  match limit options with Some n => n | None => ofZ 100 end.

(** The symbols that survive the filters for a given response. *)
Definition survivors (projectRoot : string) (options : WorkspaceSymbolOptions)
  (result : option (list SymbolInformation)) : list SymbolInformation :=
  filterSymbols projectRoot
    (match includeExternal options with Some b => b | None => false end)
    (match excludePaths options with Some l => l | None => [] end)
    (match result with Some l => l | None => [] end).

(** The specification's bound on the payload: no more symbols than the
    limit. *)
Definition withinLimit (options : WorkspaceSymbolOptions) (r : SearchResult)
  : Prop :=
  le (ofNat (length (symbolsOf r))) (limitOf options) = true.

(** The exclude paths in force: none when the option is undefined. *)
Definition excludesOf (options : WorkspaceSymbolOptions) : list string :=
  match excludePaths options with Some l => l | None => [] end.

(** A response for the examples. *)
Definition sampleSymbol (uri : string) : SymbolInformation :=
  {| name := "f"; kind := JNumber (ofZ 12); location_uri := uri;
     range_start := {| line := JNumber (ofZ 3); character := JNumber (ofZ 0) |};
     containerName := None |}.

Definition sampleOptions (n : Z) : WorkspaceSymbolOptions :=
  {| query := "f"; limit := Some (ofZ n); includeExternal := None;
     excludePaths := None |}.

Definition sampleResponse : Thrown + option (list SymbolInformation) :=
  inr (Some [sampleSymbol "/proj/a.cpp"; sampleSymbol "/usr/include/b.h";
             sampleSymbol "/proj/c.cpp"; sampleSymbol "/proj/d.cpp"]).

Lemma filterSymbols_inProject projectRoot excl symbols sym :
  In sym (filterSymbols projectRoot false excl symbols) ->
  inProject projectRoot sym = true.
Proof.
  unfold filterSymbols. cbn [negb andb].
  assert (Hroot : forall s,
    In s (if JsString.truthy projectRoot
          then List.filter (inProject projectRoot) symbols else symbols) ->
    inProject projectRoot s = true).
  { intros s. destruct projectRoot as [|c root]; cbn [JsString.truthy].
    - intros _. unfold inProject. apply startsWith_empty.
    - intros Hin. now apply filter_In in Hin. }
  destruct (0 <? length excl)%nat; intros Hin; [apply filter_In in Hin as [Hin _]|];
    now apply Hroot.
Qed.

Lemma sliceTo_incl {A : Type} (l : list A) n x : In x (sliceTo l n) -> In x l.
Proof.
  unfold sliceTo. intros Hin.
  rewrite <- (firstn_skipn (sliceEnd (length l) n) l).
  apply in_or_app. now left.
Qed.

(** Truncating a non-negative rational does not increase it. *)
Lemma truncate_below (q : Q) :
  (0 <= Qnum q)%Z ->
  (inject_Z (Z.quot (Qnum q) (Zpos (Qden q))) <= q)%Q.
Proof.
  intros Hq. destruct q as [n d]. cbn [Qnum Qden] in *.
  unfold Qle, inject_Z. cbn [Qnum Qden].
  rewrite Z.quot_div_nonneg by lia.
  pose proof (Z.mul_div_le n (Zpos d) ltac:(lia)). lia.
Qed.

Lemma sliceTo_length_le {A : Type} (l : list A) n :
  le zero n = true -> le (ofNat (length (sliceTo l n))) n = true.
Proof.
  unfold sliceTo. intros Hn. rewrite length_firstn.
  destruct n as [| | |q]; cbn in Hn; try discriminate; [reflexivity|].
  assert (Hq : (0 <= Qnum q)%Z).
  { destruct (inject_Z 0 ?= q)%Q eqn:E; try discriminate;
      [apply Qeq_alt in E | apply Qlt_alt in E];
      unfold Qeq, Qlt, inject_Z in E; cbn in E; destruct q; cbn in *; lia. }
  unfold sliceEnd.
  pose proof (Z.quot_pos (Qnum q) (Zpos (Qden q)) Hq ltac:(lia)) as Hk.
  destruct (Z.quot (Qnum q) (Zpos (Qden q)) <? 0)%Z eqn:Hneg; [lia|].
  unfold le, ofNat, ofZ.
  assert (Hle : (inject_Z (Z.of_nat
             (Nat.min (Z.to_nat (Z.min (Z.quot (Qnum q) (Zpos (Qden q)))
                                       (Z.of_nat (length l))))
                      (length l))) <= q)%Q).
  { eapply Qle_trans; [|apply truncate_below; exact Hq].
    rewrite <- Zle_Qle. lia. }
  match goal with
  | |- match ?c with _ => _ end = true => destruct c eqn:E
  end; try reflexivity.
  apply Qgt_alt in E. apply Qle_not_lt in Hle. contradiction.
Qed.

End Search.

Example workspaceSymbolSearch_limit_two :
  option_map (List.map f_file)
    (match workspaceSymbolSearch id (fun _ => "Function") "/proj"
             (sampleOptions 2) sampleResponse with
     | inr (Found 3 2 true _ false None symbols) => Some symbols
     | _ => None
     end)
  = Some ["/proj/a.cpp"; "/proj/c.cpp"].
Proof. reflexivity. Qed.

Example workspaceSymbolSearch_nothing_found :
  workspaceSymbolSearch id (fun _ => "Function") "/other" (sampleOptions 2)
    sampleResponse
  = inr (NotFound "No symbols found matching 'f' in project '/other'").
Proof. reflexivity. Qed.

(** The relative path is what follows the code units of the project root
    and one more: with the project root [/日] (two units), exclude path
    [X/] keeps [/abcdX/q.c] and drops [/abX/q.c]. *)
Example excludedBy_counts_code_units :
  excludedBy "/日" "/abcdX/q.c" "X/" = false
  /\ excludedBy "/日" "/abX/q.c" "X/" = true.
Proof. split; reflexivity. Qed.

(** Outside what the tool handler passes: called directly with a limit of
    minus one, [slice(0, -1)] drops the last of the three surviving
    symbols. *)
Example workspaceSymbolSearch_limit_minus_one :
  option_map (List.map f_file)
    (match workspaceSymbolSearch id (fun _ => "Function") "/proj"
             (sampleOptions (-1)) sampleResponse with
     | inr (Found 3 2 true _ false None symbols) => Some symbols
     | _ => None
     end)
  = Some ["/proj/a.cpp"; "/proj/c.cpp"].
Proof. reflexivity. Qed.

(** The payload for every limit. A rejected request is rethrown unchanged.
    Otherwise: unless [includeExternal] is true, every returned symbol's
    file path starts with the project root; when the limit (default 100) is
    not negative, at most that many symbols are returned; a [found: true]
    payload reports the number of symbols that survived the filters, the
    number returned, and [truncated] exactly when the survivors outnumber
    the limit; and the payload is [found: false] with a message exactly
    when no symbol survives the filters. *)
Lemma workspaceSymbolSearch_payload
  (uriToPath : string -> string) (kindName : JsValue -> string)
  (projectRoot : string) (options : WorkspaceSymbolOptions)
  (response : Thrown + option (list SymbolInformation)) :
  match response,
        workspaceSymbolSearch uriToPath kindName projectRoot options response
  with
  | inl e, out => out = inl e
  | inr _, inl _ => False
  | inr result, inr r =>
      let kept := survivors uriToPath projectRoot options result in
      (includeExternal options <> Some true ->
         forall s, In s (symbolsOf r) ->
           startsWith (f_file s) projectRoot = true)
      /\ (le zero (limitOf options) = true -> withinLimit options r)
      /\ (limit options = None -> length (symbolsOf r) <= 100)
      /\ (forall count returned truncated root ext excl symbols,
            r = Found count returned truncated root ext excl symbols ->
            count = length kept
            /\ returned = length symbols
            /\ truncated = gt (ofNat (length kept)) (limitOf options))
      /\ (kept = [] <-> exists message, r = NotFound message)
  end.
Proof.
  destruct response as [e | result]; [reflexivity|].
  cbn [workspaceSymbolSearch]. cbv zeta.
  unfold formatResponse, withinLimit, survivors, limitOf.
  set (lim := match limit options with Some n => n | None => ofZ 100 end).
  set (ext := match includeExternal options with Some b => b | None => false end).
  set (excl := match excludePaths options with Some l => l | None => [] end).
  remember (filterSymbols uriToPath projectRoot ext excl
              match result with Some l => l | None => [] end) as kept eqn:Hkept.
  assert (Hbound : le zero lim = true ->
            le (ofNat (length (List.map (format uriToPath kindName)
                                 (sliceTo kept lim)))) lim = true).
  { intros Hlim. rewrite length_map. now apply sliceTo_length_le. }
  destruct kept as [|sym kept']; cbn [symbolsOf].
  - repeat split.
    + intros _ s [].
    + intros Hlim. exact Hlim.
    + intros _. cbn. lia.
    + discriminate.
    + discriminate.
    + discriminate.
    + intros _. eauto.
  - repeat split.
    + intros Hext s Hin. apply in_map_iff in Hin as (x & <- & Hx).
      apply sliceTo_incl in Hx. cbn [f_file format].
      assert (ext = false) as Hfalse.
      { subst ext. destruct (includeExternal options) as [[|]|]; congruence. }
      rewrite Hfalse in Hkept.
      apply (filterSymbols_inProject uriToPath projectRoot excl
               match result with Some l => l | None => [] end).
      rewrite <- Hkept. exact Hx.
    + exact Hbound.
    + intros Hnone. subst lim. rewrite Hnone in Hbound.
      specialize (Hbound eq_refl). apply le_ofNat_ofZ in Hbound.
      rewrite Hnone. lia.
    + now inversion H.
    + inversion H. now rewrite length_map.
    + now inversion H.
    + discriminate.
    + intros (message & Hm). discriminate.
Qed.

(** C9. With the limit the tool handler passes, a positive whole number
    or the default 100, and more generally with every limit that is not
    negative, [workspaceSymbolSearch] returns a payload for every response
    of the server, and of that payload: unless [includeExternal] is true,
    every returned symbol's file path starts with the project root; at most
    [limit] symbols are returned (at most 100 when no limit is given); a
    [found: true] payload reports the number of symbols that survived the
    filters, the number returned, and [truncated] exactly when the
    survivors outnumber the limit; and the payload is [found: false] with a
    message, not an empty symbol list, exactly when no symbol survives the
    filters. *)
Theorem workspaceSymbolSearch_postconditions
  (uriToPath : string -> string) (kindName : JsValue -> string)
  (projectRoot : string) (options : WorkspaceSymbolOptions)
  (result : option (list SymbolInformation)) :
  le zero (limitOf options) = true ->
  let kept := survivors uriToPath projectRoot options result in
  exists r,
    workspaceSymbolSearch uriToPath kindName projectRoot options (inr result)
    = inr r
    /\ (includeExternal options <> Some true ->
          forall s, In s (symbolsOf r) ->
            startsWith (f_file s) projectRoot = true)
    /\ withinLimit options r
    /\ (limit options = None -> length (symbolsOf r) <= 100)
    /\ (forall count returned truncated root ext excl symbols,
          r = Found count returned truncated root ext excl symbols ->
          count = length kept
          /\ returned = length symbols
          /\ truncated = gt (ofNat (length kept)) (limitOf options))
    /\ (kept = [] <-> exists message, r = NotFound message).
Proof.
  intros Hlimit kept.
  pose proof (workspaceSymbolSearch_payload uriToPath kindName projectRoot
                options (inr result)) as Hpayload.
  cbn [workspaceSymbolSearch] in *. cbv zeta in Hpayload. fold kept in Hpayload.
  destruct Hpayload as (Hroot & Hbound & Hdefault & Hfields & Hnone).
  eexists. split; [reflexivity|].
  split; [exact Hroot|]. split; [exact (Hbound Hlimit)|].
  split; [exact Hdefault|]. split; [exact Hfields | exact Hnone].
Qed.

(** The theorem at the sample response with a limit of two. *)
Lemma workspaceSymbolSearch_postconditions_witness :
  exists r,
    workspaceSymbolSearch id (fun _ => "Function") "/proj" (sampleOptions 2)
      sampleResponse
    = inr r
    /\ withinLimit (sampleOptions 2) r.
Proof.
  destruct (workspaceSymbolSearch_postconditions id (fun _ => "Function")
              "/proj" (sampleOptions 2)
              (Some [sampleSymbol "/proj/a.cpp"; sampleSymbol "/usr/include/b.h";
                     sampleSymbol "/proj/c.cpp"; sampleSymbol "/proj/d.cpp"])
              eq_refl)
    as (r & Hr & _ & Hlim & _).
  exists r. split; [exact Hr | exact Hlim].
Defined.

(** *** Exclusions, order and truncation *)

Lemma filterSymbols_notExcluded uriToPath projectRoot ext excl symbols sym exc :
  In sym (filterSymbols uriToPath projectRoot ext excl symbols) ->
  In exc excl ->
  excludedBy projectRoot (uriToPath (location_uri sym)) exc = false.
Proof.
  unfold filterSymbols. intros Hin Hexc.
  destruct excl as [|e excl]; [destruct Hexc|].
  cbn [length Nat.ltb Nat.leb] in Hin.
  apply filter_In in Hin as [_ Hkeep]. unfold notExcluded in Hkeep.
  apply negb_true_iff in Hkeep.
  destruct (excludedBy _ _ exc) eqn:E; [|reflexivity].
  assert (existsb (excludedBy projectRoot (uriToPath (location_uri sym)))
            (e :: excl) = true); [|congruence].
  apply existsb_exists. eauto.
Qed.

Lemma symbolsOf_formatResponse uriToPath kindName projectRoot options symbols :
  symbolsOf (formatResponse uriToPath kindName projectRoot options symbols)
  = List.map (format uriToPath kindName)
      (sliceTo (filterSymbols uriToPath projectRoot
                  (match includeExternal options with Some b => b | None => false end)
                  (excludesOf options) symbols)
         (limitOf options)).
Proof.
  unfold formatResponse, excludesOf, limitOf.
  destruct (filterSymbols _ _ _ _ symbols) eqn:E; [|reflexivity].
  cbn. unfold sliceTo. now rewrite firstn_nil.
Qed.

(** X10. No symbol [workspaceSymbolSearch] returns lies under an exclude
    path of the options: its file path does not start with an exclude path
    that starts with [/], and for any other exclude path its remainder after
    as many UTF-16 code units as the project root has and one more neither
    starts with the exclude path nor contains it after a slash, so for a
    project root of ASCII characters the file path is never the project
    root, one ASCII character and the exclude path followed by anything. *)
Theorem workspaceSymbolSearch_respects_exclusions
  (uriToPath : string -> string) (kindName : JsValue -> string)
  (projectRoot : string) (options : WorkspaceSymbolOptions)
  (result : option (list SymbolInformation)) (r : SearchResult) :
  workspaceSymbolSearch uriToPath kindName projectRoot options (inr result)
  = inr r ->
  forall s exc,
    In s (symbolsOf r) -> In exc (excludesOf options) ->
    excludedBy projectRoot (f_file s) exc = false
    /\ (startsWith exc "/" = true -> startsWith (f_file s) exc = false)
    /\ (startsWith exc "/" = false -> asciiOnly projectRoot = true ->
        forall sep rest, isAscii sep = true ->
          f_file s <> projectRoot +:+ String sep (exc +:+ rest)).
Proof.
  cbn [workspaceSymbolSearch]. intros [= <-] s exc Hs Hexc.
  rewrite symbolsOf_formatResponse in Hs.
  apply in_map_iff in Hs as (sym & <- & Hsym). apply sliceTo_incl in Hsym.
  cbn [f_file format].
  pose proof (filterSymbols_notExcluded _ _ _ _ _ _ _ Hsym Hexc) as Hnot.
  split; [exact Hnot|]. unfold excludedBy in Hnot. split.
  - intros Habs. now rewrite Habs in Hnot.
  - intros Hrel Hascii sep rest Hsep Heq. rewrite Hrel, Heq in Hnot.
    rewrite slice_past_separator in Hnot by assumption.
    rewrite startsWith_app in Hnot. discriminate.
Qed.

(** The theorem at a response with one file under [third_party/] and one
    outside it. *)
Lemma workspaceSymbolSearch_respects_exclusions_witness :
  excludedBy "/proj" "/proj/a.cpp" "third_party/" = false
  /\ (startsWith "third_party/" "/" = true ->
      startsWith "/proj/a.cpp" "third_party/" = false)
  /\ (startsWith "third_party/" "/" = false -> asciiOnly "/proj" = true ->
      forall sep rest, isAscii sep = true ->
        "/proj/a.cpp" <> "/proj" +:+ String sep ("third_party/" +:+ rest)).
Proof.
  pose (options := {| query := "f"; limit := None; includeExternal := None;
                      excludePaths := Some ["third_party/"] |}).
  pose (result := Some [sampleSymbol "/proj/third_party/x.h";
                        sampleSymbol "/proj/a.cpp"]).
  apply (workspaceSymbolSearch_respects_exclusions id (fun _ => "Function")
           "/proj" options result
           (formatResponse id (fun _ => "Function") "/proj" options
              [sampleSymbol "/proj/third_party/x.h"; sampleSymbol "/proj/a.cpp"])
           eq_refl
           (format id (fun _ => "Function") (sampleSymbol "/proj/a.cpp"))
           "third_party/").
  - vm_compute. left. reflexivity.
  - vm_compute. left. reflexivity.
Defined.

Lemma sliceEnd_ofNat (len n : nat) : sliceEnd len (ofNat n) = Nat.min n len.
Proof.
  unfold sliceEnd, ofNat, ofZ, inject_Z. cbn [Qnum Qden].
  rewrite Z.quot_1_r.
  destruct (Z.ltb_spec (Z.of_nat n) 0); lia.
Qed.

Lemma sliceEnd_le (len : nat) (n : JsNumber) : sliceEnd len n <= len.
Proof.
  unfold sliceEnd. destruct n as [| | |q]; try lia.
  destruct (Z.quot (Qnum q) (Zpos (Qden q)) <? 0)%Z eqn:E; [|lia].
  apply Z.ltb_lt in E. lia.
Qed.

(** Fewer elements are taken than there are exactly when the end index is
    below the length. *)
Lemma sliceEnd_short (len : nat) (n : JsNumber) :
  0 < len -> n <> JNaN ->
  (sliceEnd len n < len <-> lt n (ofNat len) = true).
Proof.
  intros Hlen Hnan. destruct n as [| | |q]; [congruence | | |].
  - cbn. split; [lia | discriminate].
  - cbn. split; [reflexivity | lia].
  - unfold sliceEnd, lt, ofNat, ofZ.
    destruct q as [num den]. cbn [Qnum Qden].
    unfold Qcompare, inject_Z. cbn [Qnum Qden]. rewrite Z.mul_1_r.
    destruct (Z.lt_ge_cases num 0) as [Hneg | Hpos].
    + assert (Hk : (Z.quot num (Zpos den) <= 0)%Z).
      { apply Z.quot_le_upper_bound; lia. }
      assert (Hlt : (num < Z.of_nat len * Zpos den)%Z) by nia.
      apply Z.compare_lt_iff in Hlt. rewrite Hlt.
      split; [reflexivity | intros _].
      destruct (Z.ltb_spec (Z.quot num (Zpos den)) 0); lia.
    + rewrite Z.quot_div_nonneg by lia.
      assert (Hk : (0 <= num / Zpos den)%Z) by (apply Z.div_pos; lia).
      destruct (Z.ltb_spec (num / Zpos den) 0); [lia|].
      split.
      * intros Hshort.
        assert (Hdiv : (num / Zpos den < Z.of_nat len)%Z) by lia.
        assert (Hlt : (num < Z.of_nat len * Zpos den)%Z).
        { destruct (Z.lt_ge_cases num (Z.of_nat len * Zpos den)) as [Hb | Hb];
            [exact Hb|].
          assert (Z.of_nat len <= num / Zpos den)%Z
            by (apply Z.div_le_lower_bound; lia).
          lia. }
        apply Z.compare_lt_iff in Hlt. now rewrite Hlt.
      * intros Hcmp.
        destruct (num ?= Z.of_nat len * Zpos den)%Z eqn:E; try discriminate.
        apply Z.compare_lt_iff in E.
        assert (Hdiv : (num / Zpos den < Z.of_nat len)%Z).
        { apply Z.div_lt_upper_bound; [lia|]. rewrite Z.mul_comm. exact E. }
        lia.
Qed.

(** X11. For a limit that is a whole number (100 when none is given),
    [workspaceSymbolSearch] returns the symbols that survive the filters in
    the order of the response, cut after the first [limit] of them: the
    number returned is the smaller of the limit and the number of
    survivors. *)
Theorem workspaceSymbolSearch_returns_the_first_survivors
  (uriToPath : string -> string) (kindName : JsValue -> string)
  (projectRoot : string) (query : string) (limit : option nat)
  (includeExternal : option bool) (excludePaths : option (list string))
  (result : option (list SymbolInformation)) :
  let options :=
    {| WorkspaceSymbol.query := query;
       WorkspaceSymbol.limit := option_map ofNat limit;
       WorkspaceSymbol.includeExternal := includeExternal;
       WorkspaceSymbol.excludePaths := excludePaths |} in
  let wanted := match limit with Some n => n | None => 100 end in
  let kept := survivors uriToPath projectRoot options result in
  exists r,
    workspaceSymbolSearch uriToPath kindName projectRoot options (inr result)
    = inr r
    /\ symbolsOf r = List.map (format uriToPath kindName) (firstn wanted kept)
    /\ length (symbolsOf r) = Nat.min wanted (length kept).
Proof.
  intros options wanted kept. cbn [workspaceSymbolSearch].
  eexists. split; [reflexivity|].
  rewrite symbolsOf_formatResponse.
  assert (Hlimit : limitOf options = ofNat wanted) by now destruct limit.
  rewrite Hlimit. unfold sliceTo. rewrite sliceEnd_ofNat.
  fold kept.
  assert (Hsame : firstn (Nat.min wanted (length kept)) kept = firstn wanted kept).
  { destruct (Nat.le_ge_cases wanted (length kept)) as [H | H].
    - now rewrite Nat.min_l.
    - rewrite Nat.min_r, firstn_all, firstn_all2 by lia. reflexivity. }
  change (filterSymbols uriToPath projectRoot
            match WorkspaceSymbol.includeExternal options with
            | Some b => b | None => false end
            (excludesOf options)
            match result with Some l => l | None => [] end) with kept.
  rewrite Hsame. split; [reflexivity|].
  rewrite length_map, length_firstn. reflexivity.
Qed.

(** X12. For every limit that is not NaN, whole or not, negative or not,
    a [found: true] payload has [truncated] set exactly when fewer symbols
    are returned than survived the filters; [returned] is the number of
    symbols in the payload and never exceeds [count]. *)
Theorem workspaceSymbolSearch_truncated_iff_fewer_returned
  (uriToPath : string -> string) (kindName : JsValue -> string)
  (projectRoot : string) (options : WorkspaceSymbolOptions)
  (result : option (list SymbolInformation))
  (count returned : nat) (truncated : bool) (root : string) (ext : bool)
  (excl : option (list string)) (symbols : list FormattedSymbol) :
  limitOf options <> JNaN ->
  workspaceSymbolSearch uriToPath kindName projectRoot options (inr result)
  = inr (Found count returned truncated root ext excl symbols) ->
  (truncated = true <-> returned < count)
  /\ returned = length symbols
  /\ returned <= count.
Proof.
  intros Hnan. cbn [workspaceSymbolSearch]. unfold formatResponse.
  fold (limitOf options).
  destruct (filterSymbols _ _ _ _ _) as [|sym kept'] eqn:Hkept; [discriminate|].
  intros [= <- <- <- _ _ _ <-].
  rewrite !length_map. unfold sliceTo. rewrite length_firstn.
  pose proof (sliceEnd_le (length (sym :: kept')) (limitOf options)) as Hle.
  rewrite Nat.min_l by exact Hle.
  split; [|split; [reflexivity | exact Hle]].
  unfold gt. symmetry. apply sliceEnd_short; [cbn; lia | exact Hnan].
Qed.

(** The theorem at a limit of two and three surviving symbols. *)
Lemma workspaceSymbolSearch_truncated_iff_fewer_returned_witness :
  (true = true <-> 2 < 3) /\ 2 = 2 /\ 2 <= 3.
Proof.
  apply (workspaceSymbolSearch_truncated_iff_fewer_returned id
           (fun _ => "Function") "/proj" (sampleOptions 2)
           (Some [sampleSymbol "/proj/a.cpp"; sampleSymbol "/usr/include/b.h";
                  sampleSymbol "/proj/c.cpp"; sampleSymbol "/proj/d.cpp"])
           3 2 true "/proj" false None
           (List.map (format id (fun _ => "Function"))
              [sampleSymbol "/proj/a.cpp"; sampleSymbol "/proj/c.cpp"])).
  - discriminate.
  - reflexivity.
Defined.

End WorkspaceSymbol.

(** ** src/index.ts: argument validation and the tool-call handler *)

Module ToolCall.
Import JsString Js.

(** An awaited computation over the server state [W]: it settles to a value
    or to a thrown value, and leaves a state behind. *)
Definition M (W A : Type) : Type := W -> (Thrown + A) * W.

Definition ret {W A : Type} (a : A) : M W A := fun w => (inr a, w).

Definition bind {W A B : Type} (m : M W A) (k : A -> M W B) : M W B :=
  fun w =>
    match m w with
    | (inr a, w') => k a w'
    | (inl e, w') => (inl e, w')
    end.

(** [throw new Error(message)] *)
Definition throwError {W A : Type} (message : string) : M W A :=
  fun w => (inl (ErrorObject message), w).

(** [try { body } catch (error) { handler(error) }] *)
Definition tryCatch {W A : Type} (body : M W A) (handler : Thrown -> M W A)
  : M W A :=
  fun w =>
    match body w with
    | (inr a, w') => (inr a, w')
    | (inl e, w') => handler e w'
    end.

(** A synchronous function that may throw, run inside an awaited one. *)
Definition lift {W A : Type} (r : Thrown + A) : M W A := fun w => (r, w).

Notation "'let*' x := m 'in' k" := (bind m (fun x => k))
  (at level 10, x name, m at level 100, k at level 200).

Definition invalid (message : string) : Thrown + unit :=
  inl (ErrorObject message).

(** [typeof v !== 'number' || !Number.isInteger(v) || v < 0] *)
Definition notNonNegativeInteger (v : JsValue) : bool :=
  match v with
  | JNumber n => negb (isInteger n) || lt n zero
  | _ => true
  end.

(** [typeof v !== 'number' || !Number.isInteger(v) || v <= 0] *)
Definition notPositiveInteger (v : JsValue) : bool :=
  match v with
  | JNumber n => negb (isInteger n) || le n zero
  | _ => true
  end.

(** [v !== undefined && typeof v !== 'boolean'] *)
Definition definedNotBoolean (v : JsValue) : bool :=
  negb (isUndefined v) && negb (isBoolean v).

(** The checks shared by the tools that take a position. *)
Definition validatePosition (args : JsValue) : Thrown + unit :=
  if negb (isString (get args "file_path")) then
    invalid "Invalid file_path: must be a string"
  else if notNonNegativeInteger (get args "line") then
    invalid "Invalid line: must be a non-negative integer"
  else if notNonNegativeInteger (get args "column") then
    invalid "Invalid column: must be a non-negative integer"
  else inr tt.

Definition positionTools : list string :=
  ["find_definition"; "find_references"; "get_hover"; "find_implementations"].

Definition hierarchyTools : list string :=
  ["get_call_hierarchy"; "get_type_hierarchy"].

Definition named (name : string) (names : list string) : bool :=
  existsb (String.eqb name) names.

Definition validateToolArgs (name : string) (args : JsValue) : Thrown + unit :=
  if negb (truthy args) || negb (isObjectType args) then
    invalid "Invalid arguments: must be an object"
  else if named name positionTools then
    match validatePosition args with
    | inl e => inl e
    | inr _ =>
        if String.eqb name "find_references"
           && definedNotBoolean (get args "include_declaration")
        then invalid "Invalid include_declaration: must be a boolean"
        else inr tt
    end
  else if String.eqb name "workspace_symbol_search" then
    if negb (isString (get args "query")) then
      invalid "Invalid query: must be a string"
    else if negb (isUndefined (get args "limit"))
            && notPositiveInteger (get args "limit") then
      invalid "Invalid limit: must be a positive integer"
    else if definedNotBoolean (get args "include_external") then
      invalid "Invalid include_external: must be a boolean"
    else if negb (isUndefined (get args "exclude_paths"))
            && negb (isArray (get args "exclude_paths")) then
      invalid "Invalid exclude_paths: must be an array of strings"
    else inr tt
  else if String.eqb name "get_document_symbols" then
    if negb (isString (get args "file_path")) then
      invalid "Invalid file_path: must be a string"
    else inr tt
  else if String.eqb name "get_diagnostics" then
    if negb (isString (get args "file_path")) then
      invalid "Invalid file_path: must be a string"
    else if definedNotBoolean (get args "force_refresh") then
      invalid "Invalid force_refresh: must be a boolean"
    else inr tt
  else if named name hierarchyTools then validatePosition args
  else inr tt.

(** [request.params] of a [tools/call] request; [arguments] is
    [JUndefined] when the caller sent none. *)
Record Request := {
  name : string;
  arguments : JsValue;
}.

(** The handler's return value; [isError] is absent on success. *)
Record CallToolResult := {
  text : string;
  isError : bool;
}.

(** An awaited tool: it settles to the text it formatted, or rejects. *)
Definition Tool (W : Type) : Type := M W string.

(** What the handler reaches outside itself: the lazy initializer (its
    state machine is [LazyInit] below), the globals it tests, the tools of
    src/tools, and two functions of the JavaScript runtime. *)
Record Host (W : Type) := {
  ensureClangdInitialized : M W unit;
  (** [clangdManager && fileTracker] *)
  managerAndTracker : W -> bool;
  (** [diagnosticsCache] is set *)
  hasDiagnosticsCache : W -> bool;
  projectRoot : W -> string;
  findDefinition : JsValue -> JsValue -> JsValue -> Tool W;
  findReferences : JsValue -> JsValue -> JsValue -> bool -> Tool W;
  getHover : JsValue -> JsValue -> JsValue -> Tool W;
  (** project root, then [query], [limit], [includeExternal],
      [excludePaths] of the options *)
  workspaceSymbolSearch :
    string -> JsValue -> JsValue -> JsValue -> JsValue -> Tool W;
  findImplementations : JsValue -> JsValue -> JsValue -> Tool W;
  getDocumentSymbols : JsValue -> Tool W;
  getDiagnostics : JsValue -> bool -> Tool W;
  getCallHierarchy : JsValue -> JsValue -> JsValue -> Tool W;
  getTypeHierarchy : JsValue -> JsValue -> JsValue -> Tool W;
  JSON_stringify : JsValue -> string;
  (** [String(value)] *)
  toString : JsValue -> string;
}.

Arguments ensureClangdInitialized {W}.
Arguments managerAndTracker {W}.
Arguments hasDiagnosticsCache {W}.
Arguments projectRoot {W}.
Arguments findDefinition {W}.
Arguments findReferences {W}.
Arguments getHover {W}.
Arguments workspaceSymbolSearch {W}.
Arguments findImplementations {W}.
Arguments getDocumentSymbols {W}.
Arguments getDiagnostics {W}.
Arguments getCallHierarchy {W}.
Arguments getTypeHierarchy {W}.
Arguments JSON_stringify {W}.
Arguments toString {W}.

(** One tool of the [tools/list] response: its name and, of its
    [inputSchema], the properties with their types and the required
    properties. *)
Record ToolSchema := {
  tool_name : string;
  properties : list (string * string);
  required : list string;
}.

Definition positionSchema (name : string) : ToolSchema :=
  {| tool_name := name;
     properties := [("file_path", "string"); ("line", "number");
                    ("column", "number")];
     required := ["file_path"; "line"; "column"] |}.

(** The tools the [ListToolsRequestSchema] handler returns. *)
Definition listTools : list ToolSchema :=
  [positionSchema "find_definition";
   {| tool_name := "find_references";
      properties := [("file_path", "string"); ("line", "number");
                     ("column", "number"); ("include_declaration", "boolean")];
      required := ["file_path"; "line"; "column"] |};
   positionSchema "get_hover";
   {| tool_name := "workspace_symbol_search";
      properties := [("query", "string"); ("limit", "number");
                     ("include_external", "boolean"); ("exclude_paths", "array")];
      required := ["query"] |};
   positionSchema "find_implementations";
   {| tool_name := "get_document_symbols";
      properties := [("file_path", "string")];
      required := ["file_path"] |};
   {| tool_name := "get_diagnostics";
      properties := [("file_path", "string"); ("force_refresh", "boolean")];
      required := ["file_path"] |};
   positionSchema "get_call_hierarchy";
   positionSchema "get_type_hierarchy"].

(** The JSON Schema type of a value. *)
Definition jsonType (v : JsValue) : string :=
  match v with
  | JUndefined => "undefined"
  | JNull => "null"
  | JBool _ => "boolean"
  | JNumber _ => "number"
  | JString _ => "string"
  | JArray _ => "array"
  | JObject _ => "object"
  end.

(** [v] is absent, or a whole number that is at least [least]. *)
Definition wholeFrom (least : Z) (v : JsValue) : Prop :=
  match v with
  | JUndefined => True
  | JNumber n => isInteger n = true /\ lt n (ofZ least) = false
  | _ => False
  end.

(** The least value the descriptions of the schemas give a numeric
    property: [line] and [column] are 0-indexed, [limit] is a number of
    results. *)
Definition leastOf (field : string) : option Z :=
  if String.eqb field "line" || String.eqb field "column" then Some 0%Z
  else if String.eqb field "limit" then Some 1%Z
  else None.

(** The arguments are an object that has every required property of the
    schema, and each property the schema lists is, when present, of the
    listed type and, when it is [line], [column] or [limit], a whole number
    from its least value. Nothing is asked of a property the schema does
    not list. *)
Definition conforms (schema : ToolSchema) (args : JsValue) : Prop :=
  truthy args = true /\ isObjectType args = true
  /\ (forall field, In field (required schema) -> get args field <> JUndefined)
  /\ (forall field type,
        In (field, type) (properties schema) ->
        get args field <> JUndefined -> jsonType (get args field) = type)
  /\ (forall field type least,
        In (field, type) (properties schema) -> leastOf field = Some least ->
        wholeFrom least (get args field)).

(** A host that records what the handler reaches: initialization attempts
    and the tool requests that would go to the subprocess. *)
Definition recordingTool (label : string) (fails : bool) : Tool (list string) :=
  fun log =>
    (if fails then inl (ErrorObject (label +:+ " failed")) else inr label,
     log ++ [label]).

Definition recordingHost (fails : bool) : Host (list string) :=
  {| ensureClangdInitialized := fun log => (inr tt, log ++ ["initialize"]);
     managerAndTracker := fun _ => true;
     hasDiagnosticsCache := fun _ => true;
     projectRoot := fun _ => "/proj";
     findDefinition := fun _ _ _ => recordingTool "textDocument/definition" fails;
     findReferences := fun _ _ _ _ => recordingTool "textDocument/references" fails;
     getHover := fun _ _ _ => recordingTool "textDocument/hover" fails;
     workspaceSymbolSearch := fun _ _ _ _ _ => recordingTool "workspace/symbol" fails;
     findImplementations := fun _ _ _ => recordingTool "textDocument/implementation" fails;
     getDocumentSymbols := fun _ => recordingTool "textDocument/documentSymbol" fails;
     getDiagnostics := fun _ _ => recordingTool "diagnostics" fails;
     getCallHierarchy := fun _ _ _ => recordingTool "textDocument/prepareCallHierarchy" fails;
     getTypeHierarchy := fun _ _ _ => recordingTool "textDocument/prepareTypeHierarchy" fails;
     JSON_stringify := fun v =>
       match get v "message" with JString m => "error: " +:+ m | _ => "?" end;
     toString := fun _ => "value" |}.

Definition positionArgs (line column : Z) : JsValue :=
  JObject [("file_path", JString "/proj/a.cpp");
           ("line", JNumber (ofZ line)); ("column", JNumber (ofZ column))].

Section Handler.
Context {W : Type} (host : Host W).

Definition success (result : string) : CallToolResult :=
  {| text := result; isError := false |}.

(** [error instanceof Error ? error.message : String(error)] *)
Definition messageOf (error : Thrown) : string :=
  match error with
  | ErrorObject message => message
  | OtherValue v => toString host v
  end.

(** The value the [catch] block returns. *)
Definition failure (error : Thrown) : CallToolResult :=
  {| text := JSON_stringify host
               (JObject [("error", JBool true);
                         ("message", JString (messageOf error))]);
     isError := true |}.

(** [a || b] on values *)
Definition orElse (a b : JsValue) : JsValue := if truthy a then a else b.

(** [v !== false] *)
Definition notFalse (v : JsValue) : bool :=
  match v with JBool false => false | _ => true end.

(** [v === true] *)
Definition isTrue (v : JsValue) : bool :=
  match v with JBool true => true | _ => false end.

(** The [switch (name)] of the handler. *)
Definition dispatch (name : string) (args : JsValue) : M W string :=
  let file_path := get args "file_path" in
  let line := get args "line" in
  let column := get args "column" in
  if String.eqb name "find_definition" then
    findDefinition host file_path line column
  else if String.eqb name "find_references" then
    findReferences host file_path line column
      (notFalse (get args "include_declaration"))
  else if String.eqb name "get_hover" then
    getHover host file_path line column
  else if String.eqb name "workspace_symbol_search" then
    fun w =>
      workspaceSymbolSearch host (projectRoot host w)
        (get args "query")
        (orElse (get args "limit") (JNumber (ofZ 100)))
        (get args "include_external")
        (get args "exclude_paths") w
  else if String.eqb name "find_implementations" then
    findImplementations host file_path line column
  else if String.eqb name "get_document_symbols" then
    getDocumentSymbols host file_path
  else if String.eqb name "get_diagnostics" then
    fun w =>
      if negb (hasDiagnosticsCache host w) then
        throwError "Diagnostics cache not initialized" w
      else getDiagnostics host file_path (isTrue (get args "force_refresh")) w
  else if String.eqb name "get_call_hierarchy" then
    getCallHierarchy host file_path line column
  else if String.eqb name "get_type_hierarchy" then
    getTypeHierarchy host file_path line column
  else throwError ("Unknown tool: " +:+ name).

(** The two checks that come before initialization. *)
Definition checkArguments (request : Request) : Thrown + unit :=
  if negb (truthy (arguments request)) then
    invalid "Missing arguments for tool call"
  else validateToolArgs (name request) (arguments request).

(** The body of the [try] block. *)
Definition callTool (request : Request) : M W CallToolResult :=
  let* _ := lift (checkArguments request) in
  let* _ := ensureClangdInitialized host in
  let* _ := (fun w =>
               if negb (managerAndTracker host w)
               then throwError "Clangd not initialized" w
               else ret tt w) in
  let* result := dispatch (name request) (arguments request) in
  ret (success result).

(** The [CallToolRequestSchema] handler. *)
Definition handleCallTool (request : Request) : M W CallToolResult :=
  tryCatch (callTool request) (fun error => ret (failure error)).



Lemma handleCallTool_settles request w :
  handleCallTool request w =
  match callTool request w with
  | (inr r, w') => (inr r, w')
  | (inl e, w') => (inr (failure e), w')
  end.
Proof.
  unfold handleCallTool, tryCatch, ret.
  now destruct (callTool request w) as [[e|r] w'].
Qed.


End Handler.

Example valid_call_reaches_the_subprocess :
  handleCallTool (recordingHost false)
    {| name := "get_hover"; arguments := positionArgs 3 7 |} []
  = (inr {| text := "textDocument/hover"; isError := false |},
     ["initialize"; "textDocument/hover"]).
Proof. reflexivity. Qed.

Example failing_tool_is_reported :
  handleCallTool (recordingHost true)
    {| name := "get_hover"; arguments := positionArgs 3 7 |} []
  = (inr {| text := "error: textDocument/hover failed"; isError := true |},
     ["initialize"; "textDocument/hover"]).
Proof. reflexivity. Qed.

Example unknown_tool_is_reported :
  fst (handleCallTool (recordingHost false)
         {| name := "rename"; arguments := positionArgs 3 7 |} [])
  = inr {| text := "error: Unknown tool: rename"; isError := true |}.
Proof. reflexivity. Qed.

(** The kinds of invalid arguments the specification lists are rejected. *)
Lemma checkArguments_rejects_non_objects name args :
  isObjectType args = false \/ truthy args = false ->
  exists e, checkArguments {| name := name; arguments := args |} = inl e.
Proof.
  unfold checkArguments, validateToolArgs. cbn [arguments ToolCall.name].
  intros [H | H]; rewrite H.
  - destruct (truthy args); cbn; eauto.
  - cbn. eauto.
Qed.

Lemma validatePosition_rejects_negative args (field : string) n :
  field = "line" \/ field = "column" ->
  get args field = JNumber n -> lt n zero = true ->
  exists e, validatePosition args = inl e.
Proof.
  unfold validatePosition, invalid. intros Hfield Hget Hneg.
  destruct (isString (get args "file_path")); cbn [negb]; eauto.
  destruct Hfield as [-> | ->]; rewrite Hget; cbn [notNonNegativeInteger];
    rewrite Hneg, ?orb_true_r; eauto.
  destruct (notNonNegativeInteger (get args "line")); eauto.
Qed.

Lemma validateToolArgs_rejects_negative_position name args (field : string) n :
  named name (positionTools ++ hierarchyTools) = true ->
  field = "line" \/ field = "column" ->
  get args field = JNumber n -> lt n zero = true ->
  exists e, validateToolArgs name args = inl e.
Proof.
  intros Hname Hfield Hget Hneg.
  destruct (validatePosition_rejects_negative args field n Hfield Hget Hneg)
    as [e He].
  unfold validateToolArgs, invalid.
  destruct (negb (truthy args) || negb (isObjectType args)); eauto.
  unfold named in Hname. rewrite existsb_app in Hname.
  fold (named name positionTools) in Hname.
  fold (named name hierarchyTools) in Hname.
  destruct (named name positionTools) eqn:Hp.
  - rewrite He. eauto.
  - rewrite orb_false_l in Hname. unfold named in Hname.
    apply existsb_exists in Hname as (s & Hs & Heq).
    apply String.eqb_eq in Heq. subst s.
    destruct Hs as [<- | [<- | []]]; cbn; rewrite He; eauto.
Qed.

Lemma validateToolArgs_rejects_wrong_file_path name args :
  named name (positionTools ++ hierarchyTools
              ++ ["get_document_symbols"; "get_diagnostics"]) = true ->
  isString (get args "file_path") = false ->
  exists e, validateToolArgs name args = inl e.
Proof.
  intros Hname Hfile. unfold validateToolArgs, validatePosition, invalid.
  destruct (negb (truthy args) || negb (isObjectType args)); eauto.
  rewrite Hfile. cbn [negb].
  unfold named in Hname. apply existsb_exists in Hname as (s & Hs & Heq).
  apply String.eqb_eq in Heq. subst s.
  cbn in Hs.
  repeat (destruct Hs as [<- | Hs]; [cbn; eauto|]). destruct Hs.
Qed.

Lemma validateToolArgs_rejects_non_positive_limit args n :
  get args "limit" = JNumber n -> le n zero = true ->
  exists e, validateToolArgs "workspace_symbol_search" args = inl e.
Proof.
  intros Hget Hle. unfold validateToolArgs, invalid.
  destruct (negb (truthy args) || negb (isObjectType args)); eauto.
  cbn [named positionTools existsb String.eqb Ascii.eqb Bool.eqb orb].
  cbn. destruct (isString (get args "query")); cbn [negb]; eauto.
  rewrite Hget. cbn [isUndefined negb andb notPositiveInteger].
  rewrite Hle, orb_true_r. eauto.
Qed.

(** The limit the handler passes to [workspaceSymbolSearch] once the
    arguments are validated is a positive number: the caller's positive
    integer, or 100. *)
Lemma validated_limit_is_positive args :
  validateToolArgs "workspace_symbol_search" args = inr tt ->
  exists n,
    orElse (get args "limit") (JNumber (ofZ 100)) = JNumber n
    /\ lt zero n = true.
Proof.
  unfold validateToolArgs, invalid.
  destruct (negb (truthy args) || negb (isObjectType args)); [discriminate|].
  cbn [named positionTools existsb].
  replace (String.eqb "workspace_symbol_search" "find_definition"
           || (String.eqb "workspace_symbol_search" "find_references"
               || (String.eqb "workspace_symbol_search" "get_hover"
                   || (String.eqb "workspace_symbol_search" "find_implementations"
                       || false)))) with false by reflexivity.
  replace (String.eqb "workspace_symbol_search" "workspace_symbol_search")
    with true by reflexivity.
  destruct (negb (isString (get args "query"))); [discriminate|].
  destruct (get args "limit") as [| | |n| | |] eqn:Hlimit;
    cbn [isUndefined negb andb notPositiveInteger]; try discriminate.
  - intros _. exists (ofZ 100). split; reflexivity.
  - destruct (isInteger n) eqn:Hint; [|discriminate]. cbn [negb orb].
    destruct (le n zero) eqn:Hle; [discriminate|]. intros _.
    destruct n as [| | |q]; try discriminate.
    exists (JFin q). unfold le, zero, ofZ in Hle. unfold lt, zero, ofZ.
    rewrite <- Qcompare_antisym.
    destruct (q ?= inject_Z 0)%Q eqn:Hcmp; try discriminate.
    split; [|reflexivity].
    unfold orElse. cbn [truthy].
    apply Qgt_alt in Hcmp. unfold Qlt, inject_Z in Hcmp. cbn in Hcmp.
    destruct (Z.eqb_spec (Qnum q) 0) as [Hz|]; [lia | reflexivity].
Qed.

(** C5. When the arguments of a tool call fail validation (they are
    missing, or [validateToolArgs] throws), the handler returns the error
    payload for that validation error and leaves the server state exactly
    as it found it, whatever the initializer and the tools would do: the
    initializer is not run, no tool runs and nothing is sent to the
    subprocess, and the failed call is not attempted again. *)
Theorem invalid_arguments_stop_before_initialization
  {W : Type} (host : Host W) (request : Request) (error : Thrown) (w : W) :
  checkArguments request = inl error ->
  callTool host request w = (inl error, w)
  /\ handleCallTool host request w = (inr (failure host error), w)
  /\ isError (failure host error) = true.
Proof.
  intros Hcheck.
  assert (Hcall : callTool host request w = (inl error, w)).
  { unfold callTool, bind, lift. now rewrite Hcheck. }
  split; [exact Hcall|]. split; [|reflexivity].
  rewrite handleCallTool_settles. now rewrite Hcall.
Qed.

(** The theorem at a call of [find_definition] with line -1, on the
    recording host: the log stays empty. *)
Lemma invalid_arguments_stop_before_initialization_witness :
  checkArguments {| name := "find_definition"; arguments := positionArgs (-1) 0 |}
  = inl (ErrorObject "Invalid line: must be a non-negative integer")
  /\ handleCallTool (recordingHost false)
       {| name := "find_definition"; arguments := positionArgs (-1) 0 |} []
     = (inr {| text := "error: Invalid line: must be a non-negative integer";
               isError := true |}, []).
Proof.
  split; [reflexivity|].
  apply (invalid_arguments_stop_before_initialization (recordingHost false)
           {| name := "find_definition"; arguments := positionArgs (-1) 0 |}
           (ErrorObject "Invalid line: must be a non-negative integer") []).
  reflexivity.
Defined.


(** *** The listed tools *)

Ltac each_tool H :=
  unfold listTools in H; cbn [In] in H;
  repeat (destruct H as [<- | H]); [.. | destruct H].

(** X13. [validateToolArgs] enforces the input schema the server lists
    for each of its nine tools: arguments that lack a property the schema
    marks as required are rejected, and so are arguments in which a listed
    property is present with another type than the listed one. *)
Theorem validateToolArgs_enforces_the_listed_schema
  (schema : ToolSchema) (args : JsValue) :
  In schema listTools ->
  (forall field, In field (required schema) -> get args field = JUndefined ->
     exists e, validateToolArgs (tool_name schema) args = inl e)
  /\ (forall field type,
        In (field, type) (properties schema) ->
        get args field <> JUndefined -> jsonType (get args field) <> type ->
        exists e, validateToolArgs (tool_name schema) args = inl e).
Proof.
  intros Hschema.
  assert (Hobject : negb (truthy args) || negb (isObjectType args) = true ->
            forall name, exists e, validateToolArgs name args = inl e).
  { intros H name. unfold validateToolArgs. rewrite H.
    unfold invalid. eauto. }
  destruct (negb (truthy args) || negb (isObjectType args)) eqn:Hargs;
    [split; intros; apply Hobject; reflexivity|].
  clear Hobject.
  split.
  - intros field Hfield Hmissing.
    each_tool Hschema; cbn [required positionSchema In] in Hfield;
      repeat (destruct Hfield as [<- | Hfield]); try destruct Hfield;
      unfold validateToolArgs, validatePosition, invalid; rewrite Hargs;
      cbn [tool_name positionSchema named positionTools hierarchyTools existsb
           String.eqb Ascii.eqb Bool.eqb orb andb];
      rewrite ?Hmissing; cbn [isString negb notNonNegativeInteger];
      repeat match goal with
             | |- context [if ?b then _ else _] =>
                 lazymatch b with
                 | true => fail
                 | false => fail
                 | _ => destruct b
                 end
             end; eauto.
  - intros field type Hprop Hpresent Htype.
    each_tool Hschema; cbn [properties positionSchema In] in Hprop;
      repeat (destruct Hprop as [[= <- <-] | Hprop]); try destruct Hprop;
      unfold validateToolArgs, validatePosition, invalid, definedNotBoolean;
      rewrite Hargs;
      cbn [tool_name positionSchema named positionTools hierarchyTools existsb
           String.eqb Ascii.eqb Bool.eqb orb andb];
      match goal with
      | H : jsonType (get args ?f) <> _ |- _ =>
          destruct (get args f) eqn:Hget; cbn [jsonType] in H;
          try congruence
      end;
      cbn [isString isUndefined isBoolean isArray negb andb orb
           notNonNegativeInteger notPositiveInteger];
      repeat match goal with
             | |- context [if ?b then _ else _] =>
                 lazymatch b with
                 | true => fail
                 | false => fail
                 | _ => destruct b
                 end
             end; eauto.
Qed.

Lemma whole_from_0 v :
  v <> JUndefined -> jsonType v = "number" -> wholeFrom 0 v ->
  notNonNegativeInteger v = false.
Proof.
  destruct v as [| | |n| | |]; cbn; try congruence; try discriminate.
  intros _ _ [Hint Hlt]. unfold zero. now rewrite Hint, Hlt.
Qed.

Lemma le_zero_lt_one n : isInteger n = true -> lt n (ofZ 1) = false -> le n zero = false.
Proof.
  destruct n as [| | |q]; cbn; try discriminate.
  unfold zero, ofZ. intros Hint Hlt.
  destruct (q ?= inject_Z 1)%Q eqn:E1; try discriminate.
  - apply Qeq_alt in E1.
    destruct (q ?= inject_Z 0)%Q eqn:E0; try reflexivity.
    + apply Qeq_alt in E0. rewrite E1 in E0. discriminate.
    + apply Qlt_alt in E0. rewrite E1 in E0. discriminate.
  - apply Qgt_alt in E1.
    destruct (q ?= inject_Z 0)%Q eqn:E0; try reflexivity.
    + apply Qeq_alt in E0. rewrite E0 in E1. discriminate.
    + apply Qlt_alt in E0.
      assert (H : (inject_Z 1 < inject_Z 0)%Q) by (eapply Qlt_trans; eauto).
      discriminate.
Qed.

Lemma whole_from_1 v :
  v <> JUndefined -> jsonType v = "number" -> wholeFrom 1 v ->
  notPositiveInteger v = false.
Proof.
  destruct v as [| | |n| | |]; cbn; try congruence; try discriminate.
  intros _ _ [Hint Hlt]. rewrite Hint. cbn. now apply le_zero_lt_one.
Qed.

Lemma required_string v :
  v <> JUndefined -> jsonType v = "string" -> isString v = true.
Proof. destruct v; cbn; congruence. Qed.

Lemma optional_boolean v :
  (v <> JUndefined -> jsonType v = "boolean") -> definedNotBoolean v = false.
Proof.
  unfold definedNotBoolean. destruct v; cbn; try reflexivity;
    intros H; exfalso; specialize (H ltac:(discriminate)); discriminate.
Qed.

Lemma optional_whole_from_1 v :
  (v <> JUndefined -> jsonType v = "number") -> wholeFrom 1 v ->
  negb (isUndefined v) && notPositiveInteger v = false.
Proof.
  intros Htype Hwhole. destruct (isUndefined v) eqn:E; [reflexivity|].
  cbn [negb andb]. apply whole_from_1; auto.
  - intros ->. discriminate.
  - apply Htype. intros ->. discriminate.
Qed.

Lemma optional_array v :
  (v <> JUndefined -> jsonType v = "array") ->
  negb (isUndefined v) && negb (isArray v) = false.
Proof.
  destruct v; cbn; try reflexivity;
    intros H; exfalso; specialize (H ltac:(discriminate)); discriminate.
Qed.

Lemma validatePosition_accepts args :
  (forall field, In field ["file_path"; "line"; "column"] ->
     get args field <> JUndefined) ->
  (forall field type,
     In (field, type) [("file_path", "string"); ("line", "number");
                       ("column", "number")] ->
     get args field <> JUndefined -> jsonType (get args field) = type) ->
  wholeFrom 0 (get args "line") -> wholeFrom 0 (get args "column") ->
  validatePosition args = inr tt.
Proof.
  intros Hreq Htypes Hline Hcol. unfold validatePosition.
  rewrite required_string;
    [|apply Hreq; cbn; tauto | apply Htypes; [cbn; tauto | apply Hreq; cbn; tauto]].
  cbn [negb].
  rewrite (whole_from_0 (get args "line"));
    [|apply Hreq; cbn; tauto
     |apply Htypes; [cbn; tauto | apply Hreq; cbn; tauto] | exact Hline].
  rewrite (whole_from_0 (get args "column"));
    [|apply Hreq; cbn; tauto
     |apply Htypes; [cbn; tauto | apply Hreq; cbn; tauto] | exact Hcol].
  reflexivity.
Qed.

(** X14. [validateToolArgs] accepts the arguments of a listed tool that
    conform to its schema: an object with every required property present
    and every property the schema lists, when present, of the listed type
    and, for [line] and [column], a whole number from 0, for [limit], a
    whole number from 1. Properties the schema of the tool does not list
    are ignored, whatever their value. *)
Theorem validateToolArgs_accepts_conforming_arguments
  (schema : ToolSchema) (args : JsValue) :
  In schema listTools -> conforms schema args ->
  validateToolArgs (tool_name schema) args = inr tt.
Proof.
  intros Hschema (Htruthy & Hobj & Hreq & Htypes & Hrange).
  unfold validateToolArgs. rewrite Htruthy, Hobj. cbn [negb orb].
  each_tool Hschema;
    cbn [tool_name positionSchema named positionTools hierarchyTools existsb
         String.eqb Ascii.eqb Bool.eqb orb andb];
    cbn [required properties positionSchema] in Hreq, Htypes, Hrange;
    try (rewrite validatePosition_accepts; auto;
         try (intros field type Hin; apply Htypes; cbn [In] in *; tauto);
         try (apply (Hrange _ "number"); [cbn [In]; tauto | reflexivity])).
  - (* find_references *)
    rewrite optional_boolean; [reflexivity|].
    apply Htypes. cbn; tauto.
  - (* workspace_symbol_search *)
    rewrite required_string;
      [|apply Hreq; cbn; tauto | apply Htypes; [cbn; tauto | apply Hreq; cbn; tauto]].
    cbn [negb].
    rewrite optional_whole_from_1;
      [|apply Htypes; cbn; tauto
       |apply (Hrange _ "number"); [cbn; tauto | reflexivity]].
    rewrite optional_boolean; [|apply Htypes; cbn; tauto].
    rewrite optional_array; [reflexivity | apply Htypes; cbn; tauto].
  - (* get_document_symbols *)
    rewrite required_string;
      [reflexivity |apply Hreq; cbn; tauto
       | apply Htypes; [cbn; tauto | apply Hreq; cbn; tauto]].
  - (* get_diagnostics *)
    rewrite required_string;
      [|apply Hreq; cbn; tauto | apply Htypes; [cbn; tauto | apply Hreq; cbn; tauto]].
    cbn [negb]. rewrite optional_boolean; [reflexivity | apply Htypes; cbn; tauto].
Qed.

(** The theorem at a [get_hover] call at line 3, column 7. *)
Lemma validateToolArgs_accepts_conforming_arguments_witness :
  validateToolArgs "get_hover" (positionArgs 3 7) = inr tt.
Proof.
  apply (validateToolArgs_accepts_conforming_arguments
           (positionSchema "get_hover") (positionArgs 3 7)).
  - cbn. tauto.
  - repeat split; try reflexivity.
    + intros field Hin. cbn in Hin.
      repeat (destruct Hin as [<- | Hin]; [discriminate|]). destruct Hin.
    + intros field type Hin _. cbn in Hin.
      repeat (destruct Hin as [[= <- <-] | Hin]; [reflexivity|]). destruct Hin.
    + intros field type least Hin Hleast. cbn in Hin.
      destruct Hin as [[= <- <-] | [[= <- <-] | [[= <- <-] | []]]];
        vm_compute in Hleast; try discriminate;
        injection Hleast as <-; vm_compute; auto.
Defined.

(** A [get_document_symbols] call whose [line] is a string conforms to the
    schema of the tool, which lists no [line], and is accepted. *)
Example unlisted_property_is_ignored :
  let args := JObject [("file_path", JString "/proj/a.cpp");
                       ("line", JString "x")] in
  conforms {| tool_name := "get_document_symbols";
              properties := [("file_path", "string")];
              required := ["file_path"] |} args
  /\ validateToolArgs "get_document_symbols" args = inr tt.
Proof.
  cbn zeta. split; [|reflexivity].
  repeat split; try reflexivity.
  - intros field [<- | []]. discriminate.
  - intros field type [[= <- <-] | []] _. reflexivity.
  - intros field type least [[= <- <-] | []] Hleast. discriminate.
Qed.

(** The theorem at a [find_definition] call without [line]. *)
Lemma validateToolArgs_enforces_the_listed_schema_witness :
  exists e,
    validateToolArgs "find_definition"
      (JObject [("file_path", JString "/proj/a.cpp"); ("column", JNumber (ofZ 1))])
    = inl e.
Proof.
  destruct (validateToolArgs_enforces_the_listed_schema
              (positionSchema "find_definition")
              (JObject [("file_path", JString "/proj/a.cpp");
                        ("column", JNumber (ofZ 1))]))
    as [Hrequired _].
  - cbn. tauto.
  - apply (Hrequired "line"); [cbn; tauto | reflexivity].
Defined.

(** X15. A call that names none of the listed tools, with arguments that
    are an object, passes the argument checks; the handler therefore runs
    the lazy initializer first, and only then fails: with the initializer's
    error if it rejects, with [Clangd not initialized] if the globals are
    not set, and otherwise with [Unknown tool: <name>]. *)
Theorem unknown_tool_fails_after_initialization
  {W : Type} (host : Host W) (tool : string) (args : JsValue) (w : W) :
  ~ In tool (List.map tool_name listTools) ->
  truthy args = true -> isObjectType args = true ->
  checkArguments {| name := tool; arguments := args |} = inr tt
  /\ callTool host {| name := tool; arguments := args |} w
     = match ensureClangdInitialized host w with
       | (inl e, w') => (inl e, w')
       | (inr _, w') =>
           (inl (ErrorObject
                   (if managerAndTracker host w'
                    then "Unknown tool: " +:+ tool
                    else "Clangd not initialized")), w')
       end.
Proof.
  intros Htool Htruthy Hobj.
  assert (Hne : forall known, In known (List.map tool_name listTools) ->
                  String.eqb tool known = false).
  { intros known Hin. destruct (String.eqb_spec tool known) as [->|]; tauto. }
  assert (Hvalid : validateToolArgs tool args = inr tt).
  { unfold validateToolArgs, named. rewrite Htruthy, Hobj.
    cbn [negb orb positionTools hierarchyTools existsb].
    rewrite !Hne by (cbn; tauto). reflexivity. }
  assert (Hcheck : checkArguments {| name := tool; arguments := args |}
                   = inr tt).
  { unfold checkArguments. cbn [name arguments].
    now rewrite Htruthy, Hvalid. }
  split; [exact Hcheck|].
  unfold callTool, bind, lift. rewrite Hcheck.
  cbn [name arguments].
  destruct (ensureClangdInitialized host w) as [[e|[]] w']; [reflexivity|].
  destruct (managerAndTracker host w'); cbn [negb]; [|reflexivity].
  unfold ret, dispatch. rewrite !Hne by (cbn; tauto). reflexivity.
Qed.

(** The theorem at a call of [rename] on the recording host. *)
Lemma unknown_tool_fails_after_initialization_witness :
  callTool (recordingHost false)
    {| name := "rename"; arguments := positionArgs 3 7 |} []
  = (inl (ErrorObject "Unknown tool: rename"), ["initialize"]).
Proof.
  apply (unknown_tool_fails_after_initialization (recordingHost false)
           "rename" (positionArgs 3 7) []).
  - cbn. intros H.
    repeat (destruct H as [H | H]; [discriminate|]). destruct H.
  - reflexivity.
  - reflexivity.
Defined.

(** The limit the handler passes on once the arguments are validated is a
    whole number above zero. *)
Lemma validated_limit_is_whole args :
  validateToolArgs "workspace_symbol_search" args = inr tt ->
  exists n,
    orElse (get args "limit") (JNumber (ofZ 100)) = JNumber n
    /\ isInteger n = true /\ lt zero n = true.
Proof.
  intros Hvalid.
  destruct (validated_limit_is_positive args Hvalid) as (n & Hn & Hpos).
  exists n. split; [exact Hn|]. split; [|exact Hpos].
  revert Hvalid. unfold validateToolArgs, invalid.
  destruct (negb (truthy args) || negb (isObjectType args)); [discriminate|].
  cbn [named positionTools existsb].
  replace (String.eqb "workspace_symbol_search" "find_definition"
           || (String.eqb "workspace_symbol_search" "find_references"
               || (String.eqb "workspace_symbol_search" "get_hover"
                   || (String.eqb "workspace_symbol_search" "find_implementations"
                       || false)))) with false by reflexivity.
  replace (String.eqb "workspace_symbol_search" "workspace_symbol_search")
    with true by reflexivity.
  destruct (negb (isString (get args "query"))); [discriminate|].
  unfold orElse in Hn.
  destruct (get args "limit") as [| | |m| | |] eqn:Hlimit;
    cbn [isUndefined negb andb notPositiveInteger]; try discriminate.
  - intros _. cbn [truthy] in Hn. injection Hn as <-. reflexivity.
  - destruct (isInteger m) eqn:Hint; [|discriminate]. intros _.
    destruct (truthy (JNumber m)); injection Hn as <-;
      [exact Hint | reflexivity].
Qed.

Lemma sliceEnd_whole (len : nat) (n : JsNumber) :
  0 < len -> isInteger n = true -> lt zero n = true -> 1 <= sliceEnd len n.
Proof.
  intros Hlen Hint Hpos. destruct n as [| | |q]; try discriminate.
  destruct q as [num den]. unfold sliceEnd, isInteger in *. cbn [Qnum Qden] in *.
  unfold lt, zero, ofZ, Qcompare, inject_Z in Hpos. cbn [Qnum Qden] in Hpos.
  rewrite Z.mul_1_r in Hpos. cbn in Hpos.
  assert (Hnum : (0 < num)%Z) by (destruct num; try discriminate; lia).
  apply Z.eqb_eq in Hint.
  rewrite Z.quot_div_nonneg by lia.
  assert (Hk : (1 <= num / Zpos den)%Z).
  { apply Z.div_le_lower_bound; [lia|].
    pose proof (Z.div_mod num (Zpos den) ltac:(lia)) as Hdm.
    rewrite Hint, Z.add_0_r in Hdm.
    assert (0 < num / Zpos den)%Z by nia. nia. }
  destruct (Z.ltb_spec (num / Zpos den) 0); lia.
Qed.

Lemma lt_le n m : lt n m = true -> le n m = true.
Proof.
  destruct n as [| | |x], m as [| | |y]; cbn; try congruence.
  destruct (x ?= y)%Q; congruence.
Qed.

(** X16. On the handler's path the limit holds: when the arguments of
    [workspace_symbol_search] pass [validateToolArgs] and the limit of the
    options is the one the handler passes ([args.limit || 100]),
    [workspaceSymbolSearch] returns no more symbols than the limit, and a
    [found: true] payload holds at least one symbol. *)
Theorem validated_search_stays_within_limit
  (uriToPath : string -> string) (kindName : JsValue -> string)
  (projectRoot : string) (args : JsValue)
  (options : WorkspaceSymbol.WorkspaceSymbolOptions)
  (result : option (list WorkspaceSymbol.SymbolInformation))
  (r : WorkspaceSymbol.SearchResult) :
  validateToolArgs "workspace_symbol_search" args = inr tt ->
  option_map JNumber (WorkspaceSymbol.limit options)
  = Some (orElse (get args "limit") (JNumber (ofZ 100))) ->
  WorkspaceSymbol.workspaceSymbolSearch uriToPath kindName projectRoot options
    (inr result) = inr r ->
  WorkspaceSymbol.withinLimit options r
  /\ (forall count returned truncated root ext excl symbols,
        r = WorkspaceSymbol.Found count returned truncated root ext excl symbols ->
        1 <= returned /\ returned = length symbols).
Proof.
  intros Hvalid Hlimit Hsearch.
  destruct (validated_limit_is_whole args Hvalid) as (n & Hn & Hint & Hpos).
  rewrite Hn in Hlimit.
  assert (Hopt : WorkspaceSymbol.limit options = Some n).
  { destruct (WorkspaceSymbol.limit options); [|discriminate].
    cbn in Hlimit. congruence. }
  cbn [WorkspaceSymbol.workspaceSymbolSearch] in Hsearch.
  injection Hsearch as <-.
  unfold WorkspaceSymbol.withinLimit, WorkspaceSymbol.limitOf.
  unfold WorkspaceSymbol.formatResponse. rewrite Hopt.
  destruct (WorkspaceSymbol.filterSymbols _ _ _ _ _) as [|sym kept] eqn:Hkept.
  - split; [exact (lt_le _ _ Hpos) | discriminate].
  - cbn [WorkspaceSymbol.symbolsOf]. split.
    + rewrite length_map. apply WorkspaceSymbol.sliceTo_length_le.
      now apply lt_le.
    + intros count returned truncated root ext excl symbols [= <- <- <- _ _ _ <-].
      rewrite !length_map. split; [|reflexivity].
      unfold sliceTo. rewrite length_firstn.
      pose proof (sliceEnd_whole (length (sym :: kept)) n ltac:(cbn; lia) Hint Hpos).
      cbn [length] in *. lia.
Qed.

(** The theorem at a search with a limit of two. *)
Lemma validated_search_stays_within_limit_witness :
  let r :=
    WorkspaceSymbol.formatResponse id (fun _ => "Function") "/proj"
      (WorkspaceSymbol.sampleOptions 2)
      [WorkspaceSymbol.sampleSymbol "/proj/a.cpp";
       WorkspaceSymbol.sampleSymbol "/proj/c.cpp";
       WorkspaceSymbol.sampleSymbol "/proj/d.cpp"] in
  WorkspaceSymbol.withinLimit (WorkspaceSymbol.sampleOptions 2) r
  /\ (forall count returned truncated root ext excl symbols,
        r = WorkspaceSymbol.Found count returned truncated root ext excl symbols ->
        1 <= returned /\ returned = length symbols).
Proof.
  apply (validated_search_stays_within_limit id (fun _ => "Function") "/proj"
           (JObject [("query", JString "f"); ("limit", JNumber (ofZ 2))])
           (WorkspaceSymbol.sampleOptions 2)
           (Some [WorkspaceSymbol.sampleSymbol "/proj/a.cpp";
                  WorkspaceSymbol.sampleSymbol "/proj/c.cpp";
                  WorkspaceSymbol.sampleSymbol "/proj/d.cpp"])).
  - reflexivity.
  - reflexivity.
  - reflexivity.
Defined.

End ToolCall.

(** ** src/index.ts: the lazy initializer *)

Module LazyInit.

(** Modelled from the spec: [ClangdManager] (src/clangd-manager.ts is not
    among the sources). A manager is constructed stopped; [start()] on a
    stopped manager spawns the subprocess and performs the handshake, and
    [isReady()] holds once the handshake has succeeded, until the
    subprocess exits unexpectedly (ready → crashed); the manager then
    restarts the subprocess itself and is ready again when that succeeds
    (restarting → ready). [ready] is all the initializer reads of a
    manager. *)
Record ClangdManager := {
  ready : bool;
}.

(** How the beginning of the initialization closure ends:
    [detectConfiguration()] and [new ClangdManager(config)] run inside the
    [try] before the first [await], and either may throw (so
    [process.cwd()] does when the working directory has been removed). *)
Inductive Prefix :=
| Proceeds
| Throws (error : string).

(** Where the body of the initialization closure is suspended. *)
Inductive Phase :=
| AwaitingStart        (* [await clangdManager.start()] *)
| AwaitingOpenSources. (* [await openSourceFiles(projectRoot, fileTracker)] *)

(** The state of a stored promise. A closure that has suspended clears the
    global in its [finally] when it settles, so the only settled promise
    that is ever stored is that of a closure that threw before its first
    [await]: its [finally] ran before the assignment to
    [initializationPromise]. *)
Inductive Status :=
| Pending (suspendedAt : Phase)
| Rejected (error : string).

(** The promise of the closure. *)
Record Promise := {
  id : nat;
  status : Status;
}.

(** The globals of index.ts the initializer reads and writes, with counters
    of what has happened. *)
Record State := {
  isShuttingDown : bool;
  clangdManager : option ClangdManager;
  fileTracker : bool;
  diagnosticsCache : bool;
  initializationPromise : option Promise;
  promisesCreated : nat;
  managersConstructed : nat;
  (** [start()] calls of the initializer, each on the manager it has just
      constructed: the subprocesses the initializer spawns *)
  spawned : nat;
  failedStarts : nat;
  (** unexpected exits of the subprocess of a ready manager *)
  exits : nat;
}.

Definition initial : State :=
  {| isShuttingDown := false; clangdManager := None; fileTracker := false;
     diagnosticsCache := false; initializationPromise := None;
     promisesCreated := 0; managersConstructed := 0; spawned := 0;
     failedStarts := 0; exits := 0 |}.

(** [clangdManager && clangdManager.isReady()] *)
Definition managerReady (s : State) : bool :=
  match clangdManager s with
  | Some m => ready m
  | None => false
  end.

(** How a call of [ensureClangdInitialized] settles: it rejects, resolves at
    once, or settles as the pending promise it returns does. *)
Inductive CallOutcome :=
| Rejects (message : string)
| Resolves
| Awaits (promise : nat).

(** [return initializationPromise]: the caller's promise follows the stored
    one. *)
Definition follows (p : Promise) : CallOutcome :=
  match status p with
  | Pending _ => Awaits (id p)
  | Rejected error => Rejects error
  end.

(** [ensureClangdInitialized()], up to the first suspension of the closure
    it may start. The closure runs [detectConfiguration()], constructs the
    manager and calls [start()] before it first suspends; when
    [detectConfiguration] or the constructor throws, the closure's
    [finally] sets [initializationPromise] to null at once and the
    assignment that follows stores the rejected promise of the closure.
    [start()] is awaited and taken to return a promise. *)
Definition ensureClangdInitialized (prefix : Prefix) (s : State)
  : CallOutcome * State :=
  if isShuttingDown s then (Rejects "Server is shutting down", s)
  else if managerReady s then (Resolves, s)
  else
    match initializationPromise s with
    | Some p => (follows p, s)
    | None =>
        let p := promisesCreated s in
        match prefix with
        | Proceeds =>
            (Awaits p,
             {| isShuttingDown := isShuttingDown s;
                clangdManager := Some {| ready := false |};
                fileTracker := fileTracker s;
                diagnosticsCache := diagnosticsCache s;
                initializationPromise :=
                  Some {| id := p; status := Pending AwaitingStart |};
                promisesCreated := S p;
                managersConstructed := S (managersConstructed s);
                spawned := S (spawned s);
                failedStarts := failedStarts s;
                exits := exits s |})
        | Throws error =>
            (Rejects error,
             {| isShuttingDown := isShuttingDown s;
                clangdManager := clangdManager s;
                fileTracker := fileTracker s;
                diagnosticsCache := diagnosticsCache s;
                initializationPromise :=
                  Some {| id := p; status := Rejected error |};
                promisesCreated := S p;
                managersConstructed := managersConstructed s;
                spawned := spawned s;
                failedStarts := failedStarts s;
                exits := exits s |})
        end
    end.

(** [clangdManager.start()] settles: on success the closure creates the
    tracker and the diagnostics cache and goes on to open the source files;
    on failure its [finally] clears the promise. *)
Definition startSettled (ok : bool) (s : State) : State :=
  match initializationPromise s with
  | Some {| id := p; status := Pending AwaitingStart |} =>
      if ok then
        {| isShuttingDown := isShuttingDown s;
           clangdManager := Some {| ready := true |};
           fileTracker := true;
           diagnosticsCache := true;
           initializationPromise :=
             Some {| id := p; status := Pending AwaitingOpenSources |};
           promisesCreated := promisesCreated s;
           managersConstructed := managersConstructed s;
           spawned := spawned s;
           failedStarts := failedStarts s;
           exits := exits s |}
      else
        {| isShuttingDown := isShuttingDown s;
           clangdManager := clangdManager s;
           fileTracker := fileTracker s;
           diagnosticsCache := diagnosticsCache s;
           initializationPromise := None;
           promisesCreated := promisesCreated s;
           managersConstructed := managersConstructed s;
           spawned := spawned s;
           failedStarts := S (failedStarts s);
           exits := exits s |}
  | _ => s
  end.

(** The rest of the closure has run; its [finally] clears the promise. *)
Definition sourcesOpened (s : State) : State :=
  match initializationPromise s with
  | Some {| id := _; status := Pending AwaitingOpenSources |} =>
      {| isShuttingDown := isShuttingDown s;
         clangdManager := clangdManager s;
         fileTracker := fileTracker s;
         diagnosticsCache := diagnosticsCache s;
         initializationPromise := None;
         promisesCreated := promisesCreated s;
         managersConstructed := managersConstructed s;
         spawned := spawned s;
         failedStarts := failedStarts s;
         exits := exits s |}
  | _ => s
  end.

(** The manager's [ready] becomes [r]. *)
Definition setReady (r : bool) (s : State) : State :=
  {| isShuttingDown := isShuttingDown s;
     clangdManager := Some {| ready := r |};
     fileTracker := fileTracker s;
     diagnosticsCache := diagnosticsCache s;
     initializationPromise := initializationPromise s;
     promisesCreated := promisesCreated s;
     managersConstructed := managersConstructed s;
     spawned := spawned s;
     failedStarts := failedStarts s;
     exits := if r then exits s else S (exits s) |}.

(** Modelled from the spec: the subprocess of a ready manager exits
    unexpectedly (ready → crashed). *)
Definition exited (s : State) : State :=
  if managerReady s then setReady false s else s.

(** Modelled from the spec: the manager's own restart succeeds
    (restarting → ready). The spec does not say when a manager that is not
    ready is restarting; the event is allowed whenever there is a manager,
    which leaves out no behaviour of the real one. *)
Definition restarted (s : State) : State :=
  match clangdManager s with
  | Some _ => setReady true s
  | None => s
  end.

(** The shutdown handler sets the flag. *)
Definition shutdown (s : State) : State :=
  {| isShuttingDown := true;
     clangdManager := clangdManager s;
     fileTracker := fileTracker s;
     diagnosticsCache := diagnosticsCache s;
     initializationPromise := initializationPromise s;
     promisesCreated := promisesCreated s;
     managersConstructed := managersConstructed s;
     spawned := spawned s;
     failedStarts := failedStarts s;
     exits := exits s |}.

(** What the event loop may run next. *)
Inductive Event :=
| Call (prefix : Prefix)
| StartSettled (ok : bool)
| SourcesOpened
| Exited
| Restarted
| Shutdown.

Definition step (s : State) (e : Event) : State :=
  match e with
  | Call prefix => snd (ensureClangdInitialized prefix s)
  | StartSettled ok => startSettled ok s
  | SourcesOpened => sourcesOpened s
  | Exited => exited s
  | Restarted => restarted s
  | Shutdown => shutdown s
  end.

Definition run (events : list Event) (s : State) : State :=
  fold_left step events s.

(** Calls one after the other with nothing settling in between; each comes
    with what the closure would meet if the call started one. *)
Fixpoint calls (prefixes : list Prefix) (s : State) : list CallOutcome * State :=
  match prefixes with
  | [] => ([], s)
  | prefix :: rest =>
      let (outcome, s1) := ensureClangdInitialized prefix s in
      let (outcomes, s2) := calls rest s1 in
      (outcome :: outcomes, s2)
  end.

(** No initialization is under way and none has succeeded. *)
Definition idle (s : State) : Prop :=
  isShuttingDown s = false /\ managerReady s = false
  /\ initializationPromise s = None.




(** The rejected promise of a closure that threw before its first [await]
    is stored, and there is no manager. *)
Definition stuck (error : string) (p : nat) (s : State) : Prop :=
  initializationPromise s = Some {| id := p; status := Rejected error |}
  /\ clangdManager s = None.

(** The error of [process.cwd()] in a working directory that has been
    removed. *)
Definition noWorkingDirectory : string :=
  "ENOENT: no such file or directory, uv_cwd".

Example three_callers_one_spawn :
  let (outcomes, s) := calls [Proceeds; Proceeds; Proceeds] initial in
  outcomes = [Awaits 0; Awaits 0; Awaits 0]
  /\ spawned s = 1 /\ managersConstructed s = 1.
Proof. cbn. auto. Qed.

Example callers_around_a_failed_start :
  let s := run [Call Proceeds; Call Proceeds; StartSettled false;
                Call Proceeds; Call Proceeds; StartSettled true;
                Call Proceeds; SourcesOpened; Call Proceeds] initial in
  spawned s = 2 /\ failedStarts s = 1 /\ managerReady s = true.
Proof. cbn. auto. Qed.

(** After a crash of the ready subprocess the next call starts a second
    one. *)
Example caller_after_a_crash :
  let s := run [Call Proceeds; StartSettled true; SourcesOpened; Exited;
                Call Proceeds] initial in
  spawned s = 2 /\ failedStarts s = 0 /\ exits s = 1.
Proof. cbn. auto. Qed.




(** A call changes nothing unless it starts the closure. *)
Lemma call_unchanged prefix s :
  isShuttingDown s = true \/ managerReady s = true
  \/ initializationPromise s <> None ->
  snd (ensureClangdInitialized prefix s) = s.
Proof.
  unfold ensureClangdInitialized.
  destruct (isShuttingDown s); [reflexivity|].
  destruct (managerReady s); [reflexivity|].
  destruct (initializationPromise s); [reflexivity|].
  intros [H | [H | H]]; congruence.
Qed.









(** *** After the shutdown signal *)

Lemma step_shutting_down s e :
  isShuttingDown s = true ->
  isShuttingDown (step s e) = true
  /\ spawned (step s e) = spawned s
  /\ managersConstructed (step s e) = managersConstructed s
  /\ promisesCreated (step s e) = promisesCreated s.
Proof.
  intros Hdown. destruct e as [prefix|ok| | | |]; cbn [step].
  - unfold ensureClangdInitialized. rewrite Hdown. cbn. auto.
  - unfold startSettled.
    destruct (initializationPromise s) as [[p [[|]|error]]|]; auto.
    destruct ok; cbn; auto.
  - unfold sourcesOpened.
    destruct (initializationPromise s) as [[p [[|]|error]]|]; cbn; auto.
  - unfold exited. destruct (managerReady s); cbn; auto.
  - unfold restarted. destruct (clangdManager s); cbn; auto.
  - cbn. auto.
Qed.

Lemma run_shutting_down events :
  forall s,
    isShuttingDown s = true ->
    isShuttingDown (run events s) = true
    /\ spawned (run events s) = spawned s
    /\ managersConstructed (run events s) = managersConstructed s
    /\ promisesCreated (run events s) = promisesCreated s.
Proof.
  induction events as [|e events IH]; intros s Hdown; cbn [run fold_left].
  - auto.
  - destruct (step_shutting_down s e Hdown) as (H1 & H2 & H3 & H4).
    destruct (IH (step s e) H1) as (G1 & G2 & G3 & G4).
    unfold run in *. repeat split; congruence.
Qed.

(** X17. Once the shutdown handler has set [isShuttingDown], whatever
    calls, settled starts, completed initializations, exits and restarts of
    the subprocess follow, every call of the lazy initializer rejects with
    [Server is shutting down], and no further manager is constructed,
    subprocess started or initialization promise created. *)
Theorem no_subprocess_started_once_shutting_down
  (s : State) (events : list Event) :
  let s' := run events (shutdown s) in
  (forall prefix,
     ensureClangdInitialized prefix s' = (Rejects "Server is shutting down", s'))
  /\ spawned s' = spawned s
  /\ managersConstructed s' = managersConstructed s
  /\ promisesCreated s' = promisesCreated s.
Proof.
  intros s'.
  destruct (run_shutting_down events (shutdown s) eq_refl) as (H1 & H2 & H3 & H4).
  fold s' in H1, H2, H3, H4.
  split; [|auto].
  intros prefix. unfold ensureClangdInitialized. now rewrite H1.
Qed.

(** *** The lock after a synchronous failure *)

Lemma step_stuck error p s e :
  stuck error p s ->
  stuck error p (step s e)
  /\ spawned (step s e) = spawned s
  /\ managersConstructed (step s e) = managersConstructed s
  /\ promisesCreated (step s e) = promisesCreated s.
Proof.
  intros (Hp & Hm). unfold stuck.
  destruct e as [prefix|ok| | | |]; cbn [step].
  - rewrite call_unchanged; [auto|].
    right. right. congruence.
  - unfold startSettled. rewrite Hp. auto.
  - unfold sourcesOpened. rewrite Hp. auto.
  - unfold exited, managerReady. rewrite Hm. auto.
  - unfold restarted. rewrite Hm. auto.
  - cbn. auto.
Qed.

Lemma run_stuck error p events :
  forall s,
    stuck error p s ->
    stuck error p (run events s)
    /\ spawned (run events s) = spawned s
    /\ managersConstructed (run events s) = managersConstructed s
    /\ promisesCreated (run events s) = promisesCreated s.
Proof.
  induction events as [|e events IH]; intros s Hs; cbn [run fold_left].
  - auto.
  - destruct (step_stuck error p s e Hs) as (H1 & H2 & H3 & H4).
    destruct (IH (step s e) H1) as (G1 & G2 & G3 & G4).
    unfold run in *. repeat split; try congruence; apply G1.
Qed.

(** X27. The lock is not released after a failure before the first
    [await]: when [detectConfiguration] or the manager's constructor throws
    in the first initialization (no manager yet, no promise stored), the
    rejected promise is stored and stays stored whatever follows; no
    manager is ever constructed and no subprocess started, and every later
    call of the initializer rejects, with the same error until the shutdown
    flag is set and with [Server is shutting down] after it. *)
Theorem synchronous_failure_is_never_retried
  (s0 : State) (error : string) (events : list Event) :
  idle s0 -> clangdManager s0 = None ->
  let s := run events (snd (ensureClangdInitialized (Throws error) s0)) in
  fst (ensureClangdInitialized (Throws error) s0) = Rejects error
  /\ initializationPromise s
     = Some {| id := promisesCreated s0; status := Rejected error |}
  /\ clangdManager s = None
  /\ spawned s = spawned s0
  /\ managersConstructed s = managersConstructed s0
  /\ (forall prefix,
        ensureClangdInitialized prefix s
        = (Rejects (if isShuttingDown s then "Server is shutting down"
                    else error), s)).
Proof.
  intros (Hdown & Hready & Hp) Hm s.
  assert (Hfirst : ensureClangdInitialized (Throws error) s0
                   = (Rejects error,
                      snd (ensureClangdInitialized (Throws error) s0))).
  { unfold ensureClangdInitialized. now rewrite Hdown, Hready, Hp. }
  assert (Hstuck : stuck error (promisesCreated s0)
                     (snd (ensureClangdInitialized (Throws error) s0))).
  { unfold ensureClangdInitialized. rewrite Hdown, Hready, Hp. split; cbn; auto. }
  assert (Hcount : spawned (snd (ensureClangdInitialized (Throws error) s0))
                   = spawned s0
                   /\ managersConstructed
                        (snd (ensureClangdInitialized (Throws error) s0))
                      = managersConstructed s0).
  { unfold ensureClangdInitialized. rewrite Hdown, Hready, Hp. cbn. auto. }
  destruct (run_stuck error _ events _ Hstuck) as ((Hq & Hnone) & H2 & H3 & _).
  fold s in Hq, Hnone, H2, H3.
  split; [now rewrite Hfirst|]. split; [exact Hq|]. split; [exact Hnone|].
  split; [lia|]. split; [lia|].
  intros prefix. unfold ensureClangdInitialized, managerReady.
  rewrite Hnone, Hq. now destruct (isShuttingDown s).
Qed.

(** The theorem on a fresh server that has lost its working directory: the
    start that would succeed later is never attempted. *)
Lemma synchronous_failure_is_never_retried_witness :
  let s := run [Call Proceeds; StartSettled true; Call Proceeds]
             (snd (ensureClangdInitialized (Throws noWorkingDirectory) initial)) in
  spawned s = 0
  /\ ensureClangdInitialized Proceeds s = (Rejects noWorkingDirectory, s).
Proof.
  destruct (synchronous_failure_is_never_retried initial noWorkingDirectory
              [Call Proceeds; StartSettled true; Call Proceeds])
    as (_ & _ & _ & Hspawned & _ & Hcall).
  - repeat split.
  - reflexivity.
  - split; [exact Hspawned | exact (Hcall Proceeds)].
Defined.

End LazyInit.

(** ** src/index.ts: the compile_commands.json watcher *)

Module Watcher.

(** The closure of [startCompileCommandsWatcher] and the timers of the
    event loop. Time is in milliseconds. *)
Record State := {
  isShuttingDown : bool;
  (** the [Timeout] handle kept in [debounceTimer] *)
  debounceTimer : option nat;
  (** the armed timers: handle and deadline *)
  timers : list (nat * Z);
  handlesCreated : nat;
  (** the deadlines at which the re-index action was started *)
  reindexed : list Z;
}.

Definition initial : State :=
  {| isShuttingDown := false; debounceTimer := None; timers := [];
     handlesCreated := 0; reindexed := [] |}.

(** [clearTimeout(handle)]: a timer that has fired is no longer armed, and
    clearing it does nothing. *)
Definition clearTimeout (handle : nat) (armed : list (nat * Z))
  : list (nat * Z) :=
  List.filter (fun t => negb (fst t =? handle)%nat) armed.

Definition debounceDelay : Z := 1000.

(** The listener passed to [watch], run at time [now]. *)
Definition onChange (now : Z) (s : State) : State :=
  if isShuttingDown s then s
  else
    let armed :=
      match debounceTimer s with
      | Some handle => clearTimeout handle (timers s)
      | None => timers s
      end in
    {| isShuttingDown := isShuttingDown s;
       debounceTimer := Some (handlesCreated s);
       timers := armed ++ [(handlesCreated s, (now + debounceDelay)%Z)];
       handlesCreated := S (handlesCreated s);
       reindexed := reindexed s |}.

Definition due (now : Z) (t : nat * Z) : bool := (snd t <=? now)%Z.

(** The event loop reaches time [now]: every armed timer whose deadline has
    passed fires and starts the re-index action. *)
Definition runTimers (now : Z) (s : State) : State :=
  {| isShuttingDown := isShuttingDown s;
     debounceTimer := debounceTimer s;
     timers := List.filter (fun t => negb (due now t)) (timers s);
     handlesCreated := handlesCreated s;
     reindexed := reindexed s ++ List.map snd (List.filter (due now) (timers s)) |}.

(** A change event delivered at time [now]. *)
Definition changeAt (s : State) (now : Z) : State :=
  onChange now (runTimers now s).

(** Change events delivered at the given times, in order. *)
Definition burst (times : list Z) (s : State) : State :=
  fold_left changeAt times s.

(** Each event comes less than the debounce delay after the one before. *)
Fixpoint withinWindow (first : Z) (rest : list Z) : Prop :=
  match rest with
  | [] => True
  | t :: rest' =>
      (first <= t < first + debounceDelay)%Z /\ withinWindow t rest'
  end.

(** The timer kept in [debounceTimer] is the only one armed, for [deadline]. *)
Definition armedFor (deadline : Z) (s : State) : Prop :=
  exists handle,
    debounceTimer s = Some handle /\ timers s = [(handle, deadline)].

(** The deadlines at which the re-index action has run by time [now] when
    change events came at [times]: the deadline of an event counts when the
    next event comes no earlier than it, and that of the last event when it
    has passed. *)
Fixpoint quietDeadlines (times : list Z) (now : Z) : list Z :=
  match times with
  | [] => []
  | t :: rest =>
      match rest with
      | [] =>
          if (t + debounceDelay <=? now)%Z then [(t + debounceDelay)%Z] else []
      | next :: _ =>
          if (t + debounceDelay <=? next)%Z
          then (t + debounceDelay)%Z :: quietDeadlines rest now
          else quietDeadlines rest now
      end
  end.

Example burst_of_three :
  let s := burst [0; 400; 900]%Z initial in
  timers s = [(2, 1900%Z)]
  /\ reindexed (runTimers 1899 s) = []
  /\ reindexed (runTimers 1900 s) = [1900%Z].
Proof. cbn. auto. Qed.

Example two_separate_bursts :
  reindexed (runTimers 5000 (burst [0; 400; 2000; 2100]%Z initial))
  = [1400; 3100]%Z.
Proof. reflexivity. Qed.

Lemma onChange_rearms now s deadline :
  isShuttingDown s = false ->
  timers s = [] \/ armedFor deadline s ->
  armedFor (now + debounceDelay) (onChange now s)
  /\ reindexed (onChange now s) = reindexed s
  /\ isShuttingDown (onChange now s) = false.
Proof.
  intros Hdown Harmed. unfold onChange, armedFor. rewrite Hdown.
  cbn [debounceTimer timers reindexed isShuttingDown].
  repeat split; auto. exists (handlesCreated s). split; [reflexivity|].
  destruct Harmed as [Hnone | (handle & Hd & Ht)].
  - rewrite Hnone. now destruct (debounceTimer s).
  - rewrite Hd, Ht. cbn. now rewrite Nat.eqb_refl.
Qed.

Lemma runTimers_before now s deadline :
  armedFor deadline s -> (now < deadline)%Z ->
  armedFor deadline (runTimers now s) /\ reindexed (runTimers now s) = reindexed s.
Proof.
  intros (handle & Hd & Ht) Hlt. unfold runTimers, armedFor.
  cbn [debounceTimer timers reindexed]. rewrite Ht. cbn. unfold due. cbn.
  destruct (Z.leb_spec deadline now); [lia|]. cbn.
  split; [eauto | apply app_nil_r].
Qed.

Lemma runTimers_after now s deadline :
  armedFor deadline s -> (deadline <= now)%Z ->
  timers (runTimers now s) = []
  /\ reindexed (runTimers now s) = reindexed s ++ [deadline].
Proof.
  intros (handle & Hd & Ht) Hle. unfold runTimers.
  cbn [timers reindexed]. rewrite Ht. cbn. unfold due. cbn.
  destruct (Z.leb_spec deadline now); [|lia]. cbn. auto.
Qed.

Lemma last_cons_default (t first : Z) (rest : list Z) :
  List.last (t :: rest) first = List.last rest t.
Proof.
  revert t first. induction rest as [|a rest IH]; intros t first; [reflexivity|].
  change (List.last (t :: a :: rest) first) with (List.last (a :: rest) first).
  rewrite IH. symmetry. apply IH.
Qed.

Lemma burst_rearms rest :
  forall first s,
    isShuttingDown s = false ->
    armedFor (first + debounceDelay) s ->
    withinWindow first rest ->
    armedFor (List.last rest first + debounceDelay) (burst rest s)
    /\ reindexed (burst rest s) = reindexed s
    /\ isShuttingDown (burst rest s) = false.
Proof.
  induction rest as [|t rest IH]; intros first s Hdown Harmed Hwin.
  - cbn. auto.
  - destruct Hwin as [Ht Hwin]. cbn [burst fold_left].
    fold (burst rest (changeAt s t)).
    destruct (runTimers_before t s _ Harmed ltac:(lia)) as [Harmed1 Hre1].
    destruct (onChange_rearms t (runTimers t s) (first + debounceDelay))
      as (Harmed2 & Hre2 & Hdown2); auto.
    destruct (IH t (changeAt s t) Hdown2 Harmed2 Hwin) as (H1 & H2 & H3).
    rewrite last_cons_default. repeat split; auto.
    rewrite H2. unfold changeAt. congruence.
Qed.

Lemma onChange_shutting_down now s :
  isShuttingDown s = true -> onChange now s = s.
Proof. intros H. unfold onChange. now rewrite H. Qed.

(** C7. On a watcher with no timer armed, a burst of change events, each
    less than 1000 ms after the one before, leaves exactly one timer armed:
    the one of the last event, due 1000 ms after it. Until that deadline the
    re-index action has not run; once it has passed the action has run
    exactly once. While the server is shutting down a change event changes
    nothing: no timer is cancelled or armed. *)
Theorem debounce_fires_once_after_last_event
  (s : State) (first : Z) (rest : list Z) :
  isShuttingDown s = false ->
  timers s = [] ->
  withinWindow first rest ->
  let last := List.last rest first in
  let s' := burst (first :: rest) s in
  armedFor (last + debounceDelay) s'
  /\ (forall now, (last <= now < last + debounceDelay)%Z ->
        reindexed (runTimers now s') = reindexed s)
  /\ (forall now, (last + debounceDelay <= now)%Z ->
        reindexed (runTimers now s') = reindexed s ++ [(last + debounceDelay)%Z]
        /\ timers (runTimers now s') = [])
  /\ (forall now s0, isShuttingDown s0 = true -> onChange now s0 = s0).
Proof.
  intros Hdown Hnone Hwin last s'.
  assert (Hfirst : timers (runTimers first s) = []
                   /\ reindexed (runTimers first s) = reindexed s).
  { unfold runTimers. cbn. rewrite Hnone. cbn. split; [reflexivity|].
    apply app_nil_r. }
  destruct Hfirst as [Ht0 Hr0].
  destruct (onChange_rearms first (runTimers first s) 0)
    as (Harmed1 & Hre1 & Hdown1); auto.
  destruct (burst_rearms rest first (changeAt s first) Hdown1 Harmed1 Hwin)
    as (Harmed & Hre & _).
  assert (Hsame : reindexed s' = reindexed s).
  { subst s'. cbn [burst fold_left]. fold (burst rest (changeAt s first)).
    rewrite Hre. unfold changeAt. congruence. }
  assert (Harmed' : armedFor (last + debounceDelay) s') by exact Harmed.
  split; [exact Harmed'|]. split; [|split].
  - intros now Hnow.
    destruct (runTimers_before now s' _ Harmed' ltac:(lia)) as [_ H].
    congruence.
  - intros now Hnow.
    destruct (runTimers_after now s' _ Harmed' Hnow) as [H1 H2].
    split; congruence.
  - intros now s0. apply onChange_shutting_down.
Qed.

(** The theorem at change events delivered at 0, 400 and 900 ms. *)
Lemma debounce_fires_once_after_last_event_witness :
  let s' := burst [0; 400; 900]%Z initial in
  armedFor 1900 s'
  /\ (forall now, (900 <= now < 1900)%Z -> reindexed (runTimers now s') = [])
  /\ (forall now, (1900 <= now)%Z ->
        reindexed (runTimers now s') = [1900%Z]
        /\ timers (runTimers now s') = [])
  /\ (forall now s0, isShuttingDown s0 = true -> onChange now s0 = s0).
Proof.
  apply (debounce_fires_once_after_last_event initial 0 [400; 900]%Z).
  - reflexivity.
  - reflexivity.
  - cbn. unfold debounceDelay. lia.
Defined.

(** *** Any sequence of change events *)

Lemma burst_quiet rest :
  forall t s now,
    isShuttingDown s = false ->
    armedFor (t + debounceDelay) s ->
    Sorted Z.le (t :: rest) ->
    Forall (fun u => (u <= now)%Z) (t :: rest) ->
    reindexed (runTimers now (burst rest s))
    = reindexed s ++ quietDeadlines (t :: rest) now.
Proof.
  induction rest as [|next rest IH]; intros t s now Hdown Harmed Hsorted Hnow.
  - cbn [burst fold_left quietDeadlines].
    destruct (Z.leb_spec (t + debounceDelay) now) as [Hle | Hgt].
    + now destruct (runTimers_after now s _ Harmed Hle).
    + destruct (runTimers_before now s _ Harmed Hgt) as [_ ->].
      now rewrite app_nil_r.
  - cbn [burst fold_left]. fold (burst rest (changeAt s next)).
    apply Sorted_inv in Hsorted as [Hsorted Hhd].
    apply HdRel_inv in Hhd.
    apply Forall_inv_tail in Hnow.
    change (quietDeadlines (t :: next :: rest) now)
      with (if (t + debounceDelay <=? next)%Z
            then (t + debounceDelay)%Z :: quietDeadlines (next :: rest) now
            else quietDeadlines (next :: rest) now).
    destruct (Z.leb_spec (t + debounceDelay) next) as [Hle | Hgt].
    + destruct (runTimers_after next s _ Harmed Hle) as [Hnone Hre].
      destruct (onChange_rearms next (runTimers next s) 0)
        as (Harmed2 & Hre2 & Hdown2); auto.
      rewrite (IH next (changeAt s next) now Hdown2 Harmed2 Hsorted Hnow).
      unfold changeAt. rewrite Hre2, Hre, <- app_assoc. reflexivity.
    + destruct (runTimers_before next s _ Harmed Hgt) as [Harmed1 Hre].
      destruct (onChange_rearms next (runTimers next s) (t + debounceDelay))
        as (Harmed2 & Hre2 & Hdown2); auto.
      rewrite (IH next (changeAt s next) now Hdown2 Harmed2 Hsorted Hnow).
      unfold changeAt. now rewrite Hre2, Hre.
Qed.

(** X18. For change events at any non-decreasing times on a watcher with
    no timer armed, the re-index action has run, by a time [now] not before
    the last event, once for every event that was followed by no other event
    for 1000 ms (the last event counts once 1000 ms have passed), at that
    event's time plus 1000 ms, and never otherwise. *)
Theorem reindex_runs_once_per_quiet_gap
  (s : State) (times : list Z) (now : Z) :
  isShuttingDown s = false ->
  timers s = [] ->
  Sorted Z.le times ->
  Forall (fun t => (t <= now)%Z) times ->
  reindexed (runTimers now (burst times s))
  = reindexed s ++ quietDeadlines times now.
Proof.
  intros Hdown Hnone Hsorted Hnow.
  destruct times as [|first rest].
  - cbn. rewrite Hnone. cbn. reflexivity.
  - cbn [burst fold_left]. fold (burst rest (changeAt s first)).
    assert (Hfirst : timers (runTimers first s) = []
                     /\ reindexed (runTimers first s) = reindexed s).
    { unfold runTimers. cbn. rewrite Hnone. cbn. split; [reflexivity|].
      apply app_nil_r. }
    destruct Hfirst as [Ht0 Hr0].
    destruct (onChange_rearms first (runTimers first s) 0)
      as (Harmed1 & Hre1 & Hdown1); auto.
    rewrite (burst_quiet rest first (changeAt s first) now Hdown1 Harmed1
               Hsorted Hnow).
    unfold changeAt. now rewrite Hre1, Hr0.
Qed.

(** The theorem at two bursts and a late event whose deadline has not
    passed. *)
Lemma reindex_runs_once_per_quiet_gap_witness :
  reindexed (runTimers 5000 (burst [0; 400; 2000; 2100; 4500]%Z initial))
  = [1400; 3100]%Z.
Proof.
  apply (reindex_runs_once_per_quiet_gap initial [0; 400; 2000; 2100; 4500]%Z 5000).
  - reflexivity.
  - reflexivity.
  - repeat constructor; lia.
  - repeat constructor; lia.
Defined.

End Watcher.

(** ** src/file-tracker.ts, and the wiring of its close hook in src/index.ts *)

Module FileTracker.
Import JsString.

(** What [lspClient.notify] is given. *)
Inductive Notification :=
| DidOpen (uri languageId : string) (version : Z) (text : string)
| DidClose (uri : string).

(** [getLanguageId] *)
Definition getLanguageId (filePath : string) : string :=
  let ext := toLowerCase (List.last (split "." filePath) EmptyString) in
  if String.eqb ext "c" then "c"
  else if existsb (String.eqb ext) ["cc"; "cpp"; "cxx"; "c++"] then "cpp"
  else if existsb (String.eqb ext) ["h"; "hh"; "hpp"; "hxx"; "h++"] then "cpp"
  else if String.eqb ext "m" then "objective-c"
  else if String.eqb ext "mm" then "objective-cpp"
  else "cpp".

(** The diagnostics pushed for one file. *)
Definition Diagnostics : Type := list string.

(** Modelled from the spec: [DiagnosticsCache.clearForFile]
    (src/tools/get-diagnostics.ts is not among the sources) "removes the
    entry unconditionally"; the cache holds the latest diagnostics per file
    identifier. *)
Definition clearForFile (uri : string) (cache : gmap string Diagnostics)
  : gmap string Diagnostics :=
  delete uri cache.

(** Modelled from the spec: on a [textDocument/publishDiagnostics] push the
    cache "stores the file's latest diagnostic list keyed by file
    identifier, overwriting any prior entry". *)
Definition publishDiagnostics (uri : string) (diagnostics : Diagnostics)
  (cache : gmap string Diagnostics) : gmap string Diagnostics :=
  <[uri := diagnostics]> cache.

(** The callback src/index.ts registers with [onFileClosed]; the argument
    is the global [diagnosticsCache], [None] while it is null. *)
Definition clearDiagnosticsHook (uri : string)
  (cache : option (gmap string Diagnostics)) : option (gmap string Diagnostics) :=
  match cache with
  | Some c => Some (clearForFile uri c)
  | None => None
  end.

(** ** [Map<string, number>], in insertion order *)

Definition keys (m : list (string * Z)) : list string := List.map fst m.

(** [m.has(uri)] *)
Definition has (uri : string) (m : list (string * Z)) : bool :=
  existsb (String.eqb uri) (keys m).

(** [m.set(uri, time)]: an existing key keeps its place. *)
Fixpoint mapSet (uri : string) (time : Z) (m : list (string * Z))
  : list (string * Z) :=
  match m with
  | [] => [(uri, time)]
  | (k, v) :: rest =>
      if String.eqb k uri then (k, time) :: rest
      else (k, v) :: mapSet uri time rest
  end.

(** [m.delete(uri)] *)
Definition mapDelete (uri : string) (m : list (string * Z)) : list (string * Z) :=
  List.filter (fun entry => negb (String.eqb (fst entry) uri)) m.

(** The tracker, the notifications its client has sent, and the global
    diagnostics cache its close callback reaches. *)
Record State := {
  openFiles : list (string * Z);
  inFlightOpens : gset string;
  onFileClosedCallback :
    option (string -> option (gmap string Diagnostics)
            -> option (gmap string Diagnostics));
  sent : list Notification;
  diagnosticsCache : option (gmap string Diagnostics);
}.

Definition maxOpenFiles : nat := 100.

(** A tracker as src/index.ts sets it up: nothing open, the diagnostics
    cache created and the close hook registered. *)
Definition initial : State :=
  {| openFiles := []; inFlightOpens := ∅;
     onFileClosedCallback := Some clearDiagnosticsHook;
     sent := []; diagnosticsCache := Some ∅ |}.

(** [if (this.onFileClosedCallback) this.onFileClosedCallback(uri)] *)
Definition runCallback (s : State) (uri : string)
  : option (gmap string Diagnostics) :=
  match onFileClosedCallback s with
  | Some callback => callback uri (diagnosticsCache s)
  | None => diagnosticsCache s
  end.

(** The three statements every closing path runs for a URI: the
    [textDocument/didClose] notification, the removal from the map and the
    callback. *)
Definition closeEntry (uri : string) (s : State) : State :=
  {| openFiles := mapDelete uri (openFiles s);
     inFlightOpens := inFlightOpens s;
     onFileClosedCallback := onFileClosedCallback s;
     sent := sent s ++ [DidClose uri];
     diagnosticsCache := runCallback s uri |}.

(** The loop of [evictLRU]: [oldestTime] starts at [Infinity], here [None]. *)
Fixpoint oldest (entries : list (string * Z)) (oldestUri : option string)
  (oldestTime : option Z) : option string :=
  match entries with
  | [] => oldestUri
  | (uri, time) :: rest =>
      let smaller :=
        match oldestTime with
        | None => true
        | Some t => (time <? t)%Z
        end in
      if smaller then oldest rest (Some uri) (Some time)
      else oldest rest oldestUri oldestTime
  end.

(** The URI [evictLRU] closes: [if (oldestUri)] skips [null] and the empty
    string. *)
Definition victim (s : State) : option string :=
  match oldest (openFiles s) None None with
  | Some uri => if truthy uri then Some uri else None
  | None => None
  end.

Definition evictLRU (s : State) : State :=
  match victim s with
  | Some uri => closeEntry uri s
  | None => s
  end.

(** [this.openFiles.set(uri, Date.now())] *)
Definition touch (uri : string) (now : Z) (s : State) : State :=
  {| openFiles := mapSet uri now (openFiles s);
     inFlightOpens := inFlightOpens s;
     onFileClosedCallback := onFileClosedCallback s;
     sent := sent s;
     diagnosticsCache := diagnosticsCache s |}.

Definition setInFlight (flights : gset string) (s : State) : State :=
  {| openFiles := openFiles s;
     inFlightOpens := flights;
     onFileClosedCallback := onFileClosedCallback s;
     sent := sent s;
     diagnosticsCache := diagnosticsCache s |}.

Definition notify (n : Notification) (s : State) : State :=
  {| openFiles := openFiles s;
     inFlightOpens := inFlightOpens s;
     onFileClosedCallback := onFileClosedCallback s;
     sent := sent s ++ [n];
     diagnosticsCache := diagnosticsCache s |}.

(** How a call of [ensureFileOpen] ends. *)
Inductive Outcome :=
| Returned (uri : string)
| Threw (message : string).

(** Where a call of [ensureFileOpen] is suspended. *)
Inductive Task :=
| Polling (uri : string)
  (* in the wait loop, at [await new Promise(resolve => setTimeout(resolve, 10))] *)
| Reading (uri : string)
  (* in [openFile], at [await readFile(fsPath, 'utf-8')] *)
| Finishing (uri : string) (failure : option string).
  (* [openFile] has settled, with the error it threw if any; at
     [await this.openFile(uri)], before [finally] *)

(** How [readFile] settles. *)
Inductive ReadResult :=
| ReadOk (text : string)
| ReadFailed (error : string).

Inductive Progress :=
| Done (outcome : Outcome)
| Suspended (task : Task).

(** For the examples: file [n] of a project, the first [n] files, and a
    [normalizeToUri]. *)
Definition sourceFile (n : nat) : string :=
  "/proj/src/f" +:+ String (ascii_of_nat (48 + n / 100))
    (String (ascii_of_nat (48 + (n / 10) mod 10))
       (String (ascii_of_nat (48 + n mod 10)) ".cpp")).

Definition sourceFiles (n : nat) : list string :=
  List.map sourceFile (seq 1 n).

Definition fileUri (filePath : string) : string := "file://" +:+ filePath.

(** A tracker with two open files and diagnostics cached for both. *)
Definition twoOpenFiles : State :=
  {| openFiles := [("file:///proj/a.cpp", 1%Z); ("file:///proj/b.cpp", 2%Z)];
     inFlightOpens := ∅;
     onFileClosedCallback := Some clearDiagnosticsHook;
     sent := [DidOpen "file:///proj/a.cpp" "cpp" 1 "int x;";
              DidOpen "file:///proj/b.cpp" "cpp" 1 "int y;"];
     diagnosticsCache :=
       Some (publishDiagnostics "file:///proj/a.cpp" ["unused variable"]
               (publishDiagnostics "file:///proj/b.cpp" [] ∅)) |}.

Definition isReading (task : Task) : bool :=
  match task with Reading _ => true | _ => false end.

(** The number of suspended calls whose read has not settled. *)
Definition reading (tasks : list Task) : nat :=
  length (List.filter isReading tasks).

(** The URI a suspended call works on. *)
Definition uriOf (task : Task) : string :=
  match task with
  | Polling uri | Reading uri | Finishing uri _ => uri
  end.


Section Tracker.
(** [normalizeToUri] and [uriToPath] of src/utils/uri.ts *)
Variable normalizeToUri : string -> string.
Variable uriToPath : string -> string.

(** From "Mark as in-flight" to the suspension in [openFile]. *)
Definition claim (uri : string) (s : State) : State * Progress :=
  let s1 := setInFlight ({[uri]} ∪ inFlightOpens s) s in
  let s2 :=
    if (maxOpenFiles <=? length (openFiles s1))%nat then evictLRU s1 else s1 in
  (s2, Suspended (Reading uri)).

(** [ensureFileOpen(filePath)] called at time [now], up to its first
    suspension. *)
Definition ensureFileOpen (filePath : string) (now : Z) (s : State)
  : State * Progress :=
  let uri := normalizeToUri filePath in
  if has uri (openFiles s) then (touch uri now s, Done (Returned uri))
  else if bool_decide (uri ∈ inFlightOpens s) then (s, Suspended (Polling uri))
  else claim uri s.

(** The timer of the wait loop fires at time [now]. *)
Definition poll (uri : string) (now : Z) (s : State) : State * Progress :=
  if bool_decide (uri ∈ inFlightOpens s) then (s, Suspended (Polling uri))
  else if has uri (openFiles s) then (touch uri now s, Done (Returned uri))
  else claim uri s.

(** [readFile] settles at time [now] with the file's text, or rejects
    ([None]); [openFile] runs to its end. *)
Definition readSettled (uri : string) (content : ReadResult) (now : Z)
  (s : State) : State * Progress :=
  match content with
  | ReadOk text =>
      let languageId := getLanguageId (uriToPath uri) in
      (touch uri now (notify (DidOpen uri languageId 1 text) s),
       Suspended (Finishing uri None))
  | ReadFailed error =>
      (s, Suspended
            (Finishing uri
               (Some ("Failed to open file " +:+ uri +:+ ": " +:+ error))))
  end.

(** [ensureFileOpen] resumes after [openFile]: the [finally] block, then
    the return or the rethrow. *)
Definition finish (uri : string) (failure : option string) (s : State)
  : State * Progress :=
  (setInFlight (inFlightOpens s ∖ {[uri]}) s,
   Done (match failure with
         | None => Returned uri
         | Some message => Threw message
         end)).

(** [closeFile(filePath)] *)
Definition closeFile (filePath : string) (s : State) : State :=
  let uri := normalizeToUri filePath in
  if has uri (openFiles s) then closeEntry uri s else s.

(** The loop of [closeAll] over [this.openFiles.keys()]. *)
Fixpoint closeEach (uris : list string) (s : State) : State :=
  match uris with
  | [] => s
  | uri :: rest =>
      closeEach rest
        {| openFiles := openFiles s;
           inFlightOpens := inFlightOpens s;
           onFileClosedCallback := onFileClosedCallback s;
           sent := sent s ++ [DidClose uri];
           diagnosticsCache := runCallback s uri |}
  end.

(** [closeAll()] *)
Definition closeAll (s : State) : State :=
  let s1 := closeEach (keys (openFiles s)) s in
  {| openFiles := [];
     inFlightOpens := inFlightOpens s1;
     onFileClosedCallback := onFileClosedCallback s1;
     sent := sent s1;
     diagnosticsCache := diagnosticsCache s1 |}.

(** [isFileOpen(filePath)] *)
Definition isFileOpen (filePath : string) (s : State) : bool :=
  has (normalizeToUri filePath) (openFiles s).

(** [getOpenFiles()]: [new Set(this.openFiles.keys())] *)
Definition getOpenFiles (s : State) : gset string :=
  list_to_set (keys (openFiles s)).

(** ** The tracker under cooperative scheduling

    The calls of [ensureFileOpen] that are suspended form a pool; the event
    loop picks what runs next. *)
Record System := {
  tracker : State;
  pool : list Task;
}.

Inductive Event :=
| Call (filePath : string) (now : Z)
| Poll (task : nat) (now : Z)
| ReadSettled (task : nat) (content : ReadResult) (now : Z)
| Resume (task : nat)
| CloseFile (filePath : string)
| CloseAll.

(** The pool after the task at [index] made [progress]. *)
Definition settle (index : nat) (progress : Progress) (tasks : list Task)
  : list Task :=
  match progress with
  | Done _ => firstn index tasks ++ skipn (S index) tasks
  | Suspended task => firstn index tasks ++ task :: skipn (S index) tasks
  end.

(** One turn of the event loop. An event that names no task, or a task
    that is not waiting for it, changes nothing. *)
Definition step (sys : System) (event : Event) : System :=
  match event with
  | Call filePath now =>
      let (s, progress) := ensureFileOpen filePath now (tracker sys) in
      {| tracker := s;
         pool := match progress with
                 | Done _ => pool sys
                 | Suspended task => pool sys ++ [task]
                 end |}
  | Poll index now =>
      match nth_error (pool sys) index with
      | Some (Polling uri) =>
          let (s, progress) := poll uri now (tracker sys) in
          {| tracker := s; pool := settle index progress (pool sys) |}
      | _ => sys
      end
  | ReadSettled index content now =>
      match nth_error (pool sys) index with
      | Some (Reading uri) =>
          let (s, progress) := readSettled uri content now (tracker sys) in
          {| tracker := s; pool := settle index progress (pool sys) |}
      | _ => sys
      end
  | Resume index =>
      match nth_error (pool sys) index with
      | Some (Finishing uri failure) =>
          let (s, progress) := finish uri failure (tracker sys) in
          {| tracker := s; pool := settle index progress (pool sys) |}
      | _ => sys
      end
  | CloseFile filePath =>
      {| tracker := closeFile filePath (tracker sys); pool := pool sys |}
  | CloseAll => {| tracker := closeAll (tracker sys); pool := pool sys |}
  end.

Definition run (events : list Event) (sys : System) : System :=
  fold_left step events sys.

Definition start : System := {| tracker := initial; pool := [] |}.

(** A call that runs to its end before anything else happens: it is
    started at [now], and if it has to read the file the read settles with
    [content] and the call resumes. *)
Definition awaited (filePath : string) (content : ReadResult) (now : Z)
  (sys : System) : list Event :=
  [Call filePath now;
   ReadSettled (length (pool sys)) content now;
   Resume (length (pool sys))].

(** The calls of [files], each awaited before the next is made, at times
    [now], [now + 1], ... *)
Fixpoint openInTurn (files : list string) (now : Z) (sys : System) : System :=
  match files with
  | [] => sys
  | file :: rest =>
      openInTurn rest (now + 1)
        (run (awaited file (ReadOk "int x;") now sys) sys)
  end.

(** The URI of the open a task has in flight. *)
Definition owned (task : Task) : option string :=
  match task with
  | Polling _ => None
  | Reading uri | Finishing uri _ => Some uri
  end.

Definition isOpenOf (uri : string) (n : Notification) : bool :=
  match n with
  | DidOpen u _ _ _ => String.eqb u uri
  | DidClose _ => false
  end.

Definition isCloseOf (uri : string) (n : Notification) : bool :=
  match n with
  | DidOpen _ _ _ _ => false
  | DidClose u => String.eqb u uri
  end.

(** The numbers of [didOpen] and [didClose] notifications sent for a URI. *)
Definition opens (uri : string) (log : list Notification) : nat :=
  length (List.filter (isOpenOf uri) log).

Definition closes (uri : string) (log : list Notification) : nat :=
  length (List.filter (isCloseOf uri) log).

(** *** What the proofs speak of *)

(** [uri], with timestamp [time], is the first entry of [entries] that no
    other entry is older than. *)
Definition firstOldest (uri : string) (time : Z) (entries : list (string * Z))
  : Prop :=
  exists before after,
    entries = before ++ (uri, time) :: after
    /\ (forall e, In e before -> (time < snd e)%Z)
    /\ (forall e, In e after -> (time <= snd e)%Z).

(** 1 when the URI is a key of [openFiles], 0 otherwise. *)
Definition isOpen (uri : string) (s : State) : nat :=
  if has uri (openFiles s) then 1 else 0.

(** The map has no repeated key, and for every URI the [didOpen]
    notifications sent exceed the [didClose] notifications by one when the
    URI is in the map and equal them when it is not. *)
Definition mirrored (s : State) : Prop :=
  List.NoDup (keys (openFiles s))
  /\ forall uri, opens uri (sent s) = closes uri (sent s) + isOpen uri s.

(** The URIs with an open in flight, one for each task that owns one. *)
Definition owners (tasks : list Task) : list string :=
  flat_map (fun task => match owned task with
                        | Some uri => [uri]
                        | None => []
                        end) tasks.

(** What holds of the tracker and its suspended calls at every turn of the
    event loop. *)
Record coherent (sys : System) : Prop := {
  coherent_mirrored : mirrored (tracker sys);
  (** no two suspended calls have an open of the same URI in flight *)
  coherent_single : List.NoDup (owners (pool sys));
  (** [inFlightOpens] holds exactly the URIs some call has in flight *)
  coherent_inFlight :
    forall uri, uri ∈ inFlightOpens (tracker sys) <-> In uri (owners (pool sys));
  (** a file being read is not in the map *)
  coherent_reading :
    forall uri, In (Reading uri) (pool sys) ->
                has uri (openFiles (tracker sys)) = false;
}.

(** The diagnostics cache has no entry for the URI. *)
Definition noDiagnostics (uri : string) (s : State) : Prop :=
  forall cache, diagnosticsCache s = Some cache -> cache !! uri = None.

(** Every entry of the diagnostics cache is for a file in the map. *)
Definition cacheWithinMap (s : State) : Prop :=
  forall cache uri, diagnosticsCache s = Some cache ->
    is_Some (cache !! uri) -> has uri (openFiles s) = true.

(** No call is suspended, nothing is in flight, the keys of the map are
    distinct non-empty URIs, and the map is within its capacity. *)
Definition settled (sys : System) : Prop :=
  pool sys = []
  /\ (forall uri, uri ∉ inFlightOpens (tracker sys))
  /\ List.NoDup (keys (openFiles (tracker sys)))
  /\ (forall uri, In uri (keys (openFiles (tracker sys))) -> truthy uri = true)
  /\ length (openFiles (tracker sys)) <= maxOpenFiles.

(** The project has 102 source files. The first hundred calls are awaited
    one by one and fill the map to its capacity. *)
Definition atCapacity : System :=
  openInTurn (sourceFiles 100) 1 start.

(** The next two calls are made together, as [openSourceFiles] makes the
    calls of one batch: the first finds the map full and evicts one file,
    the second finds room; then both reads settle and both calls resume. *)
Definition overlappingPair : list Event :=
  [Call (sourceFile 101) 101; Call (sourceFile 102) 101;
   ReadSettled 0 (ReadOk "int x;") 102; ReadSettled 1 (ReadOk "int x;") 102;
   Resume 0; Resume 0].

(** At every turn of the schedule at most [c] reads are in flight. *)
Fixpoint readsWithin (c : nat) (events : list Event) (sys : System) : Prop :=
  match events with
  | [] => True
  | event :: rest =>
      reading (pool (step sys event)) <= c
      /\ readsWithin c rest (step sys event)
  end.

(** What holds at every turn when at most [c] reads are in flight. *)
Record bounded (c : nat) (sys : System) : Prop := {
  bounded_coherent : coherent sys;
  bounded_keys :
    forall uri, In uri (keys (openFiles (tracker sys))) -> truthy uri = true;
  bounded_tasks :
    forall task, In task (pool sys) -> truthy (uriOf task) = true;
  bounded_size :
    length (openFiles (tracker sys)) + reading (pool sys) < maxOpenFiles + c;
}.

(** *** [openSourceFiles] of src/index.ts *)

Definition batchSize : nat := 10.

(** The slices [sources.slice(i, i + batchSize)] for [i = 0, batchSize,
    ...]; the fuel is the number of sources. *)
Fixpoint batchesOf (fuel : nat) (sources : list string) : list (list string) :=
  match fuel, sources with
  | O, _ | _, [] => []
  | S fuel', _ :: _ =>
      firstn batchSize sources :: batchesOf fuel' (skipn batchSize sources)
  end.

Definition batches (sources : list string) : list (list string) :=
  batchesOf (length sources) sources.

(** The calls [batch.map] makes, one after the other, before anything
    else runs: the call for each file at the time it is made. *)
Fixpoint callsAt (batch : list string) (times : list Z) : list Event :=
  match batch, times with
  | file :: batch', now :: times' => Call file now :: callsAt batch' times'
  | _, _ => []
  end.

(** What the event loop runs while [Promise.all] is pending and nothing
    but [openSourceFiles] uses the tracker. *)
Definition progresses (event : Event) : bool :=
  match event with
  | Poll _ _ | ReadSettled _ _ _ | Resume _ => true
  | Call _ _ | CloseFile _ | CloseAll => false
  end.

(** The schedules of [openSourceFiles] over the batches: the calls of a
    batch, then turns of the event loop until every call of the batch has
    ended, and only then the next batch. *)
Fixpoint openSourceFiles (remaining : list (list string)) (sys : System)
  (events : list Event) : Prop :=
  match remaining with
  | [] => events = []
  | batch :: rest =>
      exists times settling later,
        length times = length batch
        /\ forallb progresses settling = true
        /\ events = (callsAt batch times ++ settling) ++ later
        /\ pool (run (callsAt batch times ++ settling) sys) = []
        /\ openSourceFiles rest (run (callsAt batch times ++ settling) sys) later
  end.

(** Every read of the batch settles with the text, in the order of the
    calls, and then every call resumes. *)
Definition settleInOrder (n : nat) (now : Z) : list Event :=
  List.map (fun index => ReadSettled index (ReadOk "int x;") now) (seq 0 n)
  ++ repeat (Resume 0) n.

Fixpoint openInBatches (remaining : list (list string)) (now : Z)
  : list Event :=
  match remaining with
  | [] => []
  | batch :: rest =>
      (callsAt batch (repeat now (length batch))
       ++ settleInOrder (length batch) (now + 1))
      ++ openInBatches rest (now + 2)
  end.

(** *** The map operations *)

Lemma has_In uri m : has uri m = true <-> In uri (keys m).
Proof.
  unfold has. rewrite existsb_exists. split.
  - intros (k & Hk & Heq). apply String.eqb_eq in Heq. now subst.
  - intros Hin. exists uri. split; [exact Hin | apply String.eqb_refl].
Qed.

Lemma has_false uri m : has uri m = false <-> ~ In uri (keys m).
Proof.
  rewrite <- has_In. destruct (has uri m); split; congruence.
Qed.

Lemma keys_mapSet_present uri time m :
  In uri (keys m) -> keys (mapSet uri time m) = keys m.
Proof.
  unfold keys. induction m as [|[k v] m IH]; cbn; [tauto|].
  destruct (String.eqb_spec k uri) as [->|Hne]; cbn; [reflexivity|].
  intros [Heq | Hin]; [congruence|]. now rewrite IH.
Qed.

Lemma keys_mapSet_absent uri time m :
  ~ In uri (keys m) -> keys (mapSet uri time m) = keys m ++ [uri].
Proof.
  unfold keys. induction m as [|[k v] m IH]; cbn; [reflexivity|].
  intros Hnot. destruct (String.eqb_spec k uri) as [->|Hne]; [tauto|].
  cbn. rewrite IH; tauto.
Qed.

Lemma length_mapSet_present uri time m :
  In uri (keys m) -> length (mapSet uri time m) = length m.
Proof.
  intros Hin.
  assert (H : length (keys (mapSet uri time m)) = length (keys m))
    by now rewrite keys_mapSet_present.
  unfold keys in H. now rewrite !length_map in H.
Qed.

Lemma length_mapSet_absent uri time m :
  ~ In uri (keys m) -> length (mapSet uri time m) = S (length m).
Proof.
  intros Hin.
  assert (H : length (keys (mapSet uri time m)) = length (keys m ++ [uri]))
    by now rewrite keys_mapSet_absent.
  rewrite length_app in H. unfold keys in H. rewrite !length_map in H.
  cbn in H. lia.
Qed.

Lemma In_keys_mapDelete v uri m :
  In v (keys (mapDelete uri m)) <-> In v (keys m) /\ v <> uri.
Proof.
  unfold keys, mapDelete. rewrite !in_map_iff. split.
  - intros ([k t] & <- & Hin). apply filter_In in Hin as [Hin Hne].
    cbn in *. split; [exists (k, t); auto|].
    intros ->. now rewrite String.eqb_refl in Hne.
  - intros (([k t] & <- & Hin) & Hne). exists (k, t). split; [reflexivity|].
    apply filter_In. split; [exact Hin|]. cbn in *.
    destruct (String.eqb_spec k uri); [contradiction | reflexivity].
Qed.

Lemma keys_mapDelete uri m :
  keys (mapDelete uri m)
  = List.filter (fun k => negb (String.eqb k uri)) (keys m).
Proof.
  unfold keys. induction m as [|[k t] m IH]; cbn; [reflexivity|].
  destruct (String.eqb k uri); cbn; now rewrite <- IH.
Qed.

Lemma NoDup_keys_mapDelete uri m :
  List.NoDup (keys m) -> List.NoDup (keys (mapDelete uri m)).
Proof. rewrite keys_mapDelete. apply List.NoDup_filter. Qed.

Lemma length_mapDelete uri m :
  List.NoDup (keys m) -> In uri (keys m) ->
  S (length (mapDelete uri m)) = length m.
Proof.
  induction m as [|[k t] m IH]; cbn; [tauto|].
  intros Hnd Hin. inversion Hnd as [|? ? Hnotin Hnd']; subst.
  destruct (String.eqb_spec k uri) as [->|Hne]; cbn.
  - f_equal. unfold mapDelete.
    rewrite forallb_filter_id; [reflexivity|].
    apply forallb_forall. intros [k' t'] Hin'. cbn.
    destruct (String.eqb_spec k' uri) as [->|]; [|reflexivity].
    exfalso. apply Hnotin. apply in_map_iff. exists (uri, t'). auto.
  - f_equal. apply IH; [exact Hnd'|]. destruct Hin; [contradiction | assumption].
Qed.

Lemma has_mapDelete_same uri m : has uri (mapDelete uri m) = false.
Proof. apply has_false. rewrite In_keys_mapDelete. tauto. Qed.

Lemma has_mapDelete_other v uri m :
  v <> uri -> has v (mapDelete uri m) = has v m.
Proof.
  intros Hne. destruct (has v m) eqn:E.
  - apply has_In. apply In_keys_mapDelete. split; [now apply has_In | exact Hne].
  - apply has_false. rewrite In_keys_mapDelete. apply has_false in E. tauto.
Qed.

Lemma has_mapSet_same uri time m : has uri (mapSet uri time m) = true.
Proof.
  apply has_In. destruct (has uri m) eqn:E.
  - rewrite keys_mapSet_present; now apply has_In.
  - rewrite keys_mapSet_absent by now apply has_false.
    apply in_or_app. right. now left.
Qed.

Lemma has_mapSet_other v uri time m :
  v <> uri -> has v (mapSet uri time m) = has v m.
Proof.
  intros Hne. destruct (has uri m) eqn:E.
  - unfold has. rewrite keys_mapSet_present; [reflexivity | now apply has_In].
  - unfold has. rewrite keys_mapSet_absent by now apply has_false.
    rewrite existsb_app. cbn.
    destruct (String.eqb_spec v uri); [contradiction|].
    now rewrite !orb_false_r.
Qed.

Lemma NoDup_keys_mapSet uri time m :
  List.NoDup (keys m) -> List.NoDup (keys (mapSet uri time m)).
Proof.
  intros Hnd. destruct (has uri m) eqn:E.
  - rewrite keys_mapSet_present; [exact Hnd | now apply has_In].
  - apply has_false in E. rewrite keys_mapSet_absent by exact E.
    apply List.NoDup_app; [exact Hnd | repeat constructor; intros [] |].
    intros k Hk [<- | []]. contradiction.
Qed.

(** *** The choice of [evictLRU] *)

Lemma oldest_running entries :
  forall best bestTime result,
    oldest entries (Some best) (Some bestTime) = Some result ->
    (result = best /\ forall e, In e entries -> (bestTime <= snd e)%Z)
    \/ (exists time, (time < bestTime)%Z /\ firstOldest result time entries).
Proof.
  induction entries as [|[uri time] rest IH]; intros best bestTime result;
    cbn [oldest].
  - intros [= <-]. left. split; [reflexivity | intros e []].
  - destruct (Z.ltb_spec time bestTime) as [Hlt | Hge]; intros Hres.
    + right. apply IH in Hres as [[-> Hall] | (t & Hlt' & before & after & -> & Hb & Ha)].
      * exists time. split; [exact Hlt|]. exists [], rest.
        split; [reflexivity|]. split; [intros e [] | exact Hall].
      * exists t. split; [lia|]. exists ((uri, time) :: before), after.
        split; [reflexivity|]. split; [|exact Ha].
        intros e [<- | Hin]; [exact Hlt' | now apply Hb].
    + apply IH in Hres as [[-> Hall] | (t & Hlt' & before & after & -> & Hb & Ha)].
      * left. split; [reflexivity|]. intros e [<- | Hin]; [exact Hge | now apply Hall].
      * right. exists t. split; [exact Hlt'|].
        exists ((uri, time) :: before), after.
        split; [reflexivity|]. split; [|exact Ha].
        intros e [<- | Hin]; [cbn; lia | now apply Hb].
Qed.

Lemma oldest_firstOldest entries result :
  oldest entries None None = Some result ->
  exists time, firstOldest result time entries.
Proof.
  destruct entries as [|[uri time] rest]; cbn [oldest]; [discriminate|].
  intros Hres.
  apply oldest_running in Hres as [[-> Hall] | (t & Hlt & before & after & -> & Hb & Ha)].
  - exists time, [], rest. split; [reflexivity|]. split; [intros e [] | exact Hall].
  - exists t, ((uri, time) :: before), after.
    split; [reflexivity|]. split; [|exact Ha].
    intros e [<- | Hin]; [exact Hlt | now apply Hb].
Qed.

Lemma oldest_nonempty entries :
  entries <> [] -> exists uri, oldest entries None None = Some uri.
Proof.
  destruct entries as [|[uri time] rest]; [congruence|]. intros _.
  cbn [oldest]. generalize uri time. clear.
  induction rest as [|[u t] rest IH]; intros best bestTime; cbn [oldest]; eauto.
  destruct (t <? bestTime)%Z; apply IH.
Qed.

Lemma firstOldest_In uri time entries :
  firstOldest uri time entries -> In uri (keys entries).
Proof.
  intros (before & after & -> & _). unfold keys. rewrite map_app.
  apply in_or_app. right. now left.
Qed.

Lemma victim_firstOldest s uri :
  victim s = Some uri ->
  truthy uri = true /\ exists time, firstOldest uri time (openFiles s).
Proof.
  unfold victim. destruct (oldest (openFiles s) None None) as [u|] eqn:E;
    [|discriminate].
  destruct (truthy u) eqn:Ht; [|discriminate]. intros [= <-].
  split; [exact Ht | now apply oldest_firstOldest].
Qed.

Lemma evictLRU_cases s :
  (victim s = None /\ evictLRU s = s)
  \/ (exists uri, victim s = Some uri /\ has uri (openFiles s) = true
                  /\ evictLRU s = closeEntry uri s).
Proof.
  unfold evictLRU. destruct (victim s) as [uri|] eqn:E; [right | now left].
  exists uri. repeat split.
  apply victim_firstOldest in E as (_ & time & Hfirst).
  apply has_In. eapply firstOldest_In; eauto.
Qed.

(** *** The notifications mirror the map *)

Lemma opens_snoc uri log n :
  opens uri (log ++ [n]) = opens uri log + (if isOpenOf uri n then 1 else 0).
Proof.
  unfold opens. rewrite List.filter_app, length_app. cbn.
  now destruct (isOpenOf uri n).
Qed.

Lemma closes_snoc uri log n :
  closes uri (log ++ [n]) = closes uri log + (if isCloseOf uri n then 1 else 0).
Proof.
  unfold closes. rewrite List.filter_app, length_app. cbn.
  now destruct (isCloseOf uri n).
Qed.

Lemma mirrored_closeEntry uri s :
  mirrored s -> has uri (openFiles s) = true -> mirrored (closeEntry uri s).
Proof.
  intros [Hnd Hcount] Hhas. split; cbn [closeEntry openFiles sent].
  - now apply NoDup_keys_mapDelete.
  - intros v. specialize (Hcount v). unfold isOpen in *.
    cbn [openFiles closeEntry]. rewrite opens_snoc, closes_snoc. cbn.
    destruct (String.eqb_spec uri v) as [->|Hne].
    + rewrite has_mapDelete_same. rewrite Hhas in Hcount. lia.
    + rewrite has_mapDelete_other by congruence. lia.
Qed.

Lemma mirrored_touch uri now s :
  mirrored s -> has uri (openFiles s) = true -> mirrored (touch uri now s).
Proof.
  intros [Hnd Hcount] Hhas. split; cbn [touch openFiles sent].
  - now apply NoDup_keys_mapSet.
  - intros v. specialize (Hcount v). unfold isOpen in *. cbn [openFiles touch].
    destruct (String.eqb_spec v uri) as [->|Hne].
    + now rewrite has_mapSet_same, Hhas in *.
    + now rewrite has_mapSet_other.
Qed.

Lemma mirrored_open uri languageId text now s :
  mirrored s -> has uri (openFiles s) = false ->
  mirrored (touch uri now (notify (DidOpen uri languageId 1 text) s)).
Proof.
  intros [Hnd Hcount] Hhas. split; cbn [touch notify openFiles sent].
  - now apply NoDup_keys_mapSet.
  - intros v. specialize (Hcount v). unfold isOpen in *.
    cbn [openFiles touch notify]. rewrite opens_snoc, closes_snoc. cbn.
    destruct (String.eqb_spec uri v) as [->|Hne].
    + rewrite has_mapSet_same. rewrite Hhas in Hcount. lia.
    + rewrite has_mapSet_other by congruence. lia.
Qed.

Lemma mirrored_setInFlight flights s :
  mirrored s -> mirrored (setInFlight flights s).
Proof. intros H. exact H. Qed.

Lemma mirrored_evictLRU s : mirrored s -> mirrored (evictLRU s).
Proof.
  intros H. destruct (evictLRU_cases s) as [[_ ->] | (uri & _ & Hhas & ->)];
    [exact H | now apply mirrored_closeEntry].
Qed.

Lemma closeEach_fields uris :
  forall s,
    openFiles (closeEach uris s) = openFiles s
    /\ inFlightOpens (closeEach uris s) = inFlightOpens s
    /\ onFileClosedCallback (closeEach uris s) = onFileClosedCallback s
    /\ sent (closeEach uris s) = sent s ++ List.map DidClose uris.
Proof.
  induction uris as [|uri rest IH]; intros s; cbn [closeEach List.map].
  - now rewrite app_nil_r.
  - destruct (IH {| openFiles := openFiles s;
                   inFlightOpens := inFlightOpens s;
                   onFileClosedCallback := onFileClosedCallback s;
                   sent := sent s ++ [DidClose uri];
                   diagnosticsCache := runCallback s uri |})
      as (H1 & H2 & H3 & H4).
    rewrite H1, H2, H3, H4. cbn. now rewrite <- app_assoc.
Qed.

Lemma opens_closeAll uri uris log :
  opens uri (log ++ List.map DidClose uris) = opens uri log.
Proof.
  unfold opens. rewrite List.filter_app, length_app.
  replace (List.filter (isOpenOf uri) (List.map DidClose uris)) with (@nil Notification);
    [cbn; lia|].
  induction uris; cbn; auto.
Qed.

Lemma closes_closeAll uri uris log :
  List.NoDup uris ->
  closes uri (log ++ List.map DidClose uris)
  = closes uri log + (if existsb (String.eqb uri) uris then 1 else 0).
Proof.
  intros Hnd. unfold closes. rewrite List.filter_app, length_app. f_equal.
  induction uris as [|u rest IH]; cbn; [reflexivity|].
  inversion Hnd as [|? ? Hnotin Hnd']; subst. specialize (IH Hnd').
  rewrite (String.eqb_sym uri u).
  destruct (String.eqb_spec u uri) as [->|Hne]; cbn.
  - rewrite IH.
    destruct (existsb (String.eqb uri) rest) eqn:E; [|reflexivity].
    apply existsb_exists in E as (k & Hk & Heq).
    apply String.eqb_eq in Heq. subst. contradiction.
  - exact IH.
Qed.

Lemma mirrored_closeAll s : mirrored s -> mirrored (closeAll s).
Proof.
  intros [Hnd Hcount]. unfold closeAll.
  destruct (closeEach_fields (keys (openFiles s)) s) as (_ & _ & _ & Hsent).
  split; cbn [openFiles sent]; [constructor|].
  intros uri. rewrite Hsent, opens_closeAll, closes_closeAll by exact Hnd.
  specialize (Hcount uri). unfold isOpen, has in *. cbn [openFiles keys List.map existsb].
  destruct (existsb (String.eqb uri) (keys (openFiles s))); lia.
Qed.

(** *** Single flight *)

Lemma owners_app a b : owners (a ++ b) = owners a ++ owners b.
Proof. unfold owners. apply flat_map_app. Qed.

Lemma owners_middle a task b :
  owners (a ++ task :: b)
  = owners a ++ match owned task with Some uri => [uri] | None => [] end
    ++ owners b.
Proof. rewrite owners_app. reflexivity. Qed.

Lemma Reading_owner uri tasks : In (Reading uri) tasks -> In uri (owners tasks).
Proof.
  intros Hin. unfold owners. apply in_flat_map.
  exists (Reading uri). split; [exact Hin | now left].
Qed.

Lemma settle_at tasks index task :
  nth_error tasks index = Some task ->
  exists before after,
    tasks = before ++ task :: after
    /\ (forall outcome, settle index (Done outcome) tasks = before ++ after)
    /\ (forall task', settle index (Suspended task') tasks
                      = before ++ task' :: after).
Proof.
  intros Hnth. apply nth_error_split in Hnth as (before & after & -> & <-).
  exists before, after. split; [reflexivity|].
  assert (Hfirst : firstn (length before) (before ++ task :: after) = before).
  { clear. induction before; cbn; [reflexivity | now f_equal]. }
  assert (Hskip : skipn (S (length before)) (before ++ task :: after) = after).
  { clear. induction before; cbn; [reflexivity | assumption]. }
  split; intros; unfold settle; now rewrite Hfirst, Hskip.
Qed.

Lemma has_after_delete v uri m :
  has v m = false -> has v (mapDelete uri m) = false.
Proof.
  intros H. apply has_false. rewrite In_keys_mapDelete.
  apply has_false in H. tauto.
Qed.

Lemma claim_spec uri s :
  mirrored s ->
  exists s',
    claim uri s = (s', Suspended (Reading uri))
    /\ mirrored s'
    /\ inFlightOpens s' = {[uri]} ∪ inFlightOpens s
    /\ (forall v, has v (openFiles s) = false -> has v (openFiles s') = false).
Proof.
  intros Hm. unfold claim.
  set (s1 := setInFlight ({[uri]} ∪ inFlightOpens s) s).
  destruct (maxOpenFiles <=? length (openFiles s1))%nat.
  - exists (evictLRU s1). split; [reflexivity|].
    split; [now apply mirrored_evictLRU|].
    destruct (evictLRU_cases s1) as [[_ ->] | (v & _ & _ & ->)]; cbn; auto.
    split; [reflexivity|]. intros w. apply has_after_delete.
  - exists s1. split; [reflexivity|]. split; [exact Hm|]. split; auto.
Qed.

Lemma NoDup_middle (x : string) a b :
  List.NoDup (a ++ x :: b) <-> ~ In x (a ++ b) /\ List.NoDup (a ++ b).
Proof.
  split.
  - intros H. apply List.NoDup_remove in H. tauto.
  - intros [Hnot Hnd].
    apply (Permutation.Permutation_NoDup (l := x :: a ++ b));
      [apply Permutation.Permutation_middle | now constructor].
Qed.

Lemma coherent_start : coherent start.
Proof.
  constructor; cbn.
  - split; [constructor | reflexivity].
  - constructor.
  - intros uri. split; [intros H; now apply elem_of_empty in H | intros []].
  - intros uri [].
Qed.

Lemma step_coherent sys event : coherent sys -> coherent (step sys event).
Proof.
  intros [Hm Hsingle Hflight Hreading].
  destruct sys as [s tasks]. cbn [tracker pool] in *.
  destruct event as [filePath now | index now | index content now | index
                     | filePath | ]; cbn [step tracker pool].
  - (* a call *)
    unfold ensureFileOpen. set (uri := normalizeToUri filePath).
    destruct (has uri (openFiles s)) eqn:Hhas.
    + constructor; cbn [tracker pool touch inFlightOpens openFiles]; auto.
      * now apply mirrored_touch.
      * intros v Hv. rewrite has_mapSet_other; [now apply Hreading|].
        intros ->. apply Hreading in Hv. congruence.
    + destruct (bool_decide (uri ∈ inFlightOpens s)) eqn:Hin.
      * constructor; cbn [tracker pool]; auto.
        -- rewrite owners_app. cbn. now rewrite app_nil_r.
        -- intros v. rewrite owners_app. cbn. rewrite app_nil_r. apply Hflight.
        -- intros v Hv. apply in_app_or in Hv as [Hv | [Hv | []]];
             [now apply Hreading | discriminate].
      * apply bool_decide_eq_false in Hin.
        destruct (claim_spec uri s Hm) as (s' & -> & Hm' & Hfl & Hkeep).
        constructor; cbn [tracker pool]; auto.
        -- rewrite owners_app. cbn.
           apply List.NoDup_app; [exact Hsingle | repeat constructor; intros [] |].
           intros v Hv [<- | []]. apply Hin. now apply Hflight.
        -- intros v. rewrite Hfl, owners_app, in_app_iff. cbn.
           rewrite <- Hflight, elem_of_union, elem_of_singleton.
           intuition congruence.
        -- intros v Hv. apply in_app_or in Hv as [Hv | [[= <-] | []]];
             apply Hkeep; [now apply Hreading | exact Hhas].
  - (* the wait loop polls *)
    destruct (nth_error tasks index) as [[uri | uri | uri failure]|] eqn:Hnth;
      try (constructor; assumption).
    destruct (settle_at _ _ _ Hnth) as (before & after & -> & Hdone & Hsusp).
    rewrite owners_middle in Hsingle, Hflight. cbn [owned app] in Hsingle, Hflight.
    unfold poll.
    destruct (bool_decide (uri ∈ inFlightOpens s)) eqn:Hin.
    + rewrite Hsusp. constructor; cbn [tracker pool]; auto;
        rewrite ?owners_middle; cbn [owned app]; auto.
    + apply bool_decide_eq_false in Hin.
      destruct (has uri (openFiles s)) eqn:Hhas.
      * rewrite Hdone.
        constructor; cbn [tracker pool touch inFlightOpens openFiles];
          rewrite ?owners_app; auto.
        -- now apply mirrored_touch.
        -- intros v Hv.
           assert (Hv' : In (Reading v) (before ++ Polling uri :: after)).
           { apply in_app_or in Hv as [Hv | Hv]; apply in_or_app;
               [now left | right; now right]. }
           rewrite has_mapSet_other; [now apply Hreading|].
           intros ->. apply Hreading in Hv'. congruence.
      * destruct (claim_spec uri s Hm) as (s' & -> & Hm' & Hfl & Hkeep).
        rewrite Hsusp. constructor; cbn [tracker pool]; auto.
        -- rewrite owners_middle. cbn [owned app]. apply NoDup_middle.
           split; [|exact Hsingle]. intros Hown. apply Hin. now apply Hflight.
        -- intros v. rewrite Hfl, owners_middle. cbn [owned app].
           specialize (Hflight v). rewrite in_app_iff in Hflight.
           rewrite in_app_iff. cbn [In].
           rewrite elem_of_union, elem_of_singleton, Hflight.
           intuition congruence.
        -- intros v Hv. apply Hkeep.
           apply in_app_or in Hv as [Hv | [[= <-] | Hv]]; [|exact Hhas|];
             apply Hreading; apply in_or_app; [now left | right; now right].
  - (* the read settles *)
    destruct (nth_error tasks index) as [[uri | uri | uri failure]|] eqn:Hnth;
      try (constructor; assumption).
    destruct (settle_at _ _ _ Hnth) as (before & after & -> & Hdone & Hsusp).
    assert (Hhas : has uri (openFiles s) = false).
    { apply Hreading. apply in_or_app. right. now left. }
    rewrite owners_middle in Hsingle, Hflight. cbn [owned app] in Hsingle, Hflight.
    unfold readSettled. destruct content as [text | error]; rewrite Hsusp.
    + constructor; cbn [tracker pool touch notify inFlightOpens openFiles];
        rewrite ?owners_middle; cbn [owned app]; auto.
      * now apply mirrored_open.
      * intros v Hv.
        assert (Hne : v <> uri).
        { intros ->. apply NoDup_middle in Hsingle as [Hnot _]. apply Hnot.
          rewrite <- owners_app. apply Reading_owner.
          apply in_app_or in Hv as [Hv | [Hv | Hv]]; [|discriminate|];
            apply in_or_app; auto. }
        rewrite has_mapSet_other by exact Hne. apply Hreading.
        apply in_app_or in Hv as [Hv | [Hv | Hv]]; [|discriminate|];
          apply in_or_app; [now left | right; now right].
    + constructor; cbn [tracker pool];
        rewrite ?owners_middle; cbn [owned app]; auto.
      intros v Hv. apply Hreading.
      apply in_app_or in Hv as [Hv | [Hv | Hv]]; [|discriminate|];
        apply in_or_app; [now left | right; now right].
  - (* a call resumes after [openFile] *)
    destruct (nth_error tasks index) as [[uri | uri | uri failure]|] eqn:Hnth;
      try (constructor; assumption).
    destruct (settle_at _ _ _ Hnth) as (before & after & -> & Hdone & Hsusp).
    rewrite owners_middle in Hsingle, Hflight. cbn [owned app] in Hsingle, Hflight.
    apply NoDup_middle in Hsingle as [Hnot Hnd].
    unfold finish. rewrite Hdone.
    constructor; cbn [tracker pool setInFlight inFlightOpens openFiles];
      rewrite ?owners_app; auto.
    + intros v. specialize (Hflight v).
      rewrite in_app_iff in Hflight. cbn [In] in Hflight.
      rewrite in_app_iff in Hnot. rewrite in_app_iff.
      rewrite elem_of_difference, elem_of_singleton, Hflight.
      intuition congruence.
    + intros v Hv. apply Hreading.
      apply in_app_or in Hv as [Hv | Hv]; apply in_or_app;
        [now left | right; now right].
  - (* closeFile *)
    unfold closeFile. set (uri := normalizeToUri filePath).
    destruct (has uri (openFiles s)) eqn:Hhas; constructor; cbn [tracker pool];
      auto.
    + now apply mirrored_closeEntry.
    + intros v Hv. cbn. apply has_after_delete. now apply Hreading.
  - (* closeAll *)
    constructor; cbn [tracker pool]; auto.
    + now apply mirrored_closeAll.
    + unfold closeAll. cbn [inFlightOpens].
      destruct (closeEach_fields (keys (openFiles s)) s) as (_ & -> & _).
      exact Hflight.
Qed.

Lemma run_coherent events : forall sys, coherent sys -> coherent (run events sys).
Proof.
  induction events as [|event events IH]; intros sys Hsys; cbn; auto.
  apply IH. now apply step_coherent.
Qed.

(** C2, amended. At every turn of the event loop, whatever calls, polls,
    settled reads, resumptions and closes came before: no two suspended
    calls have an open of the same URI in flight, [inFlightOpens] holds
    exactly the URIs of the opens in flight, and for every URI the
    [didOpen] notifications sent number the [didClose] notifications sent
    plus one if the URI is in the map (so a second [didOpen] never follows
    a first without a [didClose] between them). A caller that finds the URI
    in the in-flight set is suspended without touching the tracker, and
    stays so while the URI is in the set; once it has left the set, the
    caller returns the URI as already open (only refreshing the timestamp)
    if the URI is in the map, and otherwise (the open failed, or the file
    was closed meanwhile) puts the URI in flight again and opens the file
    itself. The call that has the open in flight sends one [didOpen] and
    puts the URI in the map when its read succeeds, and sends nothing when
    the read fails. *)
Theorem single_flight_per_uri :
  (forall events,
     let sys := run events start in
     List.NoDup (owners (pool sys))
     /\ (forall uri, uri ∈ inFlightOpens (tracker sys)
                     <-> In uri (owners (pool sys)))
     /\ (forall uri,
           opens uri (sent (tracker sys))
           = closes uri (sent (tracker sys)) + isOpen uri (tracker sys)))
  /\ (forall s filePath now,
        has (normalizeToUri filePath) (openFiles s) = false ->
        normalizeToUri filePath ∈ inFlightOpens s ->
        ensureFileOpen filePath now s
        = (s, Suspended (Polling (normalizeToUri filePath))))
  /\ (forall s uri now,
        uri ∈ inFlightOpens s -> poll uri now s = (s, Suspended (Polling uri)))
  /\ (forall s uri now,
        uri ∉ inFlightOpens s -> has uri (openFiles s) = true ->
        poll uri now s = (touch uri now s, Done (Returned uri))
        /\ sent (touch uri now s) = sent s)
  /\ (forall s uri now,
        uri ∉ inFlightOpens s -> has uri (openFiles s) = false ->
        exists s',
          poll uri now s = (s', Suspended (Reading uri))
          /\ uri ∈ inFlightOpens s')
  /\ (forall s uri text now,
        let s' := fst (readSettled uri (ReadOk text) now s) in
        sent s' = sent s ++ [DidOpen uri (getLanguageId (uriToPath uri)) 1 text]
        /\ has uri (openFiles s') = true)
  /\ (forall s uri error now,
        fst (readSettled uri (ReadFailed error) now s) = s).
Proof.
  split; [|split; [|split; [|split; [|split; [|split]]]]].
  - intros events sys.
    destruct (run_coherent events start coherent_start)
      as [[_ Hcount] Hsingle Hflight _].
    auto.
  - intros s filePath now Hhas Hin. unfold ensureFileOpen.
    rewrite Hhas. now rewrite bool_decide_eq_true_2.
  - intros s uri now Hin. unfold poll. now rewrite bool_decide_eq_true_2.
  - intros s uri now Hin Hhas. unfold poll.
    rewrite bool_decide_eq_false_2 by exact Hin. now rewrite Hhas.
  - intros s uri now Hin Hhas. unfold poll.
    rewrite bool_decide_eq_false_2 by exact Hin. rewrite Hhas.
    unfold claim. eexists. split; [reflexivity|].
    set (s1 := setInFlight ({[uri]} ∪ inFlightOpens s) s).
    assert (Hs1 : uri ∈ inFlightOpens s1).
    { cbn. apply elem_of_union. left. now apply elem_of_singleton. }
    destruct (maxOpenFiles <=? length (openFiles s1))%nat; [|exact Hs1].
    destruct (evictLRU_cases s1) as [[_ ->] | (v & _ & _ & ->)]; exact Hs1.
  - intros s uri text now. cbn. split; [reflexivity | apply has_mapSet_same].
  - reflexivity.
Qed.

(** *** Closing and the diagnostics cache *)

Lemma closeEntry_cache uri s cache' :
  onFileClosedCallback s = Some clearDiagnosticsHook ->
  diagnosticsCache (closeEntry uri s) = Some cache' ->
  exists cache, diagnosticsCache s = Some cache /\ cache' = delete uri cache.
Proof.
  intros Hhook. cbn [closeEntry diagnosticsCache]. unfold runCallback.
  rewrite Hhook. unfold clearDiagnosticsHook, clearForFile.
  destruct (diagnosticsCache s) as [cache|]; [|discriminate].
  intros [= <-]. eauto.
Qed.

Lemma closeEach_cache uris :
  forall s cache',
    onFileClosedCallback s = Some clearDiagnosticsHook ->
    diagnosticsCache (closeEach uris s) = Some cache' ->
    exists cache,
      diagnosticsCache s = Some cache
      /\ forall uri,
           cache' !! uri
           = if existsb (String.eqb uri) uris then None else cache !! uri.
Proof.
  induction uris as [|u rest IH]; intros s cache' Hhook; cbn [closeEach existsb].
  - intros ->. eauto.
  - intros Hcache. apply IH in Hcache as (cache1 & Hc1 & Hlookup);
      [|exact Hhook].
    cbn [diagnosticsCache] in Hc1. unfold runCallback in Hc1.
    rewrite Hhook in Hc1. unfold clearDiagnosticsHook, clearForFile in Hc1.
    destruct (diagnosticsCache s) as [cache|]; [|discriminate].
    injection Hc1 as <-. exists cache. split; [reflexivity|].
    intros uri. rewrite Hlookup.
    destruct (existsb (String.eqb uri) rest); [now rewrite orb_true_r|].
    rewrite orb_false_r. destruct (String.eqb_spec uri u) as [->|Hne].
    + apply lookup_delete_eq.
    + now apply lookup_delete_ne.
Qed.

Lemma closeEntry_closes uri s :
  onFileClosedCallback s = Some clearDiagnosticsHook ->
  sent (closeEntry uri s) = sent s ++ [DidClose uri]
  /\ has uri (openFiles (closeEntry uri s)) = false
  /\ noDiagnostics uri (closeEntry uri s)
  /\ (cacheWithinMap s -> cacheWithinMap (closeEntry uri s)).
Proof.
  intros Hhook. split; [reflexivity|]. split; [apply has_mapDelete_same|].
  split.
  - intros cache' Hc. apply closeEntry_cache in Hc as (cache & _ & ->);
      [|exact Hhook].
    apply lookup_delete_eq.
  - intros Hwithin cache' v Hc Hsome.
    apply closeEntry_cache in Hc as (cache & Hc & ->); [|exact Hhook].
    cbn [closeEntry openFiles].
    destruct (String.eqb_spec v uri) as [->|Hne].
    + rewrite lookup_delete_eq in Hsome. now destruct Hsome.
    + rewrite lookup_delete_ne in Hsome by congruence.
      rewrite has_mapDelete_other by exact Hne. eapply Hwithin; eauto.
Qed.

(** C3. With the close hook of src/index.ts registered, every closing path
    of the tracker sends the [textDocument/didClose] notification for each
    file it closes, removes the file from the map, and leaves the
    diagnostics cache without an entry for it: [closeFile] for an open
    file, [evictLRU] for the file it picks, [closeAll] for every open file
    (emptying the map). Each of them keeps the diagnostics cache within the
    map: if every cache entry was for a file in the map before, that holds
    afterwards. *)
Theorem closing_clears_diagnostics (s : State) :
  onFileClosedCallback s = Some clearDiagnosticsHook ->
  (forall filePath,
     let uri := normalizeToUri filePath in
     let s' := closeFile filePath s in
     (has uri (openFiles s) = true ->
        sent s' = sent s ++ [DidClose uri]
        /\ has uri (openFiles s') = false
        /\ noDiagnostics uri s')
     /\ (has uri (openFiles s) = false -> s' = s)
     /\ (cacheWithinMap s -> cacheWithinMap s'))
  /\ (let s' := evictLRU s in
      (forall uri, victim s = Some uri ->
         sent s' = sent s ++ [DidClose uri]
         /\ has uri (openFiles s') = false
         /\ noDiagnostics uri s')
      /\ (victim s = None -> s' = s)
      /\ (cacheWithinMap s -> cacheWithinMap s'))
  /\ (let s' := closeAll s in
      sent s' = sent s ++ List.map DidClose (keys (openFiles s))
      /\ openFiles s' = []
      /\ (forall uri, has uri (openFiles s) = true -> noDiagnostics uri s')
      /\ (cacheWithinMap s -> cacheWithinMap s')).
Proof.
  intros Hhook. split; [|split].
  - intros filePath uri s'. subst s'. unfold closeFile. fold uri.
    destruct (closeEntry_closes uri s Hhook) as (H1 & H2 & H3 & H4).
    destruct (has uri (openFiles s)) eqn:Hhas; repeat split; auto;
      discriminate.
  - intros s'. subst s'. unfold evictLRU.
    destruct (victim s) as [v|] eqn:Hv.
    + destruct (closeEntry_closes v s Hhook) as (H1 & H2 & H3 & H4).
      split; [|split; [discriminate | exact H4]].
      intros u [= <-]. auto.
    + split; [discriminate|]. split; auto.
  - intros s'. subst s'. unfold closeAll. cbn [sent openFiles].
    destruct (closeEach_fields (keys (openFiles s)) s) as (_ & _ & _ & Hsent).
    split; [exact Hsent|]. split; [reflexivity|]. split.
    + intros uri Hhas cache' Hc. cbn [diagnosticsCache] in Hc.
      apply closeEach_cache in Hc as (cache & _ & Hlookup); [|exact Hhook].
      rewrite Hlookup. unfold has in Hhas. now rewrite Hhas.
    + intros Hwithin cache' uri Hc Hsome. cbn [diagnosticsCache] in Hc.
      apply closeEach_cache in Hc as (cache & Hc & Hlookup); [|exact Hhook].
      rewrite Hlookup in Hsome.
      destruct (existsb (String.eqb uri) (keys (openFiles s))) eqn:E;
        [now destruct Hsome|].
      assert (has uri (openFiles s) = true) by (eapply Hwithin; eauto).
      unfold has in *. congruence.
Qed.

(** *** Capacity *)

(** [evictLRU] closes the first entry, in the order of the map, that no
    entry is older than. *)
Lemma evictLRU_removes_first_oldest s uri :
  victim s = Some uri ->
  (exists time, firstOldest uri time (openFiles s))
  /\ openFiles (evictLRU s) = mapDelete uri (openFiles s)
  /\ sent (evictLRU s) = sent s ++ [DidClose uri].
Proof.
  intros Hv. unfold evictLRU. rewrite Hv. cbn.
  apply victim_firstOldest in Hv as [_ H]. auto.
Qed.

Lemma victim_exists s :
  openFiles s <> [] ->
  (forall uri, In uri (keys (openFiles s)) -> truthy uri = true) ->
  exists uri, victim s = Some uri.
Proof.
  intros Hne Htruthy. unfold victim.
  destruct (oldest_nonempty _ Hne) as [uri Huri]. rewrite Huri.
  rewrite Htruthy; eauto.
  apply oldest_firstOldest in Huri as [time H]. eapply firstOldest_In; eauto.
Qed.

Section Awaited.
(** A normalized URI is never the empty string. *)
Hypothesis normalizeToUri_truthy :
  forall filePath, truthy (normalizeToUri filePath) = true.

(** When every call is awaited before the next one is made, the map stays
    within its capacity. *)
Lemma awaited_call_within_capacity filePath content now sys :
  settled sys -> settled (run (awaited filePath content now sys) sys).
Proof.
  intros (Hpool & Hflight & Hnd & Htruthy & Hlen).
  destruct sys as [s tasks]. cbn [pool tracker] in *. subst tasks.
  unfold awaited. cbn [pool length run fold_left].
  set (uri := normalizeToUri filePath).
  assert (Hcall :
    (has uri (openFiles s) = true
     /\ step {| tracker := s; pool := [] |} (Call filePath now)
        = {| tracker := touch uri now s; pool := [] |})
    \/ (has uri (openFiles s) = false
        /\ exists s1,
             step {| tracker := s; pool := [] |} (Call filePath now)
             = {| tracker := s1; pool := [Reading uri] |}
             /\ inFlightOpens s1 = {[uri]} ∪ inFlightOpens s
             /\ List.NoDup (keys (openFiles s1))
             /\ (forall v, In v (keys (openFiles s1)) -> In v (keys (openFiles s)))
             /\ S (length (openFiles s1)) <= maxOpenFiles)).
  { cbn [step tracker pool]. unfold ensureFileOpen. fold uri.
    destruct (has uri (openFiles s)) eqn:Hhas; [left; auto | right].
    split; [reflexivity|].
    rewrite bool_decide_eq_false_2 by apply Hflight.
    unfold claim. set (s0 := setInFlight ({[uri]} ∪ inFlightOpens s) s).
    destruct (Nat.leb_spec maxOpenFiles (length (openFiles s0))) as [Hfull | Hroom].
    - destruct (victim_exists s0) as [v Hv]; [|exact Htruthy|].
      { intros Hnil. rewrite Hnil in Hfull. cbn in Hfull.
        unfold maxOpenFiles in Hfull. lia. }
      destruct (evictLRU_removes_first_oldest s0 v Hv) as ((time & Hfirst) & Hopen & _).
      exists (evictLRU s0). split; [reflexivity|].
      unfold evictLRU at 1. rewrite Hv. split; [reflexivity|].
      rewrite Hopen. cbn [s0 setInFlight openFiles].
      split; [now apply NoDup_keys_mapDelete|].
      split; [intros w Hw; now apply In_keys_mapDelete in Hw|].
      rewrite length_mapDelete; auto.
      eapply firstOldest_In; eauto.
    - exists s0. cbn [s0 setInFlight openFiles inFlightOpens].
      repeat split; auto. }
  destruct Hcall as [[Hhas ->] | (Hhas & s1 & -> & Hfl & Hnd1 & Hsub & Hlen1)].
  - cbn [step pool nth_error tracker].
    repeat split; cbn [pool tracker touch inFlightOpens openFiles]; auto.
    + now apply NoDup_keys_mapSet.
    + intros v Hv. rewrite keys_mapSet_present in Hv by now apply has_In.
      now apply Htruthy.
    + rewrite length_mapSet_present by now apply has_In. exact Hlen.
  - assert (Hfresh : ~ In uri (keys (openFiles s1))).
    { intros Hin. apply Hsub in Hin. apply has_false in Hhas. contradiction. }
    assert (Hgone : forall v, v ∉ inFlightOpens s1 ∖ {[uri]}).
    { intros v. rewrite Hfl, elem_of_difference, elem_of_union, elem_of_singleton.
      specialize (Hflight v). tauto. }
    cbn [step pool nth_error tracker]. unfold readSettled.
    destruct content as [text | error];
      cbn [settle firstn skipn app step pool nth_error tracker finish];
      repeat split;
      cbn [pool tracker touch notify setInFlight inFlightOpens openFiles];
      auto.
    + now apply NoDup_keys_mapSet.
    + intros v Hv. rewrite keys_mapSet_absent in Hv by exact Hfresh.
      apply in_app_or in Hv as [Hv | [<- | []]];
        [apply Htruthy; now apply Hsub | apply normalizeToUri_truthy].
    + rewrite length_mapSet_absent by exact Hfresh. exact Hlen1.
    + lia.
Qed.

Lemma openInTurn_within_capacity files :
  forall now sys, settled sys -> settled (openInTurn files now sys).
Proof.
  induction files as [|file rest IH]; intros now sys Hsys; cbn [openInTurn];
    [exact Hsys|].
  apply IH. now apply awaited_call_within_capacity.
Qed.

End Awaited.

(** *** Capacity when opens overlap *)

Lemma reading_app a b : reading (a ++ b) = reading a + reading b.
Proof. unfold reading. now rewrite List.filter_app, length_app. Qed.

Lemma reading_middle a task b :
  reading (a ++ task :: b)
  = reading a + (if isReading task then 1 else 0) + reading b.
Proof.
  rewrite reading_app. unfold reading. cbn [List.filter].
  destruct (isReading task); cbn [length]; lia.
Qed.

Lemma length_mapSet_le uri time m :
  length (mapSet uri time m) <= S (length m).
Proof.
  destruct (has uri m) eqn:E.
  - rewrite length_mapSet_present by now apply has_In. lia.
  - rewrite length_mapSet_absent by now apply has_false. lia.
Qed.

Lemma In_keys_mapSet v uri time m :
  In v (keys (mapSet uri time m)) -> v = uri \/ In v (keys m).
Proof.
  destruct (has uri m) eqn:E.
  - rewrite keys_mapSet_present by now apply has_In. auto.
  - rewrite keys_mapSet_absent by now apply has_false.
    intros H. apply in_app_or in H as [H | [<- | []]]; auto.
Qed.

Lemma length_mapDelete_le uri m : length (mapDelete uri m) <= length m.
Proof. unfold mapDelete. apply List.filter_length_le. Qed.

(** What [claim] does to the size of the map: below the capacity nothing,
    at or above it one entry goes. *)
Lemma claim_size uri s :
  List.NoDup (keys (openFiles s)) ->
  (forall v, In v (keys (openFiles s)) -> truthy v = true) ->
  exists s',
    claim uri s = (s', Suspended (Reading uri))
    /\ (forall v, In v (keys (openFiles s')) -> In v (keys (openFiles s)))
    /\ (length (openFiles s) < maxOpenFiles ->
        length (openFiles s') = length (openFiles s))
    /\ (maxOpenFiles <= length (openFiles s) ->
        S (length (openFiles s')) = length (openFiles s)).
Proof.
  intros Hnd Htruthy. unfold claim.
  set (s0 := setInFlight ({[uri]} ∪ inFlightOpens s) s).
  change (openFiles s0) with (openFiles s).
  destruct (Nat.leb_spec maxOpenFiles (length (openFiles s))) as [Hfull | Hroom].
  - destruct (victim_exists s0) as [v Hv]; [|exact Htruthy|].
    { cbn. intros Hnil. rewrite Hnil in Hfull. cbn in Hfull.
      unfold maxOpenFiles in Hfull. lia. }
    destruct (evictLRU_removes_first_oldest s0 v Hv)
      as ((time & Hfirst) & Hopen & _).
    exists (evictLRU s0). split; [reflexivity|]. rewrite Hopen.
    cbn [s0 setInFlight openFiles].
    split; [intros w Hw; now apply In_keys_mapDelete in Hw|].
    split; [lia|]. intros _.
    apply length_mapDelete; [exact Hnd|].
    eapply firstOldest_In; eauto.
  - exists s0. split; [reflexivity|]. cbn [s0 setInFlight openFiles].
    split; [auto|]. split; [reflexivity | lia].
Qed.

Lemma run_app events later sys :
  run (events ++ later) sys = run later (run events sys).
Proof. unfold run. apply fold_left_app. Qed.

Lemma reading_le tasks : reading tasks <= length tasks.
Proof. unfold reading. apply List.filter_length_le. Qed.

Lemma length_settle index progress tasks task :
  nth_error tasks index = Some task ->
  length (settle index progress tasks) <= length tasks.
Proof.
  intros Hnth.
  destruct (settle_at _ _ _ Hnth) as (before & after & -> & Hdone & Hsusp).
  destruct progress as [outcome | task'].
  - rewrite Hdone, !length_app. cbn. lia.
  - rewrite Hsusp, !length_app. cbn. lia.
Qed.

Lemma step_call_pool filePath now sys :
  length (pool (step sys (Call filePath now))) <= S (length (pool sys)).
Proof.
  cbn [step]. destruct (ensureFileOpen filePath now (tracker sys)) as [s progress].
  cbn [pool]. destruct progress; [lia|]. rewrite length_app. cbn. lia.
Qed.

Lemma step_progress_pool event sys :
  progresses event = true ->
  length (pool (step sys event)) <= length (pool sys).
Proof.
  destruct event as [filePath now | index now | index content now | index
                     | filePath | ]; try discriminate; intros _; cbn [step].
  - destruct (nth_error (pool sys) index) as [[uri | uri | uri failure]|] eqn:Hnth;
      auto.
    destruct (poll uri now (tracker sys)) as [s progress]. cbn [pool].
    eapply length_settle; eauto.
  - destruct (nth_error (pool sys) index) as [[uri | uri | uri failure]|] eqn:Hnth;
      auto.
    destruct (readSettled uri content now (tracker sys)) as [s progress].
    cbn [pool]. eapply length_settle; eauto.
  - destruct (nth_error (pool sys) index) as [[uri | uri | uri failure]|] eqn:Hnth;
      auto.
    destruct (finish uri failure (tracker sys)) as [s progress].
    cbn [pool]. eapply length_settle; eauto.
Qed.

Lemma readsWithin_app c events later sys :
  readsWithin c events sys -> readsWithin c later (run events sys) ->
  readsWithin c (events ++ later) sys.
Proof.
  revert sys. induction events as [|event events IH]; intros sys He Hl;
    [exact Hl|].
  destruct He as [Hnow Hrest]. split; [exact Hnow|].
  apply IH; [exact Hrest | exact Hl].
Qed.

Lemma readsWithin_prefix c events later sys :
  readsWithin c (events ++ later) sys -> readsWithin c events sys.
Proof.
  revert sys. induction events as [|event events IH]; intros sys H;
    [exact I|].
  destruct H as [Hnow Hrest]. split; [exact Hnow | now apply IH].
Qed.

(** While the pool holds at most [c] calls, at most [c] reads are in
    flight. *)
Lemma settling_within c settling :
  forall sys,
    forallb progresses settling = true -> length (pool sys) <= c ->
    readsWithin c settling sys.
Proof.
  induction settling as [|event settling IH]; intros sys Hall Hlen; [exact I|].
  cbn [forallb] in Hall. apply andb_prop in Hall as [Hevent Hall].
  pose proof (step_progress_pool event sys Hevent) as Hstep.
  split.
  - pose proof (reading_le (pool (step sys event))). lia.
  - apply IH; [exact Hall | lia].
Qed.

Lemma calls_within c batch :
  forall times sys,
    length (pool sys) + length batch <= c ->
    readsWithin c (callsAt batch times) sys
    /\ length (pool (run (callsAt batch times) sys))
       <= length (pool sys) + length batch.
Proof.
  induction batch as [|file batch IH]; intros times sys Hlen.
  - cbn. split; [exact I | lia].
  - destruct times as [|now times]; [cbn; split; [exact I | lia]|].
    cbn [callsAt length] in *.
    pose proof (step_call_pool file now sys) as Hstep.
    destruct (IH times (step sys (Call file now)) ltac:(lia)) as [Hreads Hpool].
    split; [split; [|exact Hreads]|].
    + pose proof (reading_le (pool (step sys (Call file now)))). lia.
    + change (run (Call file now :: callsAt batch times) sys)
        with (run (callsAt batch times) (step sys (Call file now))).
      lia.
Qed.

Lemma batchesOf_size fuel :
  forall sources batch,
    In batch (batchesOf fuel sources) -> length batch <= batchSize.
Proof.
  induction fuel as [|fuel IH]; intros sources batch; [intros []|].
  destruct sources as [|source sources]; [intros []|].
  cbn [batchesOf]. intros [<- | Hin]; [|now apply IH in Hin].
  rewrite length_firstn. lia.
Qed.

Lemma openSourceFiles_within remaining :
  forall sys events,
    (forall batch, In batch remaining -> length batch <= batchSize) ->
    pool sys = [] ->
    openSourceFiles remaining sys events ->
    readsWithin batchSize events sys /\ pool (run events sys) = [].
Proof.
  induction remaining as [|batch rest IH]; intros sys events Hsize Hpool Hrun;
    cbn [openSourceFiles] in Hrun.
  - subst events. split; [exact I | exact Hpool].
  - destruct Hrun as (times & settling & later & Htimes & Hall & -> & Hdone & Hrest).
    destruct (calls_within batchSize batch times sys) as [Hcalls Hlen].
    { rewrite Hpool. cbn. apply Hsize. now left. }
    rewrite Hpool in Hlen. cbn [length plus] in Hlen.
    pose proof (Hsize batch (or_introl eq_refl)) as Hbatch.
    destruct (IH _ later (fun b Hb => Hsize b (or_intror Hb)) Hdone Hrest)
      as [Hlater Hend].
    split.
    + apply readsWithin_app; [|exact Hlater].
      apply readsWithin_app; [exact Hcalls|].
      apply settling_within; [exact Hall | lia].
    + rewrite run_app. exact Hend.
Qed.

Section Overlap.
(** A normalized URI is never the empty string. *)
Hypothesis normalizeToUri_truthy :
  forall filePath, truthy (normalizeToUri filePath) = true.

Lemma bounded_start c : bounded c start.
Proof.
  constructor; cbn.
  - apply coherent_start.
  - intros uri [].
  - intros task [].
  - unfold maxOpenFiles. lia.
Qed.

Lemma step_bounded c sys event :
  bounded c sys -> reading (pool (step sys event)) <= c ->
  bounded c (step sys event).
Proof.
  intros [Hco Hkeys Htasks Hsize] Hreads.
  pose proof (step_coherent sys event Hco) as Hco'.
  constructor; [exact Hco'| | |]; clear Hco';
    destruct Hco as [[Hnd _] _ _ Hreading];
    destruct sys as [s tasks]; cbn [tracker pool] in *;
    revert Hreads;
    destruct event as [filePath now | index now | index content now | index
                       | filePath | ]; cbn [step tracker pool].
  (* keys *)
  - unfold ensureFileOpen. set (uri := normalizeToUri filePath).
    destruct (has uri (openFiles s)) eqn:Hhas; cbn [tracker touch openFiles].
    + intros _ v Hv.
      apply In_keys_mapSet in Hv as [-> | Hv];
        [apply normalizeToUri_truthy | auto].
    + destruct (bool_decide (uri ∈ inFlightOpens s)); cbn [tracker]; auto.
      destruct (claim_size uri s Hnd Hkeys) as (s' & -> & Hsub & _).
      cbn [tracker]. auto.
  - destruct (nth_error tasks index) as [[uri | uri | uri failure]|] eqn:Hnth;
      cbn [tracker]; auto.
    unfold poll.
    destruct (bool_decide (uri ∈ inFlightOpens s)); cbn [tracker]; auto.
    destruct (has uri (openFiles s)) eqn:Hhas; cbn [tracker touch openFiles].
    + intros _ v Hv. apply In_keys_mapSet in Hv as [-> | Hv]; auto.
      apply Hkeys. now apply has_In.
    + destruct (claim_size uri s Hnd Hkeys) as (s' & -> & Hsub & _).
      cbn [tracker]. auto.
  - destruct (nth_error tasks index) as [[uri | uri | uri failure]|] eqn:Hnth;
      cbn [tracker]; auto.
    unfold readSettled. destruct content as [text | error];
      cbn [tracker touch notify openFiles]; auto.
    intros _ v Hv. apply In_keys_mapSet in Hv as [-> | Hv]; auto.
    apply nth_error_In in Hnth. exact (Htasks _ Hnth).
  - destruct (nth_error tasks index) as [[uri | uri | uri failure]|] eqn:Hnth;
      cbn [tracker]; auto.
  - unfold closeFile.
    destruct (has (normalizeToUri filePath) (openFiles s));
      cbn [closeEntry openFiles]; auto.
    intros _ v Hv. apply In_keys_mapDelete in Hv as [Hv _]. auto.
  - intros _ v [].
  (* tasks *)
  - unfold ensureFileOpen. set (uri := normalizeToUri filePath).
    destruct (has uri (openFiles s)) eqn:Hhas; cbn [pool]; auto.
    destruct (bool_decide (uri ∈ inFlightOpens s)); cbn [pool].
    + intros _ task Hin. apply in_app_or in Hin as [Hin | [<- | []]]; auto.
      apply normalizeToUri_truthy.
    + destruct (claim_size uri s Hnd Hkeys) as (s' & -> & _). cbn [pool].
      intros _ task Hin. apply in_app_or in Hin as [Hin | [<- | []]]; auto.
      apply normalizeToUri_truthy.
  - destruct (nth_error tasks index) as [[uri | uri | uri failure]|] eqn:Hnth;
      cbn [pool]; auto.
    assert (Huri : truthy uri = true)
      by exact (Htasks _ (nth_error_In _ _ Hnth)).
    destruct (settle_at _ _ _ Hnth) as (before & after & -> & Hdone & Hsusp).
    assert (Hrest : forall task, In task (before ++ after) ->
                      truthy (uriOf task) = true).
    { intros task Hin. apply Htasks. apply in_app_or in Hin as [Hin | Hin];
        apply in_or_app; [now left | right; now right]. }
    unfold poll.
    destruct (bool_decide (uri ∈ inFlightOpens s)); cbn [pool].
    + rewrite Hsusp. auto.
    + destruct (has uri (openFiles s)); cbn [pool].
      * rewrite Hdone. auto.
      * destruct (claim_size uri s Hnd Hkeys) as (s' & -> & _). cbn [pool].
        rewrite Hsusp. intros _ task Hin.
        apply in_app_or in Hin as [Hin | [<- | Hin]]; [| exact Huri |];
          apply Hrest; apply in_or_app; auto.
  - destruct (nth_error tasks index) as [[uri | uri | uri failure]|] eqn:Hnth;
      cbn [pool]; auto.
    assert (Huri : truthy uri = true)
      by exact (Htasks _ (nth_error_In _ _ Hnth)).
    destruct (settle_at _ _ _ Hnth) as (before & after & -> & Hdone & Hsusp).
    assert (Hrest : forall task, In task (before ++ after) ->
                      truthy (uriOf task) = true).
    { intros task Hin. apply Htasks. apply in_app_or in Hin as [Hin | Hin];
        apply in_or_app; [now left | right; now right]. }
    unfold readSettled. destruct content as [text | error];
      cbn [pool]; rewrite Hsusp; intros _ task Hin;
      (apply in_app_or in Hin as [Hin | [<- | Hin]]; [| exact Huri |];
       apply Hrest; apply in_or_app; auto).
  - destruct (nth_error tasks index) as [[uri | uri | uri failure]|] eqn:Hnth;
      cbn [pool]; auto.
    destruct (settle_at _ _ _ Hnth) as (before & after & -> & Hdone & Hsusp).
    unfold finish. cbn [pool]. rewrite Hdone. intros _ task Hin.
    apply Htasks. apply in_app_or in Hin as [Hin | Hin];
      apply in_or_app; [now left | right; now right].
  - auto.
  - auto.
  (* size *)
  - unfold ensureFileOpen. set (uri := normalizeToUri filePath).
    destruct (has uri (openFiles s)) eqn:Hhas; cbn [tracker pool touch openFiles].
    + intros _. rewrite length_mapSet_present by now apply has_In. exact Hsize.
    + destruct (bool_decide (uri ∈ inFlightOpens s)); cbn [tracker pool].
      * intros _. rewrite reading_app.
        change (reading [Polling uri]) with 0. lia.
      * destruct (claim_size uri s Hnd Hkeys) as (s' & -> & _ & Hroom & Hfull).
        cbn [tracker pool]. rewrite reading_app.
        change (reading [Reading uri]) with 1. intros Hreads.
        destruct (Nat.lt_ge_cases (length (openFiles s)) maxOpenFiles) as [H | H].
        -- rewrite (Hroom H). lia.
        -- specialize (Hfull H). lia.
  - destruct (nth_error tasks index) as [[uri | uri | uri failure]|] eqn:Hnth;
      cbn [tracker pool]; auto.
    destruct (settle_at _ _ _ Hnth) as (before & after & -> & Hdone & Hsusp).
    rewrite reading_middle in Hsize. cbn [isReading] in Hsize.
    unfold poll.
    destruct (bool_decide (uri ∈ inFlightOpens s)); cbn [tracker pool].
    + rewrite Hsusp, reading_middle. cbn [isReading]. auto.
    + destruct (has uri (openFiles s)) eqn:Hhas; cbn [tracker pool touch openFiles].
      * rewrite Hdone, reading_app.
        rewrite length_mapSet_present by now apply has_In. lia.
      * destruct (claim_size uri s Hnd Hkeys) as (s' & -> & _ & Hroom & Hfull).
        cbn [tracker pool]. rewrite Hsusp, reading_middle. cbn [isReading].
        intros Hreads.
        destruct (Nat.lt_ge_cases (length (openFiles s)) maxOpenFiles) as [H | H].
        -- rewrite (Hroom H). lia.
        -- specialize (Hfull H). lia.
  - destruct (nth_error tasks index) as [[uri | uri | uri failure]|] eqn:Hnth;
      cbn [tracker pool]; auto.
    destruct (settle_at _ _ _ Hnth) as (before & after & -> & Hdone & Hsusp).
    rewrite reading_middle in Hsize. cbn [isReading] in Hsize.
    unfold readSettled. destruct content as [text | error];
      cbn [tracker pool touch notify openFiles];
      rewrite Hsusp, reading_middle; cbn [isReading]; intros _.
    + pose proof (length_mapSet_le uri now (openFiles s)). lia.
    + lia.
  - destruct (nth_error tasks index) as [[uri | uri | uri failure]|] eqn:Hnth;
      cbn [tracker pool]; auto.
    destruct (settle_at _ _ _ Hnth) as (before & after & -> & Hdone & Hsusp).
    rewrite reading_middle in Hsize. cbn [isReading] in Hsize.
    unfold finish. cbn [tracker pool setInFlight openFiles].
    rewrite Hdone, reading_app. lia.
  - unfold closeFile.
    destruct (has (normalizeToUri filePath) (openFiles s));
      cbn [closeEntry openFiles]; auto.
    intros _. pose proof (length_mapDelete_le (normalizeToUri filePath) (openFiles s)).
    lia.
  - intros _. unfold closeAll. cbn [openFiles length]. lia.
Qed.

Lemma run_bounded c events :
  forall sys, bounded c sys -> readsWithin c events sys -> bounded c (run events sys).
Proof.
  induction events as [|event events IH]; intros sys Hsys Hreads;
    cbn [run fold_left]; [exact Hsys|].
  destruct Hreads as [Hnow Hrest].
  apply IH; [now apply step_bounded | exact Hrest].
Qed.

(** X19. Over every schedule of calls, polls, settled reads, resumptions
    and closes on a fresh tracker during which at most [c] reads are in
    flight at any turn, the entries of the map and the reads in flight
    together stay below [maxOpenFiles + c]: overlapping opens can take the
    map past its capacity, but by no more than [c - 1] entries. *)
Theorem open_files_exceed_capacity_by_less_than_the_overlap
  (c : nat) (events : list Event) :
  readsWithin c events start ->
  let sys := run events start in
  length (openFiles (tracker sys)) + reading (pool sys) < maxOpenFiles + c.
Proof.
  intros Hreads sys.
  destruct (run_bounded c events start (bounded_start c) Hreads) as [_ _ _ H].
  exact H.
Qed.

(** X20. [openSourceFiles] alone on the tracker, started with no call
    pending and at most 109 files open: whatever the sources, the times of
    the calls and the order in which the reads of a batch settle or fail,
    at every turn the map holds at most [maxOpenFiles + batchSize - 1 = 109]
    entries, and when the last batch has ended no call is pending. *)
Theorem openSourceFiles_exceeds_capacity_by_at_most_nine
  (sources : list string) (sys : System) (events : list Event) :
  coherent sys ->
  pool sys = [] ->
  (forall uri, In uri (keys (openFiles (tracker sys))) -> truthy uri = true) ->
  length (openFiles (tracker sys)) <= maxOpenFiles + batchSize - 1 ->
  openSourceFiles (batches sources) sys events ->
  pool (run events sys) = []
  /\ forall turns later, events = turns ++ later ->
       length (openFiles (tracker (run turns sys)))
       <= maxOpenFiles + batchSize - 1.
Proof.
  intros Hcoherent Hpool Hkeys Hlen Hrun.
  destruct (openSourceFiles_within (batches sources) sys events) as [Hreads Hend];
    [apply batchesOf_size | exact Hpool | exact Hrun |].
  split; [exact Hend|]. intros turns later ->.
  apply readsWithin_prefix in Hreads.
  assert (Hsys : bounded batchSize sys).
  { constructor; [exact Hcoherent | exact Hkeys | |].
    - rewrite Hpool. intros task [].
    - rewrite Hpool. cbn [reading List.filter length].
      unfold maxOpenFiles, batchSize in *. lia. }
  destruct (run_bounded batchSize turns sys Hsys Hreads)
    as [_ _ _ H].
  unfold maxOpenFiles, batchSize in *. lia.
Qed.

End Overlap.

(** *** Failed opens, eviction and [closeAll] *)

Lemma flight_released (uri : string) (flights : gset string) :
  uri ∉ flights -> ({[uri]} ∪ flights) ∖ {[uri]} = flights.
Proof.
  intros Hnot. apply set_eq. intros v.
  rewrite elem_of_difference, elem_of_union, elem_of_singleton.
  split; [intros [[-> | Hv] Hne]; [congruence | exact Hv]|].
  intros Hv. split; [now right|]. intros ->. contradiction.
Qed.

(** X21. An awaited [ensureFileOpen] whose read fails, on a tracker with
    no call pending and the file not open, throws [Failed to open file
    <uri>: <error>] and sends no [didOpen]. Below the capacity it leaves
    the tracker exactly as it was; at the capacity it has nevertheless
    evicted the least recently used file, so one file fewer is open. *)
Theorem failed_open_still_evicts_at_capacity
  (filePath error : string) (now : Z) (sys : System) :
  settled sys ->
  has (normalizeToUri filePath) (openFiles (tracker sys)) = false ->
  let uri := normalizeToUri filePath in
  let message := "Failed to open file " +:+ uri +:+ ": " +:+ error in
  let sys' := run (awaited filePath (ReadFailed error) now sys) sys in
  (exists s1,
     ensureFileOpen filePath now (tracker sys) = (s1, Suspended (Reading uri))
     /\ readSettled uri (ReadFailed error) now s1
        = (s1, Suspended (Finishing uri (Some message)))
     /\ finish uri (Some message) s1 = (tracker sys', Done (Threw message)))
  /\ pool sys' = []
  /\ (length (openFiles (tracker sys)) < maxOpenFiles ->
      tracker sys' = tracker sys)
  /\ (length (openFiles (tracker sys)) = maxOpenFiles ->
      exists victim time,
        firstOldest victim time (openFiles (tracker sys))
        /\ openFiles (tracker sys') = mapDelete victim (openFiles (tracker sys))
        /\ sent (tracker sys') = sent (tracker sys) ++ [DidClose victim]
        /\ S (length (openFiles (tracker sys'))) = maxOpenFiles).
Proof.
  intros (Hpool & Hflight & Hnd & Htruthy & Hlen) Hhas uri message sys'.
  destruct sys as [s tasks]. cbn [pool tracker] in *. subst tasks.
  fold uri in Hhas.
  assert (Hcall : ensureFileOpen filePath now s = claim uri s).
  { unfold ensureFileOpen. fold uri. rewrite Hhas.
    now rewrite bool_decide_eq_false_2 by apply Hflight. }
  assert (Hrun : sys' = {| tracker := fst (finish uri (Some message) (fst (claim uri s)));
                           pool := [] |}).
  { subst sys'. unfold awaited. cbn [pool length run fold_left step tracker].
    rewrite Hcall. unfold claim at 1. cbn [pool app nth_error tracker].
    reflexivity. }
  rewrite Hrun. cbn [tracker pool].
  split; [|split; [reflexivity|split]].
  - exists (fst (claim uri s)). rewrite Hcall. repeat split.
  - intros Hroom. unfold claim. cbn [openFiles setInFlight].
    destruct (Nat.leb_spec maxOpenFiles (length (openFiles s))); [lia|].
    cbn [fst finish setInFlight inFlightOpens openFiles onFileClosedCallback
         sent diagnosticsCache].
    rewrite flight_released by apply Hflight. now destruct s.
  - intros Hfull. unfold claim. cbn [openFiles setInFlight].
    destruct (Nat.leb_spec maxOpenFiles (length (openFiles s))); [|lia].
    set (s0 := setInFlight ({[uri]} ∪ inFlightOpens s) s).
    destruct (victim_exists s0) as [v Hv]; [|exact Htruthy|].
    { cbn. intros Hnil. rewrite Hnil in Hfull. discriminate. }
    destruct (evictLRU_removes_first_oldest s0 v Hv)
      as ((time & Hfirst) & Hopen & Hsent).
    exists v, time. cbn [fst finish setInFlight openFiles sent].
    rewrite Hopen, Hsent. cbn [s0 setInFlight openFiles sent] in *.
    repeat split; [exact Hfirst|].
    rewrite length_mapDelete; [exact Hfull | exact Hnd |].
    eapply firstOldest_In; eauto.
Qed.

(** X22. On a map of distinct non-empty URIs that is not empty,
    [evictLRU] closes exactly one file: the first entry, in the order of
    the map, whose timestamp no entry is below (entries before it are
    strictly newer). It sends one [didClose] for it, the map loses that
    entry and no other. *)
Theorem evictLRU_closes_the_first_oldest (s : State) :
  openFiles s <> [] ->
  List.NoDup (keys (openFiles s)) ->
  (forall uri, In uri (keys (openFiles s)) -> truthy uri = true) ->
  exists uri time,
    firstOldest uri time (openFiles s)
    /\ openFiles (evictLRU s) = mapDelete uri (openFiles s)
    /\ S (length (openFiles (evictLRU s))) = length (openFiles s)
    /\ sent (evictLRU s) = sent s ++ [DidClose uri]
    /\ has uri (openFiles (evictLRU s)) = false
    /\ (forall other, other <> uri ->
          has other (openFiles (evictLRU s)) = has other (openFiles s)).
Proof.
  intros Hne Hnd Htruthy.
  destruct (victim_exists s Hne Htruthy) as [uri Hv].
  destruct (evictLRU_removes_first_oldest s uri Hv)
    as ((time & Hfirst) & Hopen & Hsent).
  exists uri, time. rewrite Hopen, Hsent.
  split; [exact Hfirst|]. split; [reflexivity|]. split.
  - apply length_mapDelete; [exact Hnd|]. eapply firstOldest_In; eauto.
  - split; [reflexivity|]. split; [apply has_mapDelete_same|].
    intros other Hother. now apply has_mapDelete_other.
Qed.

(** X23. [closeAll] does not cancel an open that is in flight: when the
    read of a suspended call settles after [closeAll], the file is opened
    all the same, so the map then holds that one file, the [didOpen]
    follows the [didClose] notifications, and the in-flight set is what it
    was. *)
Theorem closeAll_does_not_cancel_a_read
  (sys : System) (index : nat) (uri text : string) (now : Z) :
  nth_error (pool sys) index = Some (Reading uri) ->
  let sys' := run [CloseAll; ReadSettled index (ReadOk text) now] sys in
  openFiles (tracker sys') = [(uri, now)]
  /\ sent (tracker sys')
     = sent (tracker sys)
       ++ List.map DidClose (keys (openFiles (tracker sys)))
       ++ [DidOpen uri (getLanguageId (uriToPath uri)) 1 text]
  /\ inFlightOpens (tracker sys') = inFlightOpens (tracker sys).
Proof.
  intros Hnth sys'. subst sys'.
  cbn [run fold_left step pool tracker]. rewrite Hnth.
  cbn [readSettled tracker touch notify openFiles sent inFlightOpens closeAll
       mapSet].
  destruct (closeEach_fields (keys (openFiles (tracker sys))) (tracker sys))
    as (_ & Hfl & _ & Hsent).
  rewrite Hsent, Hfl, <- app_assoc. repeat split.
Qed.


(** *** Opening, asking and closing *)

Lemma getOpenFiles_has uri s :
  uri ∈ getOpenFiles s <-> has uri (openFiles s) = true.
Proof.
  unfold getOpenFiles. rewrite elem_of_list_to_set, has_In.
  apply list_elem_of_In.
Qed.

(** An awaited call whose read succeeds, on a tracker with no call
    pending, leaves the file in the map. *)
Lemma awaited_open_has filePath text now sys :
  settled sys ->
  let opened := run (awaited filePath (ReadOk text) now sys) sys in
  pool opened = []
  /\ has (normalizeToUri filePath) (openFiles (tracker opened)) = true.
Proof.
  intros (Hpool & Hflight & _) opened. subst opened.
  destruct sys as [s tasks]. cbn [pool tracker] in *. subst tasks.
  unfold awaited. cbn [pool length run fold_left step tracker].
  unfold ensureFileOpen. set (uri := normalizeToUri filePath).
  destruct (has uri (openFiles s)) eqn:Hhas.
  - cbn [pool nth_error tracker touch openFiles].
    split; [reflexivity | apply has_mapSet_same].
  - rewrite bool_decide_eq_false_2 by apply Hflight.
    unfold claim at 1. cbn [pool app nth_error tracker readSettled settle
                            firstn skipn finish setInFlight touch notify
                            openFiles].
    split; [reflexivity | apply has_mapSet_same].
Qed.

(** X26. Opening, asking and closing agree. After an awaited
    [ensureFileOpen] whose read succeeds, on a tracker with no call
    pending, [isFileOpen] answers true for the path and [getOpenFiles]
    holds its URI; after [closeFile] for the path [isFileOpen] answers
    false, [getOpenFiles] no longer holds the URI, one [didClose] was sent,
    the answer for every path with another URI is unchanged, and a second
    [closeFile] changes nothing. *)
Theorem open_ask_close_round_trip
  (filePath text : string) (now : Z) (sys : System) :
  settled sys ->
  let uri := normalizeToUri filePath in
  let opened := run (awaited filePath (ReadOk text) now sys) sys in
  let closed := step opened (CloseFile filePath) in
  (isFileOpen filePath (tracker opened) = true
   /\ uri ∈ getOpenFiles (tracker opened))
  /\ (isFileOpen filePath (tracker closed) = false
      /\ uri ∉ getOpenFiles (tracker closed))
  /\ sent (tracker closed) = sent (tracker opened) ++ [DidClose uri]
  /\ (forall other,
        normalizeToUri other <> uri ->
        isFileOpen other (tracker closed) = isFileOpen other (tracker opened))
  /\ step closed (CloseFile filePath) = closed.
Proof.
  intros Hsettled uri opened closed.
  destruct (awaited_open_has filePath text now sys Hsettled) as [Hpool Hhas].
  fold opened in Hpool, Hhas. fold uri in Hhas.
  assert (Hclosed : tracker closed = closeEntry uri (tracker opened)).
  { subst closed. cbn [step tracker]. unfold closeFile. fold uri.
    now rewrite Hhas. }
  assert (Hgone : has uri (openFiles (tracker closed)) = false).
  { rewrite Hclosed. apply has_mapDelete_same. }
  split; [split; [exact Hhas | now apply getOpenFiles_has]|].
  split; [split; [exact Hgone|]|].
  { rewrite getOpenFiles_has. congruence. }
  split; [now rewrite Hclosed|]. split.
  - intros other Hother. unfold isFileOpen. rewrite Hclosed.
    cbn [closeEntry openFiles]. now apply has_mapDelete_other.
  - destruct closed as [s tasks] eqn:E. cbn [step tracker pool] in *.
    unfold closeFile. fold uri. now rewrite Hgone.
Qed.

End Tracker.

Example getLanguageId_examples :
  List.map getLanguageId ["/p/a.c"; "/p/a.CPP"; "/p/a.h"; "/p/a.mm"; "/p/Makefile"]
  = ["c"; "cpp"; "cpp"; "objective-cpp"; "cpp"].
Proof. reflexivity. Qed.

Example two_opens_in_turn :
  let sys := openInTurn fileUri id (sourceFiles 2) 1 start in
  openFiles (tracker sys)
  = [("file:///proj/src/f001.cpp", 1%Z); ("file:///proj/src/f002.cpp", 2%Z)]
  /\ pool sys = []
  /\ sent (tracker sys)
     = [DidOpen "file:///proj/src/f001.cpp" "cpp" 1 "int x;";
        DidOpen "file:///proj/src/f002.cpp" "cpp" 1 "int x;"].
Proof. vm_compute. auto. Qed.

(** Three overlapping calls for one file: the first owns the open, the
    other two wait, and one [didOpen] is sent. *)
Example three_callers_one_didOpen :
  let a := "/proj/a.cpp" in
  let sys :=
    run fileUri id
      [Call a 0; Call a 1; Call a 2; Poll 1 10;
       ReadSettled 0 (ReadOk "int x;") 11; Poll 2 12; Resume 0;
       Poll 0 20; Poll 0 22] start in
  pool sys = []
  /\ sent (tracker sys) = [DidOpen (fileUri a) "cpp" 1 "int x;"]
  /\ openFiles (tracker sys) = [(fileUri a, 22%Z)].
Proof. vm_compute. auto. Qed.

(** C2, as stated, fails when the open in flight fails: the first caller's
    read is rejected, so its open sends no [didOpen]; the second caller,
    which found the URI in the in-flight set and waited, does not proceed as
    already open but puts the URI in flight again, reads the file and sends
    the [didOpen] itself; if its read is rejected too, the two overlapping
    calls send no [didOpen] at all. *)
Lemma waiter_opens_after_failed_open :
  let a := "/proj/a.cpp" in
  let waiting :=
    run fileUri id
      [Call a 0; Call a 1; ReadSettled 0 (ReadFailed "ENOENT") 2; Resume 0]
      start in
  let polled := step fileUri id waiting (Poll 0 11) in
  let opened :=
    run fileUri id [ReadSettled 0 (ReadOk "int x;") 12; Resume 0] polled in
  (pool waiting = [Polling (fileUri a)] /\ sent (tracker waiting) = []
   /\ has (fileUri a) (openFiles (tracker waiting)) = false)
  /\ (pool polled = [Reading (fileUri a)]
      /\ bool_decide (fileUri a ∈ inFlightOpens (tracker polled)) = true)
  /\ (pool opened = []
      /\ sent (tracker opened) = [DidOpen (fileUri a) "cpp" 1 "int x;"])
  /\ sent (tracker (run fileUri id
                      [ReadSettled 0 (ReadFailed "ENOENT") 12; Resume 0] polled))
     = [].
Proof. vm_compute. auto 10. Qed.

Example closeFile_clears_entry :
  let s := closeFile fileUri "/proj/a.cpp" twoOpenFiles in
  keys (openFiles s) = ["file:///proj/b.cpp"]
  /\ List.last (sent s) (DidClose EmptyString) = DidClose "file:///proj/a.cpp"
  /\ option_map (fun cache => (cache !! "file:///proj/a.cpp",
                               cache !! "file:///proj/b.cpp"))
       (diagnosticsCache s)
     = Some (None, Some []).
Proof. vm_compute. auto. Qed.

(** The theorem at [closeAll] on a tracker with two open files. *)
Lemma closing_clears_diagnostics_witness :
  onFileClosedCallback twoOpenFiles = Some clearDiagnosticsHook
  /\ sent (closeAll twoOpenFiles)
     = sent twoOpenFiles
       ++ [DidClose "file:///proj/a.cpp"; DidClose "file:///proj/b.cpp"]
  /\ openFiles (closeAll twoOpenFiles) = []
  /\ noDiagnostics "file:///proj/a.cpp" (closeAll twoOpenFiles).
Proof.
  split; [reflexivity|].
  destruct (closing_clears_diagnostics fileUri id twoOpenFiles eq_refl)
    as (_ & _ & Hsent & Hopen & Hnone & _).
  split; [exact Hsent|]. split; [exact Hopen|].
  apply Hnone. reflexivity.
Defined.

(** C1, on the code: two overlapping calls of [ensureFileOpen] for new
    files, made when the map holds 100 entries, leave it with 101 entries,
    one more than [maxOpenFiles]; a single eviction was made, of the first
    file opened. *)
Theorem overlapping_opens_exceed_capacity :
  let sys := run fileUri id overlappingPair (atCapacity fileUri id) in
  length (openFiles (tracker (atCapacity fileUri id))) = maxOpenFiles
  /\ pool (atCapacity fileUri id) = []
  /\ pool sys = []
  /\ length (openFiles (tracker sys)) = S maxOpenFiles
  /\ List.filter (fun n => match n with DidClose _ => true | _ => false end)
       (sent (tracker sys))
     = [DidClose (fileUri (sourceFile 1))].
Proof. vm_compute. auto 10. Qed.

(** The same two calls, each awaited before the next, keep the map at its
    capacity. *)
Example awaited_opens_stay_within_capacity :
  let sys :=
    openInTurn fileUri id [sourceFile 101; sourceFile 102] 101
      (atCapacity fileUri id) in
  length (openFiles (tracker sys)) = maxOpenFiles
  /\ List.filter (fun n => match n with DidClose _ => true | _ => false end)
       (sent (tracker sys))
     = [DidClose (fileUri (sourceFile 1)); DidClose (fileUri (sourceFile 2))].
Proof. vm_compute. auto. Qed.

(** *** The language of a file *)

Lemma last_nonempty (A : Type) (l : list A) (d d' : A) :
  l <> [] -> List.last l d = List.last l d'.
Proof.
  induction l as [|a l IH]; [congruence|]. intros _.
  destruct l as [|b l]; [reflexivity|].
  change (List.last (b :: l) d = List.last (b :: l) d').
  apply IH. discriminate.
Qed.

Lemma split_go_nonempty sep cur s : split_go sep cur s <> [].
Proof.
  revert cur. induction s as [|c s IH]; intros cur; cbn [split_go];
    [discriminate|].
  destruct (Ascii.eqb c sep); [discriminate | apply IH].
Qed.

Lemma includes_cons_false c s p :
  includes (String c s) p = false ->
  startsWith (String c s) p = false /\ includes s p = false.
Proof. cbn [includes]. apply orb_false_elim. Qed.

Lemma push_cons cur c s : push cur c +:+ s = cur +:+ String c s.
Proof.
  unfold push. induction cur as [|a cur IH]; [reflexivity|].
  change (String a ((cur +:+ String c EmptyString) +:+ s)
          = String a (cur +:+ String c s)).
  unfold push in IH. now rewrite IH.
Qed.

Lemma split_go_whole cur s :
  includes s "." = false -> split_go "." cur s = [cur +:+ s].
Proof.
  revert cur. induction s as [|c s IH]; intros cur Hnone; cbn [split_go].
  - f_equal. clear. induction cur as [|a cur IH]; [reflexivity|].
    change (String a cur = String a (cur +:+ EmptyString)). now rewrite <- IH.
  - apply includes_cons_false in Hnone as [Hhead Hrest].
    destruct (Ascii.eqb_spec c ".") as [->|Hne].
    { rewrite startsWith_cons, startsWith_empty in Hhead. discriminate. }
    rewrite IH by exact Hrest. now rewrite push_cons.
Qed.

Lemma split_go_last stem ext :
  includes ext "." = false ->
  forall cur d,
    List.last (split_go "." cur (stem +:+ String "." ext)) d = ext.
Proof.
  intros Hnone. induction stem as [|c stem IH]; intros cur d.
  - change (EmptyString +:+ String "." ext) with (String "." ext).
    cbn [split_go]. rewrite Ascii.eqb_refl.
    rewrite split_go_whole by exact Hnone. reflexivity.
  - change (String c stem +:+ String "." ext)
      with (String c (stem +:+ String "." ext)).
    cbn [split_go]. destruct (Ascii.eqb c ".").
    + transitivity
        (List.last (split_go "." EmptyString (stem +:+ String "." ext)) d);
        [|apply IH].
      destruct (split_go "." EmptyString (stem +:+ String "." ext)) eqn:E;
        [|reflexivity].
      now apply split_go_nonempty in E.
    + apply IH.
Qed.

(** X24. [getLanguageId] is decided by what follows the last dot of the
    path, in any letter case: [c] gives [c], [m] gives [objective-c], [mm]
    gives [objective-cpp], and everything else, headers and unknown
    extensions alike, gives [cpp]. *)
Theorem getLanguageId_by_extension (stem ext : string) :
  includes ext "." = false ->
  getLanguageId (stem +:+ String "." ext)
  = let lower := toLowerCase ext in
    if String.eqb lower "c" then "c"
    else if String.eqb lower "m" then "objective-c"
    else if String.eqb lower "mm" then "objective-cpp"
    else "cpp".
Proof.
  intros Hnone. unfold getLanguageId, split.
  rewrite split_go_last by exact Hnone. cbv zeta.
  generalize (toLowerCase ext). intros lower. cbn [existsb].
  repeat match goal with
         | |- context [String.eqb lower ?known] =>
             destruct (String.eqb_spec lower known) as [->|];
             cbn [orb]; try reflexivity
         end.
Qed.

Lemma startsWith_head c s p t :
  startsWith (String c s) (String p t) = true -> p = c.
Proof.
  unfold startsWith. simpl. destruct (ascii_dec p c); [auto | discriminate].
Qed.

(** A path without a dot is its own extension: an absolute one is taken
    for C++. *)
Lemma getLanguageId_without_a_dot (filePath : string) :
  includes filePath "." = false -> startsWith filePath "/" = true ->
  getLanguageId filePath = "cpp".
Proof.
  intros Hnone Habs. unfold getLanguageId, split.
  rewrite split_go_whole by exact Hnone.
  destruct filePath as [|c rest]; [simpl in Habs; discriminate|].
  apply startsWith_head in Habs as <-. reflexivity.
Qed.

(** *** The theorems at concrete trackers *)

Lemma fileUri_truthy filePath : truthy (fileUri filePath) = true.
Proof. reflexivity. Qed.

Lemma settled_start : settled start.
Proof.
  split; [reflexivity|].
  split; [intros uri H; now apply elem_of_empty in H|].
  split; [constructor|]. split; [intros uri []|].
  cbn. unfold maxOpenFiles. lia.
Qed.

(** The theorem at two overlapping opens on a fresh tracker. *)
Lemma open_files_exceed_capacity_by_less_than_the_overlap_witness :
  let sys :=
    run fileUri id
      [Call (sourceFile 1) 1; Call (sourceFile 2) 1;
       ReadSettled 0 (ReadOk "int x;") 2; ReadSettled 1 (ReadOk "int x;") 2;
       Resume 0; Resume 0] start in
  length (openFiles (tracker sys)) + reading (pool sys) < maxOpenFiles + 2.
Proof.
  apply (open_files_exceed_capacity_by_less_than_the_overlap fileUri id
           fileUri_truthy 2).
  vm_compute. repeat split; lia.
Defined.

(** The theorem at a tracker holding a hundred files: the failed open of
    one more leaves ninety-nine. *)
Lemma failed_open_still_evicts_at_capacity_witness :
  length (openFiles (tracker (atCapacity fileUri id))) = maxOpenFiles
  /\ S (length (openFiles
                  (tracker
                     (run fileUri id
                        (awaited (sourceFile 101) (ReadFailed "ENOENT") 101
                           (atCapacity fileUri id))
                        (atCapacity fileUri id)))))
     = maxOpenFiles.
Proof.
  assert (Hfull : length (openFiles (tracker (atCapacity fileUri id)))
                  = maxOpenFiles)
    by (vm_compute; reflexivity).
  split; [exact Hfull|].
  assert (Hnew : has (fileUri (sourceFile 101))
                   (openFiles (tracker (atCapacity fileUri id))) = false)
    by (vm_compute; reflexivity).
  pose proof (failed_open_still_evicts_at_capacity fileUri id
                (sourceFile 101) "ENOENT" 101 (atCapacity fileUri id)
                (openInTurn_within_capacity fileUri id fileUri_truthy
                   (sourceFiles 100) 1 start settled_start)
                Hnew) as H.
  destruct H as (_ & _ & _ & Hevicts).
  destruct (Hevicts Hfull) as (victim & time & _ & _ & _ & Hlen). exact Hlen.
Defined.

(** The theorem at a tracker with two open files: the older one goes. *)
Lemma evictLRU_closes_the_first_oldest_witness :
  exists uri time,
    firstOldest uri time (openFiles twoOpenFiles)
    /\ keys (openFiles (evictLRU twoOpenFiles)) = ["file:///proj/b.cpp"].
Proof.
  destruct (evictLRU_closes_the_first_oldest fileUri id twoOpenFiles)
    as (uri & time & Hfirst & _).
  - discriminate.
  - repeat constructor; cbn; intuition discriminate.
  - intros uri Hin. cbn in Hin.
    repeat (destruct Hin as [<- | Hin]; [reflexivity|]). destruct Hin.
  - exists uri, time. split; [exact Hfirst | reflexivity].
Defined.

(** The theorem at a shutdown that finds one read in flight. *)
Lemma closeAll_does_not_cancel_a_read_witness :
  let reading :=
    run fileUri id [Call "/proj/a.cpp" 1; ReadSettled 0 (ReadOk "int x;") 2;
                    Resume 0; Call "/proj/b.cpp" 3] start in
  let sys' :=
    run fileUri id [CloseAll; ReadSettled 0 (ReadOk "int y;") 5] reading in
  openFiles (tracker sys') = [("file:///proj/b.cpp", 5%Z)]
  /\ sent (tracker sys')
     = [DidOpen "file:///proj/a.cpp" "cpp" 1 "int x;";
        DidClose "file:///proj/a.cpp";
        DidOpen "file:///proj/b.cpp" "cpp" 1 "int y;"].
Proof.
  intros reading sys'.
  destruct (closeAll_does_not_cancel_a_read fileUri id reading 0
              "file:///proj/b.cpp" "int y;" 5 eq_refl) as (Hopen & Hsent & _).
  split; [exact Hopen | exact Hsent].
Defined.

(** A project of 110 sources: the eleventh batch finds the map full, its
    first call evicts one file and the other nine find room, so the batch
    leaves 109 files open. *)
Example openSourceFiles_reaches_109 :
  let sys :=
    run fileUri id (openInBatches (batches (sourceFiles 110)) 1) start in
  pool sys = []
  /\ length (openFiles (tracker sys)) = 109
  /\ List.filter (fun n => match n with DidClose _ => true | _ => false end)
       (sent (tracker sys))
     = [DidClose (fileUri (sourceFile 1))].
Proof. vm_compute. auto. Qed.

(** The theorem at a project of twelve sources, opened in two batches. *)
Lemma openSourceFiles_exceeds_capacity_by_at_most_nine_witness :
  let events := openInBatches (batches (sourceFiles 12)) 1 in
  pool (run fileUri id events start) = []
  /\ forall turns later, events = turns ++ later ->
       length (openFiles (tracker (run fileUri id turns start)))
       <= maxOpenFiles + batchSize - 1.
Proof.
  apply (openSourceFiles_exceeds_capacity_by_at_most_nine fileUri id
           fileUri_truthy (sourceFiles 12) start).
  - apply coherent_start.
  - reflexivity.
  - intros uri [].
  - cbn. lia.
  - exists (repeat 1%Z 10), (settleInOrder 10 2),
      (openInBatches (batches (skipn 10 (sourceFiles 12))) 3).
    split; [reflexivity|]. split; [reflexivity|]. split; [reflexivity|].
    split; [vm_compute; reflexivity|].
    exists (repeat 3%Z 2), (settleInOrder 2 4), [].
    split; [reflexivity|]. split; [reflexivity|]. split; [reflexivity|].
    split; [vm_compute; reflexivity | reflexivity].
Defined.

(** The theorem at a header in upper case. *)
Lemma getLanguageId_by_extension_witness :
  getLanguageId "/proj/include/Widget.HPP" = "cpp".
Proof.
  apply (getLanguageId_by_extension "/proj/include/Widget" "HPP").
  reflexivity.
Defined.

(** The theorem at a fresh tracker. *)
Lemma open_ask_close_round_trip_witness :
  let opened :=
    run fileUri id (awaited "/proj/a.cpp" (ReadOk "int x;") 1 start) start in
  let closed := step fileUri id opened (CloseFile "/proj/a.cpp") in
  (isFileOpen fileUri "/proj/a.cpp" (tracker opened) = true
   /\ "file:///proj/a.cpp" ∈ getOpenFiles (tracker opened))
  /\ (isFileOpen fileUri "/proj/a.cpp" (tracker closed) = false
      /\ "file:///proj/a.cpp" ∉ getOpenFiles (tracker closed)).
Proof.
  destruct (open_ask_close_round_trip fileUri id "/proj/a.cpp" "int x;" 1 start
              settled_start) as (Hopened & Hclosed & _).
  split; [exact Hopened | exact Hclosed].
Defined.

End FileTracker.
